(** * The mail client of libraries/mail/client.cpp

    A shallow embedding of [bts::mail::detail::client_impl] and of the
    facade [bts::mail::client]: the three record types, the four stores,
    the outgoing pipeline (proof of work, transmission, finalize), the
    fetcher and the queries, followed by the properties of the client's
    specification. *)

From stdpp Require Import gmap strings list fin_maps sorting.
From Stdlib Require Import ZArith Lia.

Local Open Scope string_scope.
Local Open Scope Z_scope.
Set Warnings "-clear-no-such-hyp".

(** ** Data model *)

(** [ripemd160], [message_id_type], [fc::time_point_sec], [public_key_type],
    [address] and [fc::ip::endpoint] are numbers here; a digest is compared
    as the 160-bit number it spells, as [ripemd160]'s operators do. *)
Abbreviation message_id_type := Z (only parsing).
Abbreviation ripemd160 := Z (only parsing).
Abbreviation time_point_sec := Z (only parsing).
Abbreviation public_key_type := Z (only parsing).
Abbreviation address := Z (only parsing).
Abbreviation endpoint := Z (only parsing).

(** Modelled from the spec: the enumeration [client::mail_status] is declared
    in bts/mail/client.hpp.  The spec lists the states of a processing record
    as submitted, proof_of_work, transmitting, accepted, failed, canceled, in
    the order the code compares them ([status <= proof_of_work],
    [status >= transmitting]), and [received] as the state of inbound mail. *)
Inductive mail_status :=
| submitted | proof_of_work | transmitting | accepted | received | failed | canceled.

Global Instance mail_status_eq_dec : EqDecision mail_status.
Proof. solve_decision. Defined.

Definition status_rank (s : mail_status) : Z :=
  match s with
  | submitted => 0 | proof_of_work => 1 | transmitting => 2 | accepted => 3
  | received => 4 | failed => 5 | canceled => 6
  end.

(** Modelled from the spec: the message types of bts/mail/message.hpp that
    the client tells apart. *)
Module mail.
Inductive message_type := encrypted | email | transaction_notice | other_message_type.
End mail.

Global Instance message_type_eq_dec : EqDecision mail.message_type.
Proof. solve_decision. Defined.

Module message.
Record t := mk {
  type : mail.message_type;
  recipient : public_key_type;
  nonce : Z;                      (* uint64_t *)
  timestamp : time_point_sec;
  data : string
}.
Definition set_nonce (n : Z) (m : t) : t :=
  mk (type m) (recipient m) n (timestamp m) (data m).
Definition set_timestamp (ts : time_point_sec) (m : t) : t :=
  mk (type m) (recipient m) (nonce m) ts (data m).
(** [++content.nonce] on a 64-bit counter. *)
Definition incr_nonce (m : t) : t := set_nonce ((nonce m + 1) mod 2 ^ 64) m.
End message.

(** Modelled from the spec: [mail_server_list] and [mail_server_endpoint]
    are declared in bts/mail/client.hpp; the spec has the servers of a
    record as a set of name and endpoint, one entry per name.  [insert]
    keeps the entry of a name that is already there. *)
Abbreviation mail_server_endpoint := (string * endpoint)%type (only parsing).
Abbreviation mail_server_list := (list (string * endpoint)) (only parsing).

Definition server_insert (server : mail_server_endpoint) (servers : mail_server_list)
  : mail_server_list :=
  if decide (server.1 ∈ servers.*1) then servers else servers ++ [server].

Module mail_record.
Record t := mk {
  id : ripemd160;
  status : mail_status;
  sender : string;
  recipient : string;
  recipient_key : public_key_type;
  content : message.t;
  mail_servers : mail_server_list;
  proof_of_work_target : ripemd160;
  failure_reason : string
}.
Definition set_id (x : ripemd160) (r : t) : t :=
  mk x (status r) (sender r) (recipient r) (recipient_key r) (content r)
     (mail_servers r) (proof_of_work_target r) (failure_reason r).
Definition set_status (s : mail_status) (r : t) : t :=
  mk (id r) s (sender r) (recipient r) (recipient_key r) (content r)
     (mail_servers r) (proof_of_work_target r) (failure_reason r).
Definition set_content (c : message.t) (r : t) : t :=
  mk (id r) (status r) (sender r) (recipient r) (recipient_key r) c
     (mail_servers r) (proof_of_work_target r) (failure_reason r).
Definition set_mail_servers (l : mail_server_list) (r : t) : t :=
  mk (id r) (status r) (sender r) (recipient r) (recipient_key r) (content r)
     l (proof_of_work_target r) (failure_reason r).
Definition set_proof_of_work_target (x : ripemd160) (r : t) : t :=
  mk (id r) (status r) (sender r) (recipient r) (recipient_key r) (content r)
     (mail_servers r) x (failure_reason r).
Definition set_failure_reason (why : string) (r : t) : t :=
  mk (id r) (status r) (sender r) (recipient r) (recipient_key r) (content r)
     (mail_servers r) (proof_of_work_target r) why.

(** What [FC_REFLECT(bts::mail::detail::mail_record, (id)(status)(sender)
    (recipient)(recipient_key)(content)(mail_servers)(proof_of_work_target))]
    writes to disk: the eight listed members. *)
Record reflected := mk_reflected {
  r_id : ripemd160;
  r_status : mail_status;
  r_sender : string;
  r_recipient : string;
  r_recipient_key : public_key_type;
  r_content : message.t;
  r_mail_servers : mail_server_list;
  r_proof_of_work_target : ripemd160
}.
Definition pack (r : t) : reflected :=
  mk_reflected (id r) (status r) (sender r) (recipient r) (recipient_key r)
               (content r) (mail_servers r) (proof_of_work_target r).
(** Reading back fills a default-constructed record: a member that is not
    reflected keeps its default, the empty string. *)
Definition unpack (p : reflected) : t :=
  mk (r_id p) (r_status p) (r_sender p) (r_recipient p) (r_recipient_key p)
     (r_content p) (r_mail_servers p) (r_proof_of_work_target p) "".
End mail_record.

Module mail_archive_record.
Record t := mk {
  id : ripemd160;
  status : mail_status;
  sender : string;
  recipient : string;
  recipient_address : address;
  content : message.t;
  mail_servers : mail_server_list
}.
Definition set_status (s : mail_status) (r : t) : t :=
  mk (id r) s (sender r) (recipient r) (recipient_address r) (content r) (mail_servers r).
Definition set_mail_servers (l : mail_server_list) (r : t) : t :=
  mk (id r) (status r) (sender r) (recipient r) (recipient_address r) (content r) l.
End mail_archive_record.

Module email_header.
Record t := mk {
  id : ripemd160;
  sender : string;
  recipient : string;
  subject : string;
  timestamp : time_point_sec
}.
End email_header.

Module mail_index_record.
Record t := mk {
  id : ripemd160;
  sender : string;
  recipient : string;
  timestamp : time_point_sec
}.
(** [mail_index_record(const email_header&)] *)
Definition of_header (header : email_header.t) : t :=
  mk (email_header.id header) (email_header.sender header)
     (email_header.recipient header) (email_header.timestamp header).
(** [mail_index_record(mail_archive_record&&)] *)
Definition of_archive_record (from_record : mail_archive_record.t) : t :=
  mk (mail_archive_record.id from_record) (mail_archive_record.sender from_record)
     (mail_archive_record.recipient from_record)
     (message.timestamp (mail_archive_record.content from_record)).
End mail_index_record.

(** The values of the properties store: [fc::variant]s holding the version
    number or a fetch time. *)
Inductive variant := v_int64 (n : Z) | v_time (t : time_point_sec).

(** ** Exceptions and the client monad *)

Inductive exception :=
| assert_exception (what : string)     (* FC_ASSERT *)
| key_not_found_exception              (* fetch of a missing key *)
| bad_cast_exception                   (* variant::as_int64 on a non-number *)
| canceled_exception.                  (* wait() on a task that was canceled *)

Inductive result (A : Type) :=
| returned (a : A)
| thrown (e : exception).
Arguments returned {A} a.
Arguments thrown {A} e.

(** ** The state of a client *)

(** What the client asks of [_archive_indexing_future]: [valid()] and
    [ready()]. *)
Inductive future_state := future_invalid | future_running | future_ready.

(** Modelled from the spec: the stores of bts/db (level_map.hpp and
    cached_level_map.hpp) are keyed stores with [fetch], [fetch_optional],
    [store], [remove] and an ordered cursor.  The archive and the properties
    are direct; the processing and inbox stores are cached write-through: a
    [store] writes the cache and the disk, a read is served from the cache,
    and [open] fills the cache from the disk.  What reaches the disk is the
    reflected form of a value. *)
Record client_impl := mk_client {
  _messages_in : Z;                                   (* uint32_t *)
  _proof_of_work_jobs : list message_id_type;
  _transmit_message_jobs : list message_id_type;
  _processing_disk : gmap Z mail_record.reflected;
  _processing_db : gmap Z mail_record.t;              (* the cache *)
  _processing_is_open : bool;
  _archive : gmap Z mail_archive_record.t;
  _archive_is_open : bool;
  _inbox : gmap Z email_header.t;
  _inbox_is_open : bool;
  _property_db : gmap string variant;
  _property_is_open : bool;
  _mail_index : list mail_index_record.t;
  (* the signals of the facade, as the list of what was emitted *)
  new_mail_notifier : list Z;
  new_transaction_notifier : list message.t;
  _archive_indexing_future : future_state
}.

Definition M (A : Type) : Type := client_impl → result A * client_impl.

Global Instance M_ret : MRet M := λ A a st, (returned a, st).
Global Instance M_bind : MBind M := λ A B f m st,
  match m st with
  | (returned a, st') => f a st'
  | (thrown e, st') => (thrown e, st')
  end.

Definition throw {A} (e : exception) : M A := λ st, (thrown e, st).
Definition get {A} (f : client_impl → A) : M A := λ st, (returned (f st), st).
Definition modify (f : client_impl → client_impl) : M unit := λ st, (returned (), f st).

(** [FC_ASSERT(cond, what)] *)
Definition FC_ASSERT (cond : bool) (what : string) : M unit :=
  if cond then mret () else throw (assert_exception what).

Definition try_catch {A} (body : M A) (handler : exception → M A) : M A := λ st,
  match body st with
  | (returned a, st') => (returned a, st')
  | (thrown e, st') => handler e st'
  end.

(** Field updates of the client. *)
Definition set_messages_in (n : Z) (c : client_impl) : client_impl :=
  mk_client n (_proof_of_work_jobs c) (_transmit_message_jobs c) (_processing_disk c)
    (_processing_db c) (_processing_is_open c) (_archive c) (_archive_is_open c)
    (_inbox c) (_inbox_is_open c) (_property_db c) (_property_is_open c)
    (_mail_index c) (new_mail_notifier c) (new_transaction_notifier c)
    (_archive_indexing_future c).
Definition set_proof_of_work_jobs (q : list Z) (c : client_impl) : client_impl :=
  mk_client (_messages_in c) q (_transmit_message_jobs c) (_processing_disk c)
    (_processing_db c) (_processing_is_open c) (_archive c) (_archive_is_open c)
    (_inbox c) (_inbox_is_open c) (_property_db c) (_property_is_open c)
    (_mail_index c) (new_mail_notifier c) (new_transaction_notifier c)
    (_archive_indexing_future c).
Definition set_transmit_message_jobs (q : list Z) (c : client_impl) : client_impl :=
  mk_client (_messages_in c) (_proof_of_work_jobs c) q (_processing_disk c)
    (_processing_db c) (_processing_is_open c) (_archive c) (_archive_is_open c)
    (_inbox c) (_inbox_is_open c) (_property_db c) (_property_is_open c)
    (_mail_index c) (new_mail_notifier c) (new_transaction_notifier c)
    (_archive_indexing_future c).
Definition set_processing (disk : gmap Z mail_record.reflected) (cache : gmap Z mail_record.t)
    (is_open : bool) (c : client_impl) : client_impl :=
  mk_client (_messages_in c) (_proof_of_work_jobs c) (_transmit_message_jobs c) disk
    cache is_open (_archive c) (_archive_is_open c)
    (_inbox c) (_inbox_is_open c) (_property_db c) (_property_is_open c)
    (_mail_index c) (new_mail_notifier c) (new_transaction_notifier c)
    (_archive_indexing_future c).
Definition set_archive (rows : gmap Z mail_archive_record.t) (is_open : bool)
    (c : client_impl) : client_impl :=
  mk_client (_messages_in c) (_proof_of_work_jobs c) (_transmit_message_jobs c)
    (_processing_disk c) (_processing_db c) (_processing_is_open c) rows is_open
    (_inbox c) (_inbox_is_open c) (_property_db c) (_property_is_open c)
    (_mail_index c) (new_mail_notifier c) (new_transaction_notifier c)
    (_archive_indexing_future c).
Definition set_inbox (rows : gmap Z email_header.t) (is_open : bool)
    (c : client_impl) : client_impl :=
  mk_client (_messages_in c) (_proof_of_work_jobs c) (_transmit_message_jobs c)
    (_processing_disk c) (_processing_db c) (_processing_is_open c) (_archive c)
    (_archive_is_open c) rows is_open (_property_db c) (_property_is_open c)
    (_mail_index c) (new_mail_notifier c) (new_transaction_notifier c)
    (_archive_indexing_future c).
Definition set_property_db (rows : gmap string variant) (is_open : bool)
    (c : client_impl) : client_impl :=
  mk_client (_messages_in c) (_proof_of_work_jobs c) (_transmit_message_jobs c)
    (_processing_disk c) (_processing_db c) (_processing_is_open c) (_archive c)
    (_archive_is_open c) (_inbox c) (_inbox_is_open c) rows is_open
    (_mail_index c) (new_mail_notifier c) (new_transaction_notifier c)
    (_archive_indexing_future c).
Definition set_mail_index (rows : list mail_index_record.t) (c : client_impl) : client_impl :=
  mk_client (_messages_in c) (_proof_of_work_jobs c) (_transmit_message_jobs c)
    (_processing_disk c) (_processing_db c) (_processing_is_open c) (_archive c)
    (_archive_is_open c) (_inbox c) (_inbox_is_open c) (_property_db c)
    (_property_is_open c) rows (new_mail_notifier c) (new_transaction_notifier c)
    (_archive_indexing_future c).
Definition emit_new_mail (count : Z) (c : client_impl) : client_impl :=
  mk_client (_messages_in c) (_proof_of_work_jobs c) (_transmit_message_jobs c)
    (_processing_disk c) (_processing_db c) (_processing_is_open c) (_archive c)
    (_archive_is_open c) (_inbox c) (_inbox_is_open c) (_property_db c)
    (_property_is_open c) (_mail_index c) (new_mail_notifier c ++ [count])
    (new_transaction_notifier c) (_archive_indexing_future c).
Definition emit_new_transaction (notice : message.t) (c : client_impl) : client_impl :=
  mk_client (_messages_in c) (_proof_of_work_jobs c) (_transmit_message_jobs c)
    (_processing_disk c) (_processing_db c) (_processing_is_open c) (_archive c)
    (_archive_is_open c) (_inbox c) (_inbox_is_open c) (_property_db c)
    (_property_is_open c) (_mail_index c) (new_mail_notifier c)
    (new_transaction_notifier c ++ [notice]) (_archive_indexing_future c).
Definition set_archive_indexing_future (f : future_state) (c : client_impl) : client_impl :=
  mk_client (_messages_in c) (_proof_of_work_jobs c) (_transmit_message_jobs c)
    (_processing_disk c) (_processing_db c) (_processing_is_open c) (_archive c)
    (_archive_is_open c) (_inbox c) (_inbox_is_open c) (_property_db c)
    (_property_is_open c) (_mail_index c) (new_mail_notifier c)
    (new_transaction_notifier c) f.

(** ** The stores *)

(** The ordered forward cursor: the rows by ascending key. *)
Definition key_le {V} (a b : Z * V) : Prop := a.1 ≤ b.1.

Global Instance key_le_dec {V} : RelDecision (@key_le V).
Proof. intros a b. unfold key_le. apply _. Defined.

Definition cursor {V} (rows : gmap Z V) : list (Z * V) :=
  merge_sort key_le (map_to_list rows).

Module processing_db.
Definition store (key : message_id_type) (value : mail_record.t) : M unit :=
  modify (λ c, set_processing (<[key := mail_record.pack value]> (_processing_disk c))
                              (<[key := value]> (_processing_db c))
                              (_processing_is_open c) c).
Definition fetch_optional (key : message_id_type) : M (option mail_record.t) :=
  get (λ c, _processing_db c !! key).
Definition fetch (key : message_id_type) : M mail_record.t :=
  op ← fetch_optional key;
  match op with Some value => mret value | None => throw key_not_found_exception end.
Definition remove (key : message_id_type) : M unit :=
  modify (λ c, set_processing (delete key (_processing_disk c))
                              (delete key (_processing_db c))
                              (_processing_is_open c) c).
(** Opening reads every row of the disk into the cache. *)
Definition open : M unit :=
  modify (λ c, set_processing (_processing_disk c)
                              (mail_record.unpack <$> _processing_disk c) true c).
Definition close : M unit :=
  modify (λ c, set_processing (_processing_disk c) ∅ false c).
End processing_db.

Module archive.
Definition store (key : message_id_type) (value : mail_archive_record.t) : M unit :=
  modify (λ c, set_archive (<[key := value]> (_archive c)) (_archive_is_open c) c).
Definition fetch_optional (key : message_id_type) : M (option mail_archive_record.t) :=
  get (λ c, _archive c !! key).
Definition remove (key : message_id_type) : M unit :=
  modify (λ c, set_archive (delete key (_archive c)) (_archive_is_open c) c).
Definition open : M unit := modify (λ c, set_archive (_archive c) true c).
Definition close : M unit := modify (λ c, set_archive (_archive c) false c).
End archive.

Module inbox.
Definition store (key : message_id_type) (value : email_header.t) : M unit :=
  modify (λ c, set_inbox (<[key := value]> (_inbox c)) (_inbox_is_open c) c).
Definition fetch_optional (key : message_id_type) : M (option email_header.t) :=
  get (λ c, _inbox c !! key).
Definition remove (key : message_id_type) : M unit :=
  modify (λ c, set_inbox (delete key (_inbox c)) (_inbox_is_open c) c).
Definition open : M unit := modify (λ c, set_inbox (_inbox c) true c).
End inbox.

Module property_db.
Definition store (key : string) (value : variant) : M unit :=
  modify (λ c, set_property_db (<[key := value]> (_property_db c)) (_property_is_open c) c).
Definition fetch_optional (key : string) : M (option variant) :=
  get (λ c, _property_db c !! key).
Definition fetch (key : string) : M variant :=
  op ← fetch_optional key;
  match op with Some value => mret value | None => throw key_not_found_exception end.
Definition open : M unit := modify (λ c, set_property_db (_property_db c) true c).
Definition close : M unit := modify (λ c, set_property_db (_property_db c) false c).
End property_db.

(** [variant::as_int64] *)
Definition as_int64 (v : variant) : M Z :=
  match v with
  | v_int64 n => mret n
  | v_time _ => throw bad_cast_exception
  end.

(** The multi-index container: its first index is [ordered_unique] on the
    id, so [insert] leaves the container alone when a row with that id is
    already there. *)
Definition index_insert (row : mail_index_record.t) (rows : list mail_index_record.t)
  : list mail_index_record.t :=
  if decide (mail_index_record.id row ∈ mail_index_record.id <$> rows)
  then rows else rows ++ [row].

Definition mail_index_insert (row : mail_index_record.t) : M unit :=
  modify (λ c, set_mail_index (index_insert row (_mail_index c)) c).

(** The loop of the indexing task: one [insert] per archive row. *)
Definition scan (rows : list mail_index_record.t) (items : list (Z * mail_archive_record.t))
  : list mail_index_record.t :=
  foldl (λ rows item, index_insert (mail_index_record.of_archive_record item.2) rows)
        rows items.

(** ** The collaborators of the client *)

(** What the client reads of an account of the chain database: the
    [mail_servers] and [mail_server_endpoint] members of its public data,
    [None] where reading the member throws. *)
Record account_record := mk_account_record {
  public_mail_servers : option (list string);
  public_mail_server_endpoint : option endpoint
}.

Record wallet_account_record := mk_wallet_account_record {
  name : string;
  account_address : address;
  registration_date : time_point_sec
}.

(** The chain database, the wallet, the digest of a message and the
    constants of headers that are not part of client.cpp. *)
Record environment := mk_environment {
  digest : message.t → ripemd160;                             (* message::id() *)
  key_address : public_key_type → address;                    (* address(key) *)
  signed_email_subject : message.t → string;
  get_account_record : string → option account_record;       (* _chain *)
  mail_open : address → message.t → message.t;                (* _wallet, by address *)
  mail_open_with_key : public_key_type → message.t → message.t;
  get_key_label : message.t → option string;                  (* None: it throws *)
  BTS_MAIL_DEFAULT_MAIL_SERVERS : list string;
  BTS_MAIL_PROOF_OF_WORK_TARGET : ripemd160;
  message_already_stored_what : string;
  timestamp_too_old_what : string;
  (* std::unordered_set<string>: where the container that was filled with
     these names has a name, for a loop that visits it *)
  hash_position : list string → string → Z
}.

(** A [std::unordered_set<string>] filled with [names], as a loop visits
    it: every name once, in the order of the container.  That order is not
    the order of insertion; it is the environment's. *)
Definition visited_before (position : string → Z) (a b : string) : Prop :=
  position a ≤ position b.

#[global] Instance visited_before_dec (position : string → Z) :
  RelDecision (visited_before position).
Proof. intros a b. unfold visited_before. apply _. Defined.

Definition unordered_set (env : environment) (names : list string) : list string :=
  merge_sort (visited_before (hash_position env names)) (remove_dups names).

Definition BTS_MAIL_CLIENT_DATABASE_VERSION : Z := 1.
Definition BTS_MAIL_CLIENT_MAX_INVENTORY_SIZE : Z := 1000.

(** *** Scripts

    What happens around a job while it runs is given to it as a script:
    the turns of the mining loop, the order in which the transmit sub-tasks
    start and are answered, the replies of the mail servers.  Replies are
    taken to decode; a reply that does not decode, or a wallet call that
    throws, ends the sub-task by an exception and is not among the
    scripts. *)

(** One turn of the mining loop: the clock, how many nonces the helper
    thread gets through in its second, and whether the user cancels the
    message while the supervisor waits for the helper. *)
Record slice := mk_slice {
  now : time_point_sec;
  burst : nat;
  cancel_requested : bool
}.

Inductive store_reply :=
| connect_failure (what : string)        (* connect_to throws *)
| error_reply (what : string)            (* the response carries an error *)
| stored_reply (fetched_id : ripemd160). (* id of the message fetched back *)

Inductive transmit_event :=
| task_started (server : string)         (* a sub-task runs up to connect_to *)
| task_replied (server : string) (reply : store_reply)
| timed_out.                             (* the 10 s timeout fires *)

(** What a mail server answers a fetch sub-task. *)
Inductive message_reply :=
| message_error                          (* mail_fetch_message: an error *)
| message_result (ciphertext : message.t).

Inductive inventory_reply :=
| inventory_error                        (* mail_fetch_inventory: an error *)
| inventory_result (results : list (time_point_sec * message_id_type * message_reply)).

Inductive fetch_script :=
| connect_fails
| connected (pages : list inventory_reply).

(** One account's pass of [check_new_mail]: the account, the clock of the
    chain, and what each server answers when asked for the inventory since
    a given time. *)
Record fetch_pass := mk_fetch_pass {
  account : wallet_account_record;
  chain_now : time_point_sec;
  server_says : string → time_point_sec → fetch_script
}.

Inductive job_end :=
| job_done                               (* the job returned *)
| job_pending.                           (* the script ended before the job did *)

Section mail_client.
Context (env : environment).

(** [email_header::email_header(const detail::mail_record&)] *)
Definition header_of_mail_record (processing_record : mail_record.t) : email_header.t :=
  email_header.mk (mail_record.id processing_record)
    (mail_record.sender processing_record)
    (mail_record.recipient processing_record)
    (if decide (message.type (mail_record.content processing_record) = mail.email)
     then signed_email_subject env (mail_record.content processing_record) else "")
    (message.timestamp (mail_record.content processing_record)).

(** [email_header::email_header(const detail::mail_archive_record&)] *)
Definition header_of_archive_record (archive_record : mail_archive_record.t) : email_header.t :=
  email_header.mk (mail_archive_record.id archive_record)
    (mail_archive_record.sender archive_record)
    (mail_archive_record.recipient archive_record)
    (if decide (message.type (mail_archive_record.content archive_record) = mail.email)
     then signed_email_subject env (mail_archive_record.content archive_record) else "")
    (message.timestamp (mail_archive_record.content archive_record)).

(** [mail_archive_record(mail_record&& from_record)] *)
Definition archive_record_of_mail_record (from_record : mail_record.t) : mail_archive_record.t :=
  mail_archive_record.mk (mail_record.id from_record) (mail_record.status from_record)
    (mail_record.sender from_record) (mail_record.recipient from_record)
    (key_address env (mail_record.recipient_key from_record))
    (mail_record.content from_record) (mail_record.mail_servers from_record).

(** [mail_archive_record(message&&, const email_header&, const address&)] *)
Definition archive_record_of_message (from_message : message.t) (header : email_header.t)
    (recipient_address : address) : mail_archive_record.t :=
  mail_archive_record.mk (digest env from_message) received
    (email_header.sender header) (email_header.recipient header)
    recipient_address from_message [].

(** *** Directory resolver *)

Definition get_mail_server_names_for_recipient (recipient : string) : list string :=
  match get_account_record env recipient with
  | None => unordered_set env (BTS_MAIL_DEFAULT_MAIL_SERVERS env)
  | Some recipient_account =>
      match public_mail_servers recipient_account with
      | Some vector_servers => unordered_set env vector_servers
      | None => unordered_set env (BTS_MAIL_DEFAULT_MAIL_SERVERS env)
      end
  end.

(** The loop of [get_mail_servers_for_recipient] over the names as the
    container gives them; an endpoint that cannot be read throws out of the
    loop, into the handler that only logs. *)
Fixpoint resolve_endpoints (server_list : list string) (servers : mail_server_list)
  : mail_server_list :=
  match server_list with
  | [] => servers
  | server_name :: rest =>
      match get_account_record env server_name with
      | None => resolve_endpoints rest servers
      | Some server_account =>
          match public_mail_server_endpoint server_account with
          | Some endpoint => resolve_endpoints rest (server_insert (server_name, endpoint) servers)
          | None => servers
          end
      end
  end.

Definition get_mail_servers_for_recipient (recipient : string) : mail_server_list :=
  resolve_endpoints (get_mail_server_names_for_recipient recipient) [].

(** *** The two job queues *)

(** [schedule_generic_task] pushes the id; the worker drains its queue in
    order and runs the job of each id ([proof_of_work_job] and
    [transmit_message_job] below). *)
Definition schedule_proof_of_work (message_id : message_id_type) : M unit :=
  modify (λ c, set_proof_of_work_jobs (_proof_of_work_jobs c ++ [message_id]) c).

Definition schedule_transmit_message (message_id : message_id_type) : M unit :=
  modify (λ c, set_transmit_message_jobs (_transmit_message_jobs c ++ [message_id]) c).

(** *** Outgoing pipeline *)

Definition get_proof_of_work_target (message_id : message_id_type) : M unit :=
  email ← processing_db.fetch message_id;
  if decide (mail_record.mail_servers email = []) then
    let email := mail_record.set_status failed email in
    let email := mail_record.set_failure_reason
                   "Could not find mail servers for this recipient." email in
    processing_db.store message_id email
  else
    let email := mail_record.set_proof_of_work_target
                   (BTS_MAIL_PROOF_OF_WORK_TARGET env) email in
    processing_db.store message_id email;;
    schedule_proof_of_work message_id.

Definition process_outgoing_mail (mail : mail_record.t) : M unit :=
  let mail := mail_record.set_mail_servers
                (get_mail_servers_for_recipient (mail_record.recipient mail)) mail in
  processing_db.store (mail_record.id mail) mail;;
  get_proof_of_work_target (mail_record.id mail).

Definition finalize_message (message_id : message_id_type) : M unit :=
  email ← processing_db.fetch message_id;
  let email := mail_record.set_id (digest env (mail_record.content email)) email in
  let email := mail_record.set_status accepted email in
  mail_index_insert (mail_index_record.of_header (header_of_mail_record email));;
  archive.store (mail_record.id email) (archive_record_of_mail_record email);;
  processing_db.remove message_id.

(** [client::cancel_message] *)
Definition client_cancel_message (message_id : message_id_type) : M unit :=
  is_open ← get _property_is_open;
  FC_ASSERT is_open "my->is_open()";;
  itr ← processing_db.fetch_optional message_id;
  match itr with
  | Some value =>
      FC_ASSERT (bool_decide (status_rank (mail_record.status value) ≤ status_rank proof_of_work))
                "Cannot cancel message once it has been submitted to servers.";;
      let cancel_mail := mail_record.set_status canceled value in
      processing_db.store message_id cancel_mail
  | None => mret ()
  end.

(** *** Proof of work *)

(** The helper task of one slice: bump the nonce while the second lasts and
    the digest is above the target. *)
Fixpoint mine (burst : nat) (email : mail_record.t) : mail_record.t :=
  match burst with
  | O => email
  | S burst' =>
      if bool_decide (digest env (mail_record.content email)
                      > mail_record.proof_of_work_target email)
      then mine burst' (mail_record.set_content
                          (message.incr_nonce (mail_record.content email)) email)
      else email
  end.

(** The supervisor's [while] loop.  [None]: the loop is still turning when
    the script of slices ends. *)
Fixpoint mining_loop (message_id : message_id_type) (slices : list slice)
    (email : mail_record.t) : M (option mail_record.t) :=
  stored ← processing_db.fetch message_id;
  if bool_decide (mail_record.status stored ≠ canceled)
     && bool_decide (digest env (mail_record.content email)
                     > mail_record.proof_of_work_target email)
  then
    match slices with
    | [] => mret None
    | s :: slices' =>
        let email := mail_record.set_content
                       (message.set_timestamp (now s) (mail_record.content email)) email in
        processing_db.store (mail_record.id email) email;;
        let email := mine (burst s) email in
        (if cancel_requested s
         then try_catch (client_cancel_message message_id) (λ _, mret ())
         else mret ());;
        mining_loop message_id slices' email
    end
  else mret (Some email).

(** The job that [schedule_proof_of_work] queues for [message_id]. *)
Definition proof_of_work_job (message_id : message_id_type) (slices : list slice)
  : M job_end :=
  email ← processing_db.fetch message_id;
  if bool_decide (mail_record.status email ≠ canceled)
     && bool_decide (mail_record.proof_of_work_target email ≠ 0)
  then
    let email := mail_record.set_status proof_of_work email in
    processing_db.store (mail_record.id email) email;;
    mined ← mining_loop message_id slices email;
    match mined with
    | None => mret job_pending
    | Some email =>
        stored ← processing_db.fetch message_id;
        if decide (mail_record.status stored = canceled) then
          let email := mail_record.set_status failed email in
          let email := mail_record.set_failure_reason "Canceled by user." email in
          processing_db.store message_id email;;
          mret job_done
        else
          processing_db.store (mail_record.id email) email;;
          schedule_transmit_message (mail_record.id email);;
          mret job_done
    end
  else
    (* Don't have a proof-of-work target or message canceled; cannot continue *)
    let email := mail_record.set_status failed email in
    let email := mail_record.set_failure_reason
                   (if decide (mail_record.status email = canceled)
                    then "Canceled by user."
                    else "No proof of work target. Cannot do proof of work.") email in
    processing_db.store (mail_record.id email) email;;
    mret job_done.

(** *** Transmission *)

(** One transmit sub-task from its reply on; [email] is the record the
    sub-task fetched when it started.  It returns the successful servers. *)
Definition transmit_task (message_id : message_id_type) (server : mail_server_endpoint)
    (email : mail_record.t) (reply : store_reply) (successful_servers : mail_server_list)
  : M mail_server_list :=
  match reply with
  | connect_failure what =>
      if decide (successful_servers = []) then
        let email := mail_record.set_failure_reason what email in
        let email := mail_record.set_status failed email in
        processing_db.store message_id email;;
        mret successful_servers
      else mret successful_servers
  | error_reply what =>
      let email := mail_record.set_status failed email in
      let email := mail_record.set_failure_reason what email in
      if decide (mail_record.failure_reason email = message_already_stored_what env) then
        mret (server_insert server successful_servers)
      else
        let email :=
          if decide (mail_record.failure_reason email = timestamp_too_old_what env) then
            (* Redo the proof-of-work *)
            let email := mail_record.set_status proof_of_work email in
            mail_record.set_content (message.incr_nonce (mail_record.content email)) email
          else email in
        processing_db.store message_id email;;
        mret successful_servers
  | stored_reply fetched_id =>
      if decide (fetched_id ≠ digest env (mail_record.content email)) then
        let email := mail_record.set_status failed email in
        let email := mail_record.set_failure_reason
          "Message saved to server, but server responded with another message when we requested it."
          email in
        processing_db.store message_id email;;
        mret successful_servers
      else mret (server_insert server successful_servers)
  end.

(** The locals of the transmit job. *)
Record transmit_frame := mk_transmit_frame {
  email_local : mail_record.t;                   (* the job's [email] *)
  transmit_tasks : list mail_server_endpoint;    (* back of the vector first *)
  started : list (string * mail_record.t);       (* what each started task fetched *)
  finished : list string;
  successful_servers : mail_server_list;
  (* the timeout's own [successful_servers]: its lambda captures by copy
     ([=]), when it is scheduled *)
  timeout_successful_servers : mail_server_list
}.

Inductive wait_end :=
| gave_up                                         (* the record was found failed *)
| all_joined (email : mail_record.t)
| blocked_on (tasks : list mail_server_endpoint) (email : mail_record.t).

(** The [while (!transmit_tasks.empty())] loop, up to the first task that
    has not finished yet. *)
Fixpoint wait_tasks (message_id : message_id_type) (finished : list string)
    (tasks : list mail_server_endpoint) (email : mail_record.t) : M wait_end :=
  match tasks with
  | [] => mret (all_joined email)
  | task :: tasks' =>
      if decide (task.1 ∈ finished) then
        email ← processing_db.fetch message_id;
        if decide (mail_record.status email = failed) then mret gave_up
        else wait_tasks message_id finished tasks' email
      else mret (blocked_on tasks email)
  end.

(** The lambda given to [fc::schedule], on its copy of
    [successful_servers]. *)
Definition transmit_timeout (message_id : message_id_type)
    (successful_servers : mail_server_list) : M unit :=
  email ← processing_db.fetch message_id;
  if bool_decide (successful_servers = [])
     && bool_decide (status_rank transmitting ≤ status_rank (mail_record.status email))
  then
    let email := mail_record.set_status failed email in
    let email := mail_record.set_failure_reason "Timed out while transmitting message." email in
    processing_db.store (mail_record.id email) email
  else mret ().

Definition transmit_step (message_id : message_id_type) (frame : transmit_frame)
    (event : transmit_event) : M transmit_frame :=
  match event with
  | task_started server =>
      if decide (server ∈ (transmit_tasks frame).*1 ∧ server ∉ (started frame).*1) then
        email ← processing_db.fetch message_id;
        mret (mk_transmit_frame (email_local frame) (transmit_tasks frame)
                ((server, email) :: started frame) (finished frame)
                (successful_servers frame) (timeout_successful_servers frame))
      else mret frame
  | task_replied server reply =>
      match list_find (λ task, task.1 = server) (transmit_tasks frame),
            list_find (λ task, task.1 = server) (started frame) with
      | Some (_, task), Some (_, (_, email)) =>
          if decide (server ∈ finished frame) then mret frame
          else
            successful ← transmit_task message_id task email reply (successful_servers frame);
            mret (mk_transmit_frame (email_local frame) (transmit_tasks frame)
                    (started frame) (server :: finished frame) successful
                    (timeout_successful_servers frame))
      | _, _ => mret frame
      end
  | timed_out =>
      transmit_timeout message_id (timeout_successful_servers frame);;
      throw canceled_exception
  end.

Fixpoint transmit_run (message_id : message_id_type) (events : list transmit_event)
    (frame : transmit_frame) : M job_end :=
  joined ← wait_tasks message_id (finished frame) (transmit_tasks frame) (email_local frame);
  match joined with
  | gave_up => mret job_done
  | all_joined email =>
      if decide (successful_servers frame = []) then mret job_done
      else
        let email := mail_record.set_mail_servers (successful_servers frame) email in
        processing_db.store message_id email;;
        finalize_message message_id;;
        mret job_done
  | blocked_on tasks email =>
      match events with
      | [] => mret job_pending
      | event :: events' =>
          frame ← transmit_step message_id
                    (mk_transmit_frame email tasks (started frame) (finished frame)
                       (successful_servers frame) (timeout_successful_servers frame))
                    event;
          transmit_run message_id events' frame
      end
  end.

(** The job that [schedule_transmit_message] queues for [message_id]. *)
Definition transmit_message_job (message_id : message_id_type)
    (events : list transmit_event) : M job_end :=
  email ← processing_db.fetch message_id;
  if decide (mail_record.mail_servers email = []) then
    let email := mail_record.set_status failed email in
    let email := mail_record.set_failure_reason
                   "No mail servers found when trying to transmit message." email in
    processing_db.store message_id email;;
    mret job_done
  else
    let email := mail_record.set_status transmitting email in
    processing_db.store message_id email;;
    let successful_servers : mail_server_list := [] in
    (* the timeout is scheduled before the job first waits, so before any
       sub-task has run: it copies the empty list *)
    transmit_run message_id events
      (mk_transmit_frame email (reverse (mail_record.mail_servers email)) [] []
         successful_servers successful_servers).

(** *** Opening *)

Definition retry_message (email : mail_record.t) : M unit :=
  match mail_record.status email with
  | submitted => process_outgoing_mail email
  | proof_of_work => schedule_proof_of_work (mail_record.id email)
  | transmitting => schedule_transmit_message (mail_record.id email)
  | accepted => finalize_message (mail_record.id email)
  | _ => mret ()
  end.

(** The loop of [open] over the rows of the processing store. *)
Fixpoint retry_all (rows : list (Z * mail_record.t)) : M unit :=
  match rows with
  | [] => mret ()
  | row :: rows' => retry_message row.2;; retry_all rows'
  end.

(** [index_archive] starts the background task and returns. *)
Definition index_archive : M unit :=
  modify (set_archive_indexing_future future_running).

(** The background task, run to its end. *)
Definition index_archive_task : M unit :=
  modify (λ c, set_mail_index (scan (_mail_index c) (cursor (_archive c))) c);;
  modify (set_archive_indexing_future future_ready).

Definition open : M unit :=
  try_catch
    (archive.open;;
     processing_db.open;;
     inbox.open;;
     property_db.open;;
     version ← property_db.fetch_optional "version";
     (if version is None
      then property_db.store "version" (v_int64 BTS_MAIL_CLIENT_DATABASE_VERSION)
      else mret ());;
     stored ← property_db.fetch "version";
     v ← as_int64 stored;
     (if decide (v ≠ BTS_MAIL_CLIENT_DATABASE_VERSION)
      then FC_ASSERT false "Mail client database is an unknown version."
      else mret ());;
     (* Place all in-processing messages back in their place on the pipeline *)
     rows ← get (λ c, cursor (_processing_db c));
     retry_all rows;;
     index_archive)
    (λ _, archive.close;; processing_db.close;; property_db.close).

Definition is_open : M bool := get _property_is_open.

(** *** Queries *)

Record email_record := mk_email_record {
  header : email_header.t;
  content : message.t;
  mail_servers : mail_server_list;
  failure_reason : string
}.

(** [email_record::email_record(const detail::mail_record&)] *)
Definition email_record_of_mail_record (processing_record : mail_record.t) : email_record :=
  mk_email_record (header_of_mail_record processing_record)
    (mail_record.content processing_record)
    (mail_record.mail_servers processing_record)
    (if decide (mail_record.status processing_record = failed)
     then mail_record.failure_reason processing_record else "").

(** [email_record::email_record(const detail::mail_archive_record&)] *)
Definition email_record_of_archive_record (archive_record : mail_archive_record.t)
  : email_record :=
  mk_email_record (header_of_archive_record archive_record)
    (mail_archive_record.content archive_record)
    (mail_archive_record.mail_servers archive_record) "".

Definition decrypted_mail_record (email : mail_record.t) : email_record :=
  if decide (message.type (mail_record.content email) ≠ mail.encrypted)
  then email_record_of_mail_record email
  else email_record_of_mail_record
         (mail_record.set_content
            (mail_open_with_key env (mail_record.recipient_key email)
               (mail_record.content email)) email).

Definition decrypted_archive_record (email : mail_archive_record.t) : email_record :=
  if decide (message.type (mail_archive_record.content email) ≠ mail.encrypted)
  then email_record_of_archive_record email
  else email_record_of_archive_record
         (mail_archive_record.mk (mail_archive_record.id email)
            (mail_archive_record.status email) (mail_archive_record.sender email)
            (mail_archive_record.recipient email)
            (mail_archive_record.recipient_address email)
            (mail_open env (mail_archive_record.recipient_address email)
               (mail_archive_record.content email))
            (mail_archive_record.mail_servers email)).

Definition get_message (message_id : message_id_type) : M email_record :=
  op ← processing_db.fetch_optional message_id;
  match op with
  | Some email => mret (decrypted_mail_record email)
  | None =>
      op ← archive.fetch_optional message_id;
      match op with
      | Some email => mret (decrypted_archive_record email)
      | None => throw (assert_exception "Message ${id} not found.")
      end
  end.

(** The order [std::sort] is given in [get_inbox]: by timestamp.  Which of
    two headers of one timestamp comes first is left open by [std::sort];
    the model takes a merge sort. *)
Definition by_timestamp (a b : email_header.t) : Prop :=
  email_header.timestamp a ≤ email_header.timestamp b.

Global Instance by_timestamp_dec : RelDecision by_timestamp.
Proof. intros a b. unfold by_timestamp. apply _. Defined.

Definition get_inbox : M (list email_header.t) :=
  get (λ c, merge_sort by_timestamp ((cursor (_inbox c)).*2)).

Definition archive_message (message_id : message_id_type) : M unit :=
  op ← inbox.fetch_optional message_id;
  if op is Some _ then inbox.remove message_id else mret ().

(** *** Fetcher *)

(** The header the fetcher builds for a downloaded message. *)
Definition fetched_header (account : wallet_account_record) (ciphertext : message.t)
  : email_header.t :=
  let plaintext := mail_open env (account_address account) ciphertext in
  let sender :=
    if decide (message.type plaintext = mail.email
               ∨ message.type plaintext = mail.transaction_notice)
    then default "INVALID SIGNATURE" (get_key_label env plaintext)
    else "" in
  let subject :=
    if decide (message.type plaintext = mail.email) then signed_email_subject env plaintext
    else if decide (message.type plaintext = mail.transaction_notice)
    then "Transaction Notification" else "" in
  email_header.mk (digest env ciphertext) sender (name account) subject
    (message.timestamp plaintext).

(** The body of the loop over one page of inventory, from the decoded
    message on; nothing in it suspends the sub-task. *)
Definition store_fetched (account : wallet_account_record) (server : mail_server_endpoint)
    (inventory_id : message_id_type) (ciphertext : message.t) : M unit :=
  let plaintext := mail_open env (account_address account) ciphertext in
  let header := fetched_header account ciphertext in
  (if decide (message.type plaintext = mail.transaction_notice)
   then modify (emit_new_transaction plaintext) else mret ());;
  let record := archive_record_of_message ciphertext header (account_address account) in
  optional_record ← archive.fetch_optional inventory_id;
  let '(record, new_mail) :=
    match optional_record with
    | Some stored =>
        if decide (mail_archive_record.status stored = accepted)
        then (mail_archive_record.set_status received stored, true)
        else (stored, false)
    | None => (record, true)
    end in
  let record := mail_archive_record.set_mail_servers
                  (server_insert server (mail_archive_record.mail_servers record)) record in
  archive.store inventory_id record;;
  mail_index_insert (mail_index_record.of_header header);;
  if new_mail then
    inbox.store (email_header.id header) header;;
    modify (λ c, set_messages_in ((_messages_in c + 1) mod 2 ^ 32) c)
  else mret ().

(** The loop over one page; [false] when an error reply ends the sub-task. *)
Fixpoint fetch_messages (account : wallet_account_record) (server : mail_server_endpoint)
    (results : list (time_point_sec * message_id_type * message_reply)) : M bool :=
  match results with
  | [] => mret true
  | (_, inventory_id, message_error) :: _ => mret false
  | (_, inventory_id, message_result ciphertext) :: results' =>
      store_fetched account server inventory_id ciphertext;;
      fetch_messages account server results'
  end.

(** The [while (received == BTS_MAIL_CLIENT_MAX_INVENTORY_SIZE)] loop;
    [false] when the server has not sent the page the loop asks for. *)
Fixpoint fetch_pages (account : wallet_account_record) (server : mail_server_endpoint)
    (pages : list inventory_reply) : M bool :=
  match pages with
  | [] => mret false
  | inventory_error :: _ => mret true
  | inventory_result results :: pages' =>
      complete ← fetch_messages account server results;
      if complete && bool_decide (Z.of_nat (length results) = BTS_MAIL_CLIENT_MAX_INVENTORY_SIZE)
      then fetch_pages account server pages'
      else mret true
  end.

(** One fetch sub-task; [true] when it returns, [false] when it is left
    waiting for the server. *)
Definition fetch_task (account : wallet_account_record) (server : mail_server_endpoint)
    (script : fetch_script) : M bool :=
  match script with
  | connect_fails => mret true
  | connected pages => fetch_pages account server pages
  end.

(** The sub-tasks of one account, one after the other; [true] when all of
    them returned. *)
Fixpoint fetch_tasks (pass : fetch_pass) (last_check_time : time_point_sec)
    (servers : mail_server_list) : M bool :=
  match servers with
  | [] => mret true
  | server :: servers' =>
      done_ ← fetch_task (account pass) server (server_says pass server.1 last_check_time);
      rest ← fetch_tasks pass last_check_time servers';
      mret (done_ && rest)
  end.

Definition last_fetch_key (account_name : string) : string :=
  String.append "last_fetch/" account_name.

(** [variant::as<fc::time_point_sec>] *)
Definition as_time_point_sec (v : variant) : M time_point_sec :=
  match v with
  | v_time t => mret t
  | v_int64 _ => throw bad_cast_exception
  end.

(** The body of the loop over the accounts.  A sub-task that is left
    waiting is canceled by the 60 s timeout, and waiting for it throws. *)
Definition check_account (get_old_messages : bool) (pass : fetch_pass) : M unit :=
  let servers := get_mail_servers_for_recipient (name (account pass)) in
  let check_time := chain_now pass in
  op ← (if get_old_messages then mret None
        else property_db.fetch_optional (last_fetch_key (name (account pass))));
  last_check_time ← match op with
                    | Some v => as_time_point_sec v
                    | None => mret (registration_date (account pass))
                    end;
  joined ← fetch_tasks pass last_check_time servers;
  (if joined : bool then mret () else throw canceled_exception);;
  property_db.store (last_fetch_key (name (account pass))) (v_time check_time).

Fixpoint check_accounts (get_old_messages : bool) (accounts : list fetch_pass) : M unit :=
  match accounts with
  | [] => mret ()
  | pass :: accounts' =>
      check_account get_old_messages pass;;
      check_accounts get_old_messages accounts'
  end.

(** [return _messages_in;] converts the unsigned counter to [int]. *)
Definition to_int (n : Z) : Z := if bool_decide (n < 2 ^ 31) then n else n - 2 ^ 32.

Definition check_new_mail (get_old_messages : bool) (accounts : list fetch_pass) : M Z :=
  modify (set_messages_in 0);;
  check_accounts get_old_messages accounts;;
  n ← get _messages_in;
  mret (to_int n).

(** *** The facade [bts::mail::client] *)

Definition assert_is_open : M unit :=
  opened ← is_open;
  FC_ASSERT opened "my->is_open()".

Definition client_open : M unit := open.

Definition client_retry_message (message_id : message_id_type) : M unit :=
  assert_is_open;;
  itr ← processing_db.fetch_optional message_id;
  match itr with
  | None => throw (assert_exception "Message not found.")
  | Some email =>
      FC_ASSERT (bool_decide (mail_record.status email = failed))
                "Message has not failed to send; cannot retry sending.";;
      retry_message (mail_record.set_status submitted email)
  end.

Definition client_remove_message (message_id : message_id_type) : M unit :=
  assert_is_open;;
  itr ← processing_db.fetch_optional message_id;
  match itr with
  | Some value =>
      FC_ASSERT (bool_decide (mail_record.status value = failed))
                "Cannot remove message during processing.";;
      processing_db.remove message_id
  | None =>
      itr ← archive.fetch_optional message_id;
      if itr is Some _ then archive.remove message_id else mret ()
  end.

Definition client_archive_message (message_id : message_id_type) : M unit :=
  assert_is_open;;
  archive_message message_id.

Definition client_check_new_messages (get_old_messages : bool) (accounts : list fetch_pass)
  : M Z :=
  assert_is_open;;
  new_messages ← check_new_mail get_old_messages accounts;
  (if bool_decide (new_messages > 0)
   then modify (emit_new_mail new_messages) else mret ());;
  mret new_messages.

Definition client_get_inbox : M (list email_header.t) :=
  assert_is_open;;
  get_inbox.

Definition client_get_message (message_id : message_id_type) : M email_record :=
  assert_is_open;;
  get_message message_id.

Definition client_send_encrypted_message (ciphertext : message.t) (from to : string)
    (recipient_key : public_key_type) : M message_id_type :=
  assert_is_open;;
  FC_ASSERT (bool_decide (message.type ciphertext = mail.encrypted))
            "Refusing to send plaintext message";;
  let ciphertext := message.mk (message.type ciphertext) recipient_key
                      (message.nonce ciphertext) (message.timestamp ciphertext)
                      (message.data ciphertext) in
  let mail_rec := mail_record.mk (digest env ciphertext) submitted from to recipient_key
                    ciphertext [] 0 "" in
  process_outgoing_mail mail_rec;;
  mret (mail_record.id mail_rec).

End mail_client.

(** Destroying the client and constructing a new one over the same data
    directory: what is on disk stays, everything in memory is new. *)
Definition restart (c : client_impl) : client_impl :=
  mk_client 0 [] [] (_processing_disk c) ∅ false (_archive c) false (_inbox c) false
    (_property_db c) false [] (new_mail_notifier c) (new_transaction_notifier c)
    future_invalid.

(** ** What a run of the fetcher downloads *)

(** The inventory ids a sub-task gets to, read off the replies: those of a
    page up to its first error reply, page after page while the pages are
    full. *)
Fixpoint downloaded_results
    (results : list (time_point_sec * message_id_type * message_reply))
  : list message_id_type :=
  match results with
  | [] => []
  | (_, _, message_error) :: _ => []
  | (_, inventory_id, message_result _) :: results' =>
      inventory_id :: downloaded_results results'
  end.

Fixpoint results_complete
    (results : list (time_point_sec * message_id_type * message_reply)) : bool :=
  match results with
  | [] => true
  | (_, _, message_error) :: _ => false
  | (_, _, message_result _) :: results' => results_complete results'
  end.

Fixpoint downloaded_pages (pages : list inventory_reply) : list message_id_type :=
  match pages with
  | [] => []
  | inventory_error :: _ => []
  | inventory_result results :: pages' =>
      downloaded_results results
      ++ (if results_complete results
             && bool_decide (Z.of_nat (length results) = BTS_MAIL_CLIENT_MAX_INVENTORY_SIZE)
          then downloaded_pages pages' else [])
  end.

Definition downloaded_script (script : fetch_script) : list message_id_type :=
  match script with
  | connect_fails => []
  | connected pages => downloaded_pages pages
  end.

Fixpoint downloaded_servers (pass : fetch_pass) (last_check_time : time_point_sec)
    (servers : mail_server_list) : list message_id_type :=
  match servers with
  | [] => []
  | server :: servers' =>
      downloaded_script (server_says pass server.1 last_check_time)
      ++ downloaded_servers pass last_check_time servers'
  end.

(** The time a pass asks the servers about, by the properties store. *)
Definition last_check_time_of (get_old_messages : bool) (pass : fetch_pass)
    (properties : gmap string variant) : time_point_sec :=
  if get_old_messages then registration_date (account pass)
  else match properties !! last_fetch_key (name (account pass)) with
       | Some (v_time t) => t
       | _ => registration_date (account pass)
       end.

(** The inventory ids a run of [check_new_mail] downloads, pass by pass;
    each pass leaves its check time in the properties. *)
Fixpoint run_downloads (env : environment) (get_old_messages : bool)
    (accounts : list fetch_pass) (properties : gmap string variant)
  : list message_id_type :=
  match accounts with
  | [] => []
  | pass :: accounts' =>
      downloaded_servers pass (last_check_time_of get_old_messages pass properties)
        (get_mail_servers_for_recipient env (name (account pass)))
      ++ run_downloads env get_old_messages accounts'
           (<[last_fetch_key (name (account pass)) := v_time (chain_now pass)]> properties)
  end.

(** An id the archive holds in a status other than accepted: the fetcher
    takes a message of that id for one it has seen. *)
Definition seen (c : client_impl) (inventory_id : message_id_type) : Prop :=
  ∃ stored, _archive c !! inventory_id = Some stored
            ∧ mail_archive_record.status stored ≠ accepted.

(** What downloading the ids [ids] does between two states: the ids are
    seen afterwards, what was seen stays seen, and where all of them were
    seen before, the inbox and the counter of new mail are as before. *)
Definition fetch_effect (ids : list message_id_type) (c c' : client_impl) : Prop :=
  (∀ id, id ∈ ids → seen c' id)
  ∧ (∀ id, seen c id → seen c' id)
  ∧ ((∀ id, id ∈ ids → seen c id) →
     _inbox c' = _inbox c ∧ _messages_in c' = _messages_in c).

(** ** A small instance to run the client on *)

Module sample.

(** bob has published the servers A and B, carol the server A. *)
Definition chain (account_name : string) : option account_record :=
  if decide (account_name = "bob") then Some (mk_account_record (Some ["A"; "B"]) None)
  else if decide (account_name = "carol") then Some (mk_account_record (Some ["A"]) None)
  else if decide (account_name = "dave") then Some (mk_account_record (Some []) None)
  else if decide (account_name = "A") then Some (mk_account_record None (Some 1))
  else if decide (account_name = "B") then Some (mk_account_record None (Some 2))
  else None.

(** A stand-in for the digest: small, and moved by the nonce and by the
    timestamp.  The wallet opens a ciphertext to an email written 50 s
    before the ciphertext's timestamp.  A container of server names is
    visited with A first. *)
Definition env : environment :=
  mk_environment
    (λ m, (message.nonce m * 37 + message.timestamp m) mod 101)
    (λ key, key + 1000)
    (λ m, message.data m)
    chain
    (λ _ c, message.mk mail.email (message.recipient c) 0 (message.timestamp c - 50)
                       (message.data c))
    (λ _ c, message.mk mail.email (message.recipient c) 0 (message.timestamp c - 50)
                       (message.data c))
    (λ _, Some "alice")
    ["A"] 10 "message_already_stored" "timestamp_too_old"
    (λ _ server_name, if decide (server_name = "A") then 1 else 2).

(** A client that was never opened, over an empty data directory. *)
Definition fresh : client_impl :=
  mk_client 0 [] [] ∅ ∅ false ∅ false ∅ false ∅ false [] [] [] future_invalid.

Definition opened : client_impl := (open env fresh).2.

Definition ciphertext : message.t := message.mk mail.encrypted 77 0 5 "ct".

(** A record as [send_encrypted_message] builds it. *)
Definition outgoing (to : string) (status : mail_status) : mail_record.t :=
  mail_record.mk 5 status "alice" to 77 ciphertext [("A", 1); ("B", 2)] 10 "".

Definition with_processing (email : mail_record.t) (c : client_impl) : client_impl :=
  (processing_db.store (mail_record.id email) email c).2.

Definition bob_account : wallet_account_record := mk_wallet_account_record "bob" 1077 100.

(** A pass for bob in which no server can be reached. *)
Definition unreachable : fetch_pass :=
  mk_fetch_pass bob_account 500 (λ _ _, connect_fails).

(** A pass for bob in which server A has one message for him, written at
    150 and stamped 200 by the miner (its digest is 8), and server B cannot
    be reached. *)
Definition inbound : message.t := message.mk mail.encrypted 1077 3 200 "hello".

Definition one_message : fetch_pass :=
  mk_fetch_pass bob_account 500
    (λ server _, if decide (server = "A")
                 then connected [inventory_result [(200, 8, message_result inbound)]]
                 else connect_fails).

(** An open client that has fetched bob's mail before, at 200. *)
Definition fetched_before : client_impl :=
  (property_db.store (last_fetch_key "bob") (v_time 200) opened).2.

End sample.

(** ** The rest of the client: listings, index queries, sending, workers *)

(** An [ordered_non_unique] index and a [std::multimap] keep their elements
    in order of the key; an element goes in behind those of an equal key
    (at the upper bound).  [less] is the order of the keys. *)
Fixpoint insert_ordered {A} (less : A → A → bool) (x : A) (l : list A) : list A :=
  match l with
  | [] => [x]
  | y :: l' => if less x y then x :: y :: l' else y :: insert_ordered less x l'
  end.

Definition ordered {A} (less : A → A → bool) (elements : list A) : list A :=
  foldl (λ view x, insert_ordered less x view) [] elements.

(** The keys of the [multimap<mail_status, message_id_type>]. *)
Definition status_less (a b : mail_status * message_id_type) : bool :=
  bool_decide (status_rank a.1 < status_rank b.1).

(** The composite keys of the by_sender and by_recipient indices, member by
    member; strings compare as [std::string]s do. *)
Definition by_sender_less (a b : mail_index_record.t) : bool :=
  match String.compare (mail_index_record.sender a) (mail_index_record.sender b) with
  | Lt => true
  | Gt => false
  | Eq =>
      match String.compare (mail_index_record.recipient a)
                           (mail_index_record.recipient b) with
      | Lt => true
      | Gt => false
      | Eq => bool_decide (mail_index_record.timestamp a < mail_index_record.timestamp b)
      end
  end.

Definition by_recipient_less (a b : mail_index_record.t) : bool :=
  match String.compare (mail_index_record.recipient a)
                       (mail_index_record.recipient b) with
  | Lt => true
  | Gt => false
  | Eq => bool_decide (mail_index_record.timestamp a < mail_index_record.timestamp b)
  end.

(** What [send_email] needs beyond the environment of the pipeline: the
    state of the wallet, its [mail_create] and [mail_encrypt], and the owner
    and active keys of a registered account. *)
Record sending_environment := mk_sending_environment {
  wallet_is_open : bool;
  wallet_is_unlocked : bool;
  mail_create : string → string → string → message_id_type → message.t;
  mail_encrypt : public_key_type → message.t → message.t;
  owner_key : string → public_key_type;
  active_key : string → public_key_type
}.

Section mail_client_rest.
Context (env : environment).

(** [get_database_messages], on the rows the cursor lists. *)
Definition database_messages (entries : list (mail_status * message_id_type))
  : list (mail_status * message_id_type) :=
  ordered status_less entries.

(** [client::get_processing_messages] *)
Definition client_get_processing_messages : M (list (mail_status * message_id_type)) :=
  assert_is_open;;
  get (λ c, database_messages
              ((λ row, (mail_record.status row.2, mail_record.id row.2))
                 <$> cursor (_processing_db c))).

(** [client::get_archive_messages] *)
Definition client_get_archive_messages : M (list (mail_status * message_id_type)) :=
  assert_is_open;;
  get (λ c, database_messages
              ((λ row, (mail_archive_record.status row.2, mail_archive_record.id row.2))
                 <$> cursor (_archive c))).

(** The loop of the three index queries: [get_message(itr->id).header] for
    each row of the range. *)
Fixpoint headers_of (range : list mail_index_record.t) : M (list email_header.t) :=
  match range with
  | [] => mret []
  | row :: range' =>
      email ← get_message env (mail_index_record.id row);
      results ← headers_of range';
      mret (header email :: results)
  end.

(** The range from [lower_bound] to [upper_bound] of a prefix of the key:
    the rows of the ordered view that agree with the prefix. *)
Definition get_messages_by_sender (sender : string) : M (list email_header.t) :=
  rows ← get _mail_index;
  headers_of (filter (λ row, mail_index_record.sender row = sender)
                     (ordered by_sender_less rows)).

Definition get_messages_by_recipient (recipient : string) : M (list email_header.t) :=
  rows ← get _mail_index;
  headers_of (filter (λ row, mail_index_record.recipient row = recipient)
                     (ordered by_recipient_less rows)).

Definition get_messages_from_to (sender recipient : string) : M (list email_header.t) :=
  rows ← get _mail_index;
  headers_of (filter (λ row, mail_index_record.sender row = sender
                             ∧ mail_index_record.recipient row = recipient)
                     (ordered by_sender_less rows)).

(** [_archive_indexing_future.valid() && !_archive_indexing_future.ready()] *)
Definition indexing_in_progress : M bool :=
  get (λ c, match _archive_indexing_future c with
            | future_running => true
            | future_invalid | future_ready => false
            end).

(** [client::get_messages_by_sender] and its two siblings *)
Definition client_get_messages_by_sender (sender : string) : M (list email_header.t) :=
  assert_is_open;;
  indexing ← indexing_in_progress;
  if indexing : bool then mret [] else get_messages_by_sender sender.

Definition client_get_messages_by_recipient (recipient : string)
  : M (list email_header.t) :=
  assert_is_open;;
  indexing ← indexing_in_progress;
  if indexing : bool then mret [] else get_messages_by_recipient recipient.

Definition client_get_messages_from_to (sender recipient : string)
  : M (list email_header.t) :=
  assert_is_open;;
  indexing ← indexing_in_progress;
  if indexing : bool then mret [] else get_messages_from_to sender recipient.

(** [client::send_email] *)
Definition client_send_email (wallet : sending_environment) (from to subject body : string)
    (reply_to : message_id_type) : M message_id_type :=
  FC_ASSERT (wallet_is_open wallet) "my->_wallet->is_open()";;
  FC_ASSERT (wallet_is_unlocked wallet) "my->_wallet->is_unlocked()";;
  assert_is_open;;
  match get_account_record env to with
  | None => throw (assert_exception "Could not find recipient account: ${name}")
  | Some _ =>
      (* All mail shall be addressed to the owner key, but encrypted with the active key. *)
      let plaintext := mail_create wallet from subject body reply_to in
      let plaintext := message.mk (message.type plaintext) (owner_key wallet to)
                         (message.nonce plaintext) (message.timestamp plaintext)
                         (message.data plaintext) in
      let encrypted := mail_encrypt wallet (active_key wallet to) plaintext in
      let email := mail_record.mk (digest env encrypted) submitted from to
                     (owner_key wallet to) encrypted [] 0 "" in
      let email := mail_record.set_content
                     (message.mk (message.type encrypted) (message.recipient plaintext)
                        (message.nonce encrypted) (message.timestamp encrypted)
                        (message.data encrypted)) email in
      process_outgoing_mail env email;;
      mret (mail_record.id email)
  end.

(** The worker that [schedule_generic_task] starts: while the queue is not
    empty it takes the front id off and runs the job on it.  [scripts] has
    the script of each job in turn. *)
Fixpoint proof_of_work_worker (scripts : list (list slice)) : M job_end :=
  queue ← get _proof_of_work_jobs;
  match queue with
  | [] => mret job_done
  | data :: queue' =>
      match scripts with
      | [] => mret job_pending
      | script :: scripts' =>
          modify (set_proof_of_work_jobs queue');;
          ended ← proof_of_work_job env data script;
          match ended with
          | job_done => proof_of_work_worker scripts'
          | job_pending => mret job_pending
          end
      end
  end.

End mail_client_rest.

(** The ids a restart puts back on the proof-of-work queue: those of the
    rows in status proof_of_work, and of the submitted rows whose recipient
    resolves to a server. *)
Definition requeued_for_proof_of_work (env : environment) (email : mail_record.t)
  : list message_id_type :=
  match mail_record.status email with
  | proof_of_work => [mail_record.id email]
  | submitted =>
      if decide (get_mail_servers_for_recipient env (mail_record.recipient email) = [])
      then [] else [mail_record.id email]
  | _ => []
  end.

Definition requeued_for_transmission (email : mail_record.t) : list message_id_type :=
  match mail_record.status email with
  | transmitting => [mail_record.id email]
  | _ => []
  end.

(** How many ids of a listing are new when the fetcher gets to them: an id
    is new unless it is seen already, and it is seen once it has been
    downloaded. *)
Fixpoint count_new (seen_ids : gset Z) (ids : list message_id_type) : nat :=
  match ids with
  | [] => 0
  | id :: ids' =>
      ((if decide (id ∈ seen_ids) then 0 else 1) + count_new ({[id]} ∪ seen_ids) ids')%nat
  end.

(** [++_messages_in] *)
Definition bump (messages_in : Z) : Z := (messages_in + 1) mod 2 ^ 32.

Definition seen_ids (c : client_impl) : gset Z :=
  dom (filter (λ row, mail_archive_record.status row.2 ≠ accepted) (_archive c)).

(** What an index query answers on the rows [rows] of its range in a
    client [c]: an error when a row's id is in neither store, else one
    header per row, the one [get_message] gives for the row's id, in the
    order of the index. *)
Definition query_answers (env : environment) (c : client_impl)
    (answer : result (list email_header.t) * client_impl)
    (rows : list mail_index_record.t) : Prop :=
  ∃ range, range ≡ₚ rows
    ∧ ((∀ row, row ∈ rows →
          _processing_db c !! mail_index_record.id row = None
          ∧ _archive c !! mail_index_record.id row = None → False) →
       ∃ results, answer = (returned results, c)
         ∧ Forall2 (λ row h, ∃ email, get_message env (mail_index_record.id row) c
                                      = (returned email, c) ∧ h = header email)
                   range results)
    ∧ ((∃ row, row ∈ rows
          ∧ _processing_db c !! mail_index_record.id row = None
          ∧ _archive c !! mail_index_record.id row = None) →
       answer = (thrown (assert_exception "Message ${id} not found."), c)).

(** What downloading the ids [ids] does to the archive's seen ids and to
    the counter of new mail. *)
Definition counted (ids : list message_id_type) (c c' : client_impl) : Prop :=
  seen_ids c' = list_to_set ids ∪ seen_ids c
  ∧ _messages_in c' = Nat.iter (count_new (seen_ids c) ids) bump (_messages_in c).

(** Every archive row is stored under the id of its record. *)
Definition archive_keyed (c : client_impl) : Prop :=
  ∀ key record, _archive c !! key = Some record → mail_archive_record.id record = key.

(** The processing store and the two queues. *)
Definition pipeline (c : client_impl)
  : gmap Z mail_record.t * gmap Z mail_record.reflected * list Z * list Z :=
  (_processing_db c, _processing_disk c, _proof_of_work_jobs c, _transmit_message_jobs c).

Module more_samples.

Definition wallet : sending_environment :=
  mk_sending_environment true true
    (λ from subject body _, message.mk mail.email 0 0 100 subject)
    (λ key plaintext, message.mk mail.encrypted 0 0 (message.timestamp plaintext)
                                 (message.data plaintext))
    (λ _, 77) (λ _, 78).

(** erin lists the servers A, C and B; C is registered without an endpoint.
    The container of the three names is visited B, C, A. *)
Definition chain (account_name : string) : option account_record :=
  if decide (account_name = "erin")
  then Some (mk_account_record (Some ["A"; "C"; "B"]) None)
  else if decide (account_name = "C") then Some (mk_account_record None None)
  else sample.chain account_name.

Definition env : environment :=
  mk_environment (digest sample.env) (key_address sample.env)
    (signed_email_subject sample.env) chain (mail_open sample.env)
    (mail_open_with_key sample.env) (get_key_label sample.env)
    (BTS_MAIL_DEFAULT_MAIL_SERVERS sample.env) (BTS_MAIL_PROOF_OF_WORK_TARGET sample.env)
    (message_already_stored_what sample.env) (timestamp_too_old_what sample.env)
    (λ _ server_name, if decide (server_name = "B") then 1
                      else if decide (server_name = "C") then 2 else 3).

Definition failed_record : mail_record.t :=
  mail_record.mk 5 failed "alice" "bob" 77 sample.ciphertext [("A", 1); ("B", 2)] 10
    "server busy".

(** An open client whose archive holds one received message of id 8 from
    alice to bob, indexed, and in the inbox. *)
Definition with_mail : client_impl :=
  (index_archive_task
     (client_check_new_messages sample.env false [sample.one_message] sample.opened).2).2.

End more_samples.

(** * Properties *)

(** ** Running the monad *)

Ltac run :=
  repeat (unfold mbind, M_bind, mret, M_ret, get, modify, throw, FC_ASSERT, try_catch,
            processing_db.store, processing_db.fetch, processing_db.fetch_optional,
            processing_db.remove, archive.store, archive.fetch_optional, archive.remove,
            inbox.store, inbox.fetch_optional, inbox.remove,
            property_db.store, property_db.fetch, property_db.fetch_optional,
            mail_index_insert, schedule_proof_of_work, schedule_transmit_message in *;
          simpl in *).

(** Settle a [decide] of the goal that the context decides. *)
Ltac settle_decide :=
  match goal with
  | |- context [decide ?P] =>
      first [ rewrite (decide_True (P:=P)) by (simpl; first [done|set_solver])
            | rewrite (decide_False (P:=P)) by (simpl; first [done|congruence|set_solver]) ]
  end.

(** Run a job forward, reading the processing store through [Hfetch]. *)
Ltac run_with Hfetch :=
  repeat (run; first [rewrite Hfetch | rewrite lookup_insert_eq | settle_decide
                     | progress unfold finalize_message]).

(** ** The scenarios of the specification, run on the sample *)

(** Happy path.  A message to bob whose digest (15) is above the target is
    mined in one slice (nonce 5, digest 3), both servers store it, and
    finalize leaves one accepted archive row under the final id 3 and an
    empty processing store. *)
Example happy_path :
  let message := message.mk mail.encrypted 77 0 15 "ct" in
  let sent := (client_send_encrypted_message sample.env message "alice" "bob" 77
                 sample.opened).2 in
  let mined := (proof_of_work_job sample.env 15 [mk_slice 20 100 false] sent).2 in
  let done := (transmit_message_job sample.env 15
                 [task_started "A"; task_started "B";
                  task_replied "B" (stored_reply 3); task_replied "A" (stored_reply 3)]
                 mined).2 in
  _proof_of_work_jobs sent = [15]
  ∧ _transmit_message_jobs mined = [15]
  ∧ map_to_list (_archive done)
    = [(3, mail_archive_record.mk 3 accepted "alice" "bob" 1077
             (message.mk mail.encrypted 77 5 20 "ct") [("B", 2); ("A", 1)])]
  ∧ map_to_list (_processing_db done) = [].
Proof. vm_compute. done. Qed.

(** Total transmit failure: both servers refuse, the record stays in
    processing as failed with the server's text. *)
Example total_transmit_failure :
  let st := sample.with_processing (sample.outgoing "bob" proof_of_work) sample.opened in
  let done := (transmit_message_job sample.env 5
                 [task_started "A"; task_started "B";
                  task_replied "A" (error_reply "server busy");
                  task_replied "B" (error_reply "server busy")] st).2 in
  (mail_record.status <$> _processing_db done !! 5) = Some failed
  ∧ (mail_record.failure_reason <$> _processing_db done !! 5) = Some "server busy"
  ∧ map_to_list (_archive done) = [].
Proof. vm_compute. done. Qed.

(** Inbound dedup across servers: both of bob's servers list the same
    message; the archive has one row naming both servers, the inbox one
    entry, and one new message is counted. *)
Example inbound_dedup_across_servers :
  let pass := mk_fetch_pass sample.bob_account 500
                (λ _ _, connected [inventory_result
                                     [(200, 8, message_result sample.inbound)]]) in
  let run := client_check_new_messages sample.env false [pass] sample.opened in
  run.1 = returned 1
  ∧ (mail_archive_record.mail_servers <$> _archive run.2 !! 8) = Some [("A", 1); ("B", 2)]
  ∧ size (_archive run.2) = 1%nat
  ∧ size (_inbox run.2) = 1%nat
  ∧ new_mail_notifier run.2 = [1].
Proof. vm_compute. done. Qed.

(** ** The index container *)

Lemma index_insert_keeps (row x : mail_index_record.t) rows :
  x ∈ rows → x ∈ index_insert row rows.
Proof. unfold index_insert. case_decide; set_solver. Qed.

Lemma index_insert_has_id (row : mail_index_record.t) rows :
  mail_index_record.id row ∈ mail_index_record.id <$> index_insert row rows.
Proof.
  unfold index_insert. case_decide; [done|].
  rewrite fmap_app. set_solver.
Qed.

Lemma index_insert_inv (row x : mail_index_record.t) rows :
  x ∈ index_insert row rows →
  x ∈ rows ∨ (x = row ∧ mail_index_record.id row ∉ mail_index_record.id <$> rows).
Proof. unfold index_insert. case_decide; set_solver. Qed.

Lemma index_insert_unique (row : mail_index_record.t) rows :
  NoDup (mail_index_record.id <$> rows) →
  NoDup (mail_index_record.id <$> index_insert row rows).
Proof.
  intros Hnd. unfold index_insert. case_decide; [done|].
  rewrite fmap_app. apply NoDup_app. split_and!; [done| |apply NoDup_singleton].
  intros x Hx Hx'. apply list_elem_of_singleton in Hx'. simpl in Hx'. congruence.
Qed.

(** ** C4: finalize *)

(** C4.  [finalize_message] on a record of the processing store sets its id
    to the digest of its content and its status to accepted, inserts the
    header of that record into the index, stores it in the archive under
    the final id and removes the processing row of the stable id; so the
    stable id is gone from processing (cache and disk) and the final id is
    in the archive and in the index. *)
Theorem finalize_message_moves_record (env : environment) (st : client_impl)
    (message_id : Z) (email : mail_record.t) :
  _processing_db st !! message_id = Some email →
  let final_id := digest env (mail_record.content email) in
  let final := mail_record.set_status accepted (mail_record.set_id final_id email) in
  ∃ st', finalize_message env message_id st = (returned (), st')
    ∧ mail_record.id final = final_id
    ∧ _mail_index st'
      = index_insert (mail_index_record.of_header (header_of_mail_record env final))
          (_mail_index st)
    ∧ final_id ∈ mail_index_record.id <$> _mail_index st'
    ∧ _archive st' !! final_id = Some (archive_record_of_mail_record env final)
    ∧ mail_archive_record.id (archive_record_of_mail_record env final) = final_id
    ∧ mail_archive_record.status (archive_record_of_mail_record env final) = accepted
    ∧ _processing_db st' !! message_id = None
    ∧ _processing_disk st' !! message_id = None.
Proof.
  intros Hfetch final_id final. unfold finalize_message. run. rewrite Hfetch. simpl.
  eexists. split; [reflexivity|]. simpl.
  split_and!; try done.
  - apply (index_insert_has_id (mail_index_record.of_header (header_of_mail_record env final))).
  - apply lookup_insert_eq.
  - apply lookup_delete_eq.
  - apply lookup_delete_eq.
Qed.

Lemma finalize_message_moves_record_witness :
  ∃ st', finalize_message sample.env 5
           (sample.with_processing (sample.outgoing "bob" transmitting) sample.opened)
         = (returned (), st')
    ∧ _archive st' !! 5
      = Some (mail_archive_record.mk 5 accepted "alice" "bob" 1077 sample.ciphertext
                [("A", 1); ("B", 2)])
    ∧ _processing_db st' !! 5 = None.
Proof.
  destruct (finalize_message_moves_record sample.env
              (sample.with_processing (sample.outgoing "bob" transmitting) sample.opened)
              5 (sample.outgoing "bob" transmitting)) as (st' & H1 & _ & _ & _ & H5 & _ & _ & H8 & _).
  - vm_compute. reflexivity.
  - exists st'. split_and!; [exact H1|exact H5|exact H8].
Defined.

(** ** C2: the cancellation boundary *)

Lemma status_rank_cancelable (s : mail_status) :
  status_rank s ≤ status_rank proof_of_work ↔ s = submitted ∨ s = proof_of_work.
Proof.
  split.
  - destruct s; simpl; intros; auto; lia.
  - intros [-> | ->]; simpl; lia.
Qed.

(** C2, as the code has it.  On an open client [cancel_message] stores the
    record with status canceled when the processing store has a record of
    that id in status submitted or proof_of_work, and touches nothing else;
    it throws and leaves the client as it was when the record is in a later
    status; and it returns, leaving the client as it was, when the
    processing store has no record of that id. *)
Theorem cancel_message_boundary (st : client_impl) (message_id : Z) :
  _property_is_open st = true →
  match _processing_db st !! message_id with
  | Some email =>
      if decide (mail_record.status email = submitted
                 ∨ mail_record.status email = proof_of_work)
      then ∃ st', client_cancel_message message_id st = (returned (), st')
             ∧ _processing_db st'
               = <[message_id := mail_record.set_status canceled email]> (_processing_db st)
             ∧ _archive st' = _archive st ∧ _inbox st' = _inbox st
             ∧ _mail_index st' = _mail_index st
      else ∃ e, client_cancel_message message_id st = (thrown e, st)
  | None => client_cancel_message message_id st = (returned (), st)
  end.
Proof.
  intros Hopen. unfold client_cancel_message. run. rewrite Hopen. simpl.
  destruct (_processing_db st !! message_id) as [email|] eqn:Hfetch; simpl; [|done].
  case_decide as Hs.
  - rewrite bool_decide_eq_true_2 by (by apply status_rank_cancelable). simpl.
    eexists. split; [reflexivity|]. done.
  - rewrite bool_decide_eq_false_2 by (by rewrite status_rank_cancelable). simpl.
    eauto.
Qed.

Lemma cancel_message_boundary_witness :
  ∃ st', client_cancel_message 5
           (sample.with_processing (sample.outgoing "bob" proof_of_work) sample.opened)
         = (returned (), st')
    ∧ _processing_db st' !! 5 = Some (sample.outgoing "bob" canceled).
Proof.
  pose proof (cancel_message_boundary
                (sample.with_processing (sample.outgoing "bob" proof_of_work) sample.opened)
                5 eq_refl) as H.
  assert (_processing_db
            (sample.with_processing (sample.outgoing "bob" proof_of_work) sample.opened) !! 5
          = Some (sample.outgoing "bob" proof_of_work)) as Hfetch
    by (vm_compute; reflexivity).
  rewrite Hfetch in H.
  destruct (decide _) as [_|Hn] in H; [|exfalso; apply Hn; right; reflexivity].
  destruct H as (st' & H1 & H2 & _).
  exists st'. split; [exact H1|]. rewrite H2. apply lookup_insert_eq.
Defined.

(** C2, the claim as it was stated, fails where no record has the id: the
    processing store of a newly opened client is empty, and cancelling id 5
    returns without an error. *)
Lemma cancel_message_of_unknown_id_returns :
  _property_is_open sample.opened = true
  ∧ _processing_db sample.opened !! 5 = None
  ∧ client_cancel_message 5 sample.opened = (returned (), sample.opened).
Proof. vm_compute. done. Qed.

(** ** C5: a canceled message at the start of the proof-of-work job *)

(** C5, at the start of the job.  When the job finds the record canceled it
    stores it as failed, but the reason it stores is the one for a missing
    target: the status has been overwritten with failed before the reason is
    chosen by it, so [status == canceled] is never true there. *)
Theorem proof_of_work_job_canceled_at_start (env : environment) (st : client_impl)
    (message_id : Z) (email : mail_record.t) (slices : list slice) :
  _processing_db st !! message_id = Some email →
  mail_record.status email = canceled →
  ∃ st', proof_of_work_job env message_id slices st = (returned job_done, st')
    ∧ _processing_db st' !! mail_record.id email
      = Some (mail_record.set_failure_reason
                "No proof of work target. Cannot do proof of work."
                (mail_record.set_status failed email))
    ∧ _transmit_message_jobs st' = _transmit_message_jobs st.
Proof.
  intros Hfetch Hcanceled. unfold proof_of_work_job. run. rewrite Hfetch. simpl.
  rewrite (bool_decide_eq_false_2 (mail_record.status email ≠ canceled)) by tauto.
  simpl. eexists. split; [reflexivity|]. simpl. split; [|done].
  apply lookup_insert_eq.
Qed.

Lemma proof_of_work_job_canceled_at_start_witness :
  ∃ st', proof_of_work_job sample.env 5 []
           (sample.with_processing (sample.outgoing "bob" canceled) sample.opened)
         = (returned job_done, st')
    ∧ (mail_record.failure_reason <$> _processing_db st' !! 5)
      = Some "No proof of work target. Cannot do proof of work.".
Proof.
  destruct (proof_of_work_job_canceled_at_start sample.env
              (sample.with_processing (sample.outgoing "bob" canceled) sample.opened)
              5 (sample.outgoing "bob" canceled) [])
    as (st' & H1 & H2 & _).
  - vm_compute. reflexivity.
  - reflexivity.
  - exists st'. split; [exact H1|]. simpl in H2. rewrite H2. reflexivity.
Defined.

(** At a slice boundary the reason is the right one: carol's message needs
    mining (digest 52 against target 10), the user cancels during the first
    slice, and the job ends with the record failed, "Canceled by user.". *)
Example proof_of_work_job_canceled_while_mining :
  let email := mail_record.mk 52 submitted "alice" "carol" 77
                 (message.mk mail.encrypted 77 1 15 "ct") [("A", 1)] 10 "" in
  let st' := (proof_of_work_job sample.env 52 [mk_slice 20 3 true; mk_slice 21 3 false]
                (sample.with_processing email sample.opened)).2 in
  (mail_record.status <$> _processing_db st' !! 52) = Some failed
  ∧ (mail_record.failure_reason <$> _processing_db st' !! 52) = Some "Canceled by user.".
Proof. vm_compute. done. Qed.

(** ** C1: the failure reason across a restart *)

Lemma unpack_pack_failure_reason (email : mail_record.t) :
  mail_record.failure_reason (mail_record.unpack (mail_record.pack email)) = ""
  ∧ mail_record.status (mail_record.unpack (mail_record.pack email))
    = mail_record.status email.
Proof. done. Qed.

(** No record that the processing store serves after it was opened has a
    failure reason, whatever its status. *)
Lemma opened_store_has_no_failure_reason (st : client_impl) (message_id : Z)
    (email : mail_record.t) :
  _processing_db (processing_db.open st).2 !! message_id = Some email →
  mail_record.failure_reason email = "".
Proof.
  unfold processing_db.open. run. rewrite lookup_fmap.
  destruct (_processing_disk st !! message_id); simpl; [|done].
  by intros [= <-].
Qed.

(** C1, at a record without servers.  [get_proof_of_work_target] stores the
    record as failed with its reason, and within the session the store
    serves it so.  The reason is not among the reflected members: once the
    client is constructed anew over the same directory and the processing
    store is opened, the record comes back failed with an empty reason, the
    dispatch of [retry_message] leaves it as it is, and [get_message]
    reports a failed message without a reason. *)
Theorem failure_reason_lost_on_reopen (env : environment) (st : client_impl)
    (message_id : Z) (email : mail_record.t) :
  _processing_db st !! message_id = Some email →
  mail_record.mail_servers email = [] →
  let st1 := (get_proof_of_work_target env message_id st).2 in
  let st2 := (processing_db.open (restart st1)).2 in
  (∃ stored, _processing_db st1 !! message_id = Some stored
     ∧ mail_record.status stored = failed
     ∧ mail_record.failure_reason stored
       = "Could not find mail servers for this recipient.")
  ∧ (∃ reloaded, _processing_db st2 !! message_id = Some reloaded
       ∧ mail_record.status reloaded = failed
       ∧ mail_record.failure_reason reloaded = ""
       ∧ retry_message env reloaded st2 = (returned (), st2)
       ∧ ∃ reported, get_message env message_id st2 = (returned reported, st2)
           ∧ failure_reason reported = "").
Proof.
  intros Hfetch Hservers st1 st2. subst st1 st2.
  unfold get_proof_of_work_target. run. rewrite Hfetch. simpl.
  rewrite decide_True by done. simpl. split.
  - eexists. rewrite lookup_insert_eq. done.
  - unfold processing_db.open, get_message, retry_message. run.
    rewrite lookup_fmap, lookup_insert_eq. simpl.
    eexists. split; [reflexivity|]. simpl. split_and!; try done.
    eexists. split; [reflexivity|].
    unfold decrypted_mail_record. case_decide; simpl; done.
Qed.

Lemma failure_reason_lost_on_reopen_witness :
  let st := sample.with_processing
              (mail_record.mk 5 submitted "alice" "dave" 77 sample.ciphertext [] 0 "")
              sample.opened in
  let st2 := (processing_db.open (restart (get_proof_of_work_target sample.env 5 st).2)).2 in
  ∃ reloaded, _processing_db st2 !! 5 = Some reloaded
    ∧ mail_record.status reloaded = failed
    ∧ mail_record.failure_reason reloaded = "".
Proof.
  intros st st2.
  destruct (failure_reason_lost_on_reopen sample.env st 5
              (mail_record.mk 5 submitted "alice" "dave" 77 sample.ciphertext [] 0 ""))
    as (_ & reloaded & H1 & H2 & H3 & _).
  - vm_compute. reflexivity.
  - reflexivity.
  - exists reloaded. split_and!; [exact H1|exact H2|exact H3].
Defined.

(** The same through the facade: dave has published an empty server list, a
    message to him fails at once, and after a restart and [open] the
    facade's [get_message] reports it without a reason. *)
Example failed_message_has_no_reason_after_restart :
  let sent := (client_send_encrypted_message sample.env sample.ciphertext "alice" "dave" 77
                 sample.opened).2 in
  let reopened := (client_open sample.env (restart sent)).2 in
  (∃ reported, (client_get_message sample.env 5 sent).1 = returned reported
     ∧ failure_reason reported = "Could not find mail servers for this recipient.")
  ∧ (mail_record.status <$> _processing_db reopened !! 5) = Some failed
  ∧ (∃ reported, (client_get_message sample.env 5 reopened).1 = returned reported
       ∧ failure_reason reported = "").
Proof. vm_compute. split_and!; [eexists; split; reflexivity|done|eexists; split; reflexivity]. Qed.

(** ** C7: the version check of [open] *)

(** Re-entering the pipeline does not touch the properties store. *)
Lemma retry_message_property_db (env : environment) (email : mail_record.t)
    (st : client_impl) :
  _property_db (retry_message env email st).2 = _property_db st
  ∧ _property_is_open (retry_message env email st).2 = _property_is_open st.
Proof.
  unfold retry_message, process_outgoing_mail, get_proof_of_work_target, finalize_message.
  destruct (mail_record.status email); run; repeat case_match; simplify_eq; done.
Qed.

Lemma retry_all_property_db (env : environment) (rows : list (Z * mail_record.t))
    (st : client_impl) :
  _property_db (retry_all env rows st).2 = _property_db st
  ∧ _property_is_open (retry_all env rows st).2 = _property_is_open st.
Proof.
  revert st. induction rows as [|row rows IH]; intros st; [done|].
  simpl. unfold mbind, M_bind.
  destruct (retry_message env row.2 st) as [[[]|e] st1] eqn:Hrow;
    pose proof (retry_message_property_db env row.2 st) as Hframe;
    rewrite Hrow in Hframe; simpl in Hframe.
  - destruct (IH st1) as [-> ->]. done.
  - done.
Qed.

(** C7.  [open] returns in every case.  When the properties store has no
    version, the supported version is in it afterwards.  When it has a
    version that is not the supported one, the client is not open
    afterwards: [is_open] answers false. *)
Theorem open_checks_version (env : environment) (st : client_impl) :
  (∃ st', open env st = (returned (), st'))
  ∧ (_property_db st !! "version" = None →
     _property_db (open env st).2 !! "version"
     = Some (v_int64 BTS_MAIL_CLIENT_DATABASE_VERSION))
  ∧ (∀ stored, _property_db st !! "version" = Some stored →
     stored ≠ v_int64 BTS_MAIL_CLIENT_DATABASE_VERSION →
     (is_open (open env st).2).1 = returned false).
Proof.
  unfold open, is_open, archive.open, archive.close, processing_db.open,
    processing_db.close, inbox.open, property_db.open, property_db.close, index_archive.
  run.
  destruct (_property_db st !! "version") as [stored|] eqn:Hversion;
    repeat (rewrite ?Hversion, ?lookup_insert_eq; simpl).
  - destruct stored as [n|t]; simpl.
    + destruct (decide (n ≠ BTS_MAIL_CLIENT_DATABASE_VERSION)) as [Hn|Hn]; simpl.
      * split_and!; [eauto|done|done].
      * match goal with |- context [retry_all env ?rows ?s] =>
          destruct (retry_all env rows s) as [[[]|e] st1] eqn:Hretry end; simpl.
        -- split_and!; [eauto|done|].
           intros ? [= <-] Hne. exfalso. apply Hne. f_equal.
           destruct (decide (n = BTS_MAIL_CLIENT_DATABASE_VERSION)); [done|contradiction].
        -- split_and!; [eauto|done|done].
    + split_and!; [eauto|done|done].
  - match goal with |- context [retry_all env ?rows ?s] =>
      pose proof (retry_all_property_db env rows s) as [Hrows _];
      destruct (retry_all env rows s) as [[[]|e] st1] eqn:Hretry end; simpl in *.
    + split_and!; [eauto| |done]. intros _. rewrite Hrows. apply lookup_insert_eq.
    + split_and!; [eauto| |done]. intros _. rewrite Hrows. apply lookup_insert_eq.
Qed.

Lemma open_checks_version_witness :
  _property_db (open sample.env sample.fresh).2 !! "version" = Some (v_int64 1)
  ∧ (is_open (open sample.env
                (set_property_db {["version" := v_int64 2]} false sample.fresh)).2).1
    = returned false.
Proof.
  split.
  - apply (open_checks_version sample.env sample.fresh). reflexivity.
  - apply (open_checks_version sample.env
             (set_property_db {["version" := v_int64 2]} false sample.fresh))
      with (stored := v_int64 2).
    + reflexivity.
    + discriminate.
Defined.

(** ** C10: the inbox *)

Global Instance by_timestamp_total : Total by_timestamp.
Proof. intros a b. unfold by_timestamp. lia. Qed.

Global Instance by_timestamp_transitive : Transitive by_timestamp.
Proof. intros a b c. unfold by_timestamp. lia. Qed.


(** ** C3: proof of work at finalize *)

(** C3, on a run with a stale timestamp.  The record has two servers and
    its digest is within the target.  Server [a] answers timestamp_too_old:
    its sub-task stores the record with the nonce bumped and status
    proof_of_work.  Server [b] accepts the message.  The job finds the
    record not failed and a successful server, and finalizes the record it
    reads back: the archive gets, as accepted, the content with the bumped
    nonce, whose digest was never mined and is above the target. *)
Theorem finalize_after_timestamp_too_old (env : environment) (st : client_impl)
    (message_id : Z) (email : mail_record.t) (a b : string) (ea eb : Z) :
  _processing_db st !! message_id = Some email →
  mail_record.mail_servers email = [(a, ea); (b, eb)] →
  a ≠ b →
  timestamp_too_old_what env ≠ message_already_stored_what env →
  digest env (mail_record.content email) ≤ mail_record.proof_of_work_target email →
  digest env (message.incr_nonce (mail_record.content email))
    > mail_record.proof_of_work_target email →
  ∃ st' archived,
    transmit_message_job env message_id
      [task_started a; task_started b;
       task_replied a (error_reply (timestamp_too_old_what env));
       task_replied b (stored_reply (digest env (mail_record.content email)))] st
    = (returned job_done, st')
    ∧ _archive st' !! digest env (message.incr_nonce (mail_record.content email))
      = Some archived
    ∧ mail_archive_record.status archived = accepted
    ∧ mail_archive_record.content archived = message.incr_nonce (mail_record.content email)
    ∧ digest env (mail_archive_record.content archived)
      > mail_record.proof_of_work_target email
    ∧ _processing_db st' !! message_id = None.
Proof.
  intros Hfetch Hservers Hab Hwhat Hmined Hbumped.
  assert (b ≠ a) as Hba by congruence.
  unfold transmit_message_job, finalize_message. run. rewrite Hfetch. simpl.
  rewrite Hservers. simpl. run_with Hfetch.
  eexists. eexists. split; [reflexivity|]. simpl.
  split_and!; [apply lookup_insert_eq|reflexivity|reflexivity|exact Hbumped
              |apply lookup_delete_eq].
Qed.

Lemma finalize_after_timestamp_too_old_witness :
  ∃ st' archived,
    transmit_message_job sample.env 5
      [task_started "A"; task_started "B";
       task_replied "A" (error_reply "timestamp_too_old");
       task_replied "B" (stored_reply 5)]
      (sample.with_processing (sample.outgoing "bob" proof_of_work) sample.opened)
    = (returned job_done, st')
    ∧ _archive st' !! 42 = Some archived
    ∧ mail_archive_record.status archived = accepted
    ∧ digest sample.env (mail_archive_record.content archived) > 10.
Proof.
  destruct (finalize_after_timestamp_too_old sample.env
              (sample.with_processing (sample.outgoing "bob" proof_of_work) sample.opened)
              5 (sample.outgoing "bob" proof_of_work) "A" "B" 1 2)
    as (st' & archived & H1 & H2 & H3 & _ & H5 & _).
  - vm_compute. reflexivity.
  - reflexivity.
  - discriminate.
  - discriminate.
  - vm_compute. discriminate.
  - reflexivity.
  - exists st', archived. split_and!; [exact H1|exact H2|exact H3|exact H5].
Defined.

(** Where the mining loop ends with a record and the message has not been
    canceled, the digest of the record is within its target. *)
Lemma mining_loop_mined (env : environment) (message_id : Z) (slices : list slice)
    (email mined : mail_record.t) (st st' : client_impl) :
  mining_loop env message_id slices email st = (returned (Some mined), st') →
  (∀ stored, _processing_db st' !! message_id = Some stored →
             mail_record.status stored ≠ canceled) →
  digest env (mail_record.content mined) ≤ mail_record.proof_of_work_target mined.
Proof.
  revert email st. induction slices as [|s slices IH]; intros email st Hloop Hstored;
    simpl in Hloop; run;
    destruct (_processing_db st !! message_id) as [stored|] eqn:Hfetch; try done;
    simpl in Hloop;
    destruct (bool_decide (mail_record.status stored ≠ canceled)) eqn:Hs;
    destruct (bool_decide (digest env (mail_record.content email)
                           > mail_record.proof_of_work_target email)) eqn:Hd;
    simpl in Hloop; simplify_eq;
    try (apply bool_decide_eq_false in Hd; lia);
    try (apply bool_decide_eq_false in Hs; exfalso; apply Hs; eauto).
  destruct (cancel_requested s); simpl in Hloop.
  - destruct (client_cancel_message message_id _) as [[[]|e] st1]; simpl in Hloop;
      eapply IH; eauto.
  - eapply IH; eauto.
Qed.

(** ** C6: [last_fetch] after a pass *)

(** The fetch sub-tasks leave the properties store and the signal of new
    mail alone, and they return. *)
Lemma store_fetched_frame (env : environment) (account : wallet_account_record)
    (server : string * Z) (inventory_id : Z) (ciphertext : message.t) (st : client_impl) :
  ∃ st', store_fetched env account server inventory_id ciphertext st = (returned (), st')
    ∧ _property_db st' = _property_db st
    ∧ _property_is_open st' = _property_is_open st
    ∧ new_mail_notifier st' = new_mail_notifier st.
Proof.
  unfold store_fetched. run.
  repeat case_match; simplify_eq; simpl; eexists; (split; [reflexivity|done]).
Qed.

Lemma fetch_messages_frame (env : environment) (account : wallet_account_record)
    (server : string * Z) results (st : client_impl) :
  ∃ complete st', fetch_messages env account server results st = (returned complete, st')
    ∧ _property_db st' = _property_db st
    ∧ _property_is_open st' = _property_is_open st
    ∧ new_mail_notifier st' = new_mail_notifier st.
Proof.
  revert st. induction results as [|[[t inventory_id] [|ciphertext]] results IH];
    intros st; simpl; [by eexists _, _..|].
  unfold mbind, M_bind.
  destruct (store_fetched_frame env account server inventory_id ciphertext st)
    as (st1 & -> & <- & <- & <-).
  apply IH.
Qed.

Lemma fetch_pages_frame (env : environment) (account : wallet_account_record)
    (server : string * Z) pages (st : client_impl) :
  ∃ joined st', fetch_pages env account server pages st = (returned joined, st')
    ∧ _property_db st' = _property_db st
    ∧ _property_is_open st' = _property_is_open st
    ∧ new_mail_notifier st' = new_mail_notifier st.
Proof.
  revert st. induction pages as [|[|results] pages IH]; intros st; simpl;
    [by eexists _, _..|].
  unfold mbind, M_bind.
  destruct (fetch_messages_frame env account server results st)
    as (complete & st1 & -> & <- & <- & <-).
  destruct (complete && _); [apply IH|by eexists _, _].
Qed.

Lemma fetch_task_frame (env : environment) (account : wallet_account_record)
    (server : string * Z) (script : fetch_script) (st : client_impl) :
  ∃ joined st', fetch_task env account server script st = (returned joined, st')
    ∧ _property_db st' = _property_db st
    ∧ _property_is_open st' = _property_is_open st
    ∧ new_mail_notifier st' = new_mail_notifier st.
Proof.
  unfold fetch_task. destruct script; [by eexists _, _|]. apply fetch_pages_frame.
Qed.

Lemma fetch_tasks_frame (env : environment) (pass : fetch_pass) (last_check_time : Z)
    (servers : list (string * Z)) (st : client_impl) :
  ∃ joined st', fetch_tasks env pass last_check_time servers st = (returned joined, st')
    ∧ _property_db st' = _property_db st
    ∧ _property_is_open st' = _property_is_open st
    ∧ new_mail_notifier st' = new_mail_notifier st.
Proof.
  revert st. induction servers as [|server servers IH]; intros st; simpl;
    [by eexists _, _|].
  unfold mbind, M_bind.
  destruct (fetch_task_frame env (account pass) server
              (server_says pass server.1 last_check_time) st)
    as (joined & st1 & -> & <- & <- & <-).
  destruct (IH st1) as (rest & st2 & -> & <- & <- & <-).
  by eexists _, _.
Qed.

(** A sub-task that cannot connect, that is answered with an error, or
    that gets a page shorter than the maximum returns. *)
Lemma fetch_task_returns (env : environment) (account : wallet_account_record)
    (server : string * Z) (script : fetch_script) (st : client_impl) :
  script = connect_fails
  ∨ (∃ pages, script = connected (inventory_error :: pages))
  ∨ (∃ results pages, script = connected (inventory_result results :: pages)
       ∧ Z.of_nat (length results) ≠ BTS_MAIL_CLIENT_MAX_INVENTORY_SIZE) →
  ∃ st', fetch_task env account server script st = (returned true, st')
    ∧ _property_db st' = _property_db st.
Proof.
  intros [->|[[pages ->]|(results & pages & -> & Hshort)]]; simpl; [by eexists..|].
  unfold mbind, M_bind.
  destruct (fetch_messages_frame env account server results st)
    as (complete & st1 & -> & Hprops & _).
  rewrite bool_decide_eq_false_2 by done. rewrite andb_false_r. by eexists.
Qed.

Lemma fetch_tasks_return (env : environment) (pass : fetch_pass) (last_check_time : Z)
    (servers : list (string * Z)) (st : client_impl) :
  (∀ server, server ∈ servers →
     server_says pass server.1 last_check_time = connect_fails
     ∨ (∃ pages, server_says pass server.1 last_check_time
                 = connected (inventory_error :: pages))
     ∨ (∃ results pages, server_says pass server.1 last_check_time
                         = connected (inventory_result results :: pages)
          ∧ Z.of_nat (length results) ≠ BTS_MAIL_CLIENT_MAX_INVENTORY_SIZE)) →
  ∃ st', fetch_tasks env pass last_check_time servers st = (returned true, st')
    ∧ _property_db st' = _property_db st.
Proof.
  revert st. induction servers as [|server servers IH]; intros st Hscripts; simpl;
    [by eexists|].
  unfold mbind, M_bind.
  destruct (fetch_task_returns env (account pass) server
              (server_says pass server.1 last_check_time) st)
    as (st1 & -> & <-); [apply Hscripts; left|].
  destruct (IH st1) as (st2 & -> & <-); [intros ??; apply Hscripts; by right|].
  by eexists.
Qed.

(** C6, as the code has it.  A pass that runs to its end leaves its check
    time in [last_fetch/<account name>], and a pass that ends by an
    exception leaves the properties as they were.  Failed sub-tasks do not
    keep a pass from running to its end: when the stored time of the last
    fetch can be read, and each server of the account cannot be connected
    to, answers the inventory request with an error, or sends a page
    shorter than the maximum (with or without errors for its messages),
    the pass returns and [last_fetch/<account name>] is its check time. *)
Theorem check_account_last_fetch (env : environment) (get_old_messages : bool)
    (pass : fetch_pass) (st : client_impl) :
  match check_account env get_old_messages pass st with
  | (returned _, st') =>
      _property_db st'
      = <[last_fetch_key (name (account pass)) := v_time (chain_now pass)]> (_property_db st)
      ∧ _property_db st' !! last_fetch_key (name (account pass))
        = Some (v_time (chain_now pass))
  | (thrown _, st') => _property_db st' = _property_db st
  end
  ∧ ((get_old_messages = true
      ∨ ∀ n, _property_db st !! last_fetch_key (name (account pass)) ≠ Some (v_int64 n)) →
     (∀ server since,
        server ∈ get_mail_servers_for_recipient env (name (account pass)) →
        server_says pass server.1 since = connect_fails
        ∨ (∃ pages, server_says pass server.1 since = connected (inventory_error :: pages))
        ∨ (∃ results pages, server_says pass server.1 since
                            = connected (inventory_result results :: pages)
             ∧ Z.of_nat (length results) ≠ BTS_MAIL_CLIENT_MAX_INVENTORY_SIZE)) →
     ∃ st', check_account env get_old_messages pass st = (returned (), st')
       ∧ _property_db st' !! last_fetch_key (name (account pass))
         = Some (v_time (chain_now pass))).
Proof.
  unfold check_account.
  set (key := last_fetch_key (name (account pass))).
  set (servers := get_mail_servers_for_recipient env (name (account pass))).
  split.
  - assert (∀ since, match (joined ← fetch_tasks env pass since servers;
                            (if joined : bool then mret () else throw canceled_exception);;
                            property_db.store key (v_time (chain_now pass))) st with
                     | (returned _, st') =>
                         _property_db st'
                         = <[key := v_time (chain_now pass)]> (_property_db st)
                         ∧ _property_db st' !! key = Some (v_time (chain_now pass))
                     | (thrown _, st') => _property_db st' = _property_db st
                     end) as Hrest.
    { intros since. unfold mbind, M_bind.
      destruct (fetch_tasks_frame env pass since servers st)
        as ([] & st1 & -> & Hprops & _); run; rewrite ?Hprops; [|done].
      split; [done|apply lookup_insert_eq]. }
    destruct get_old_messages; run.
    + apply Hrest.
    + destruct (_property_db st !! key) as [[n|t]|]; simpl; [done|apply Hrest..].
  - intros Hreadable Hscripts.
    assert (∀ since, ∃ st',
              (joined ← fetch_tasks env pass since servers;
               (if joined : bool then mret () else throw canceled_exception);;
               property_db.store key (v_time (chain_now pass))) st = (returned (), st')
              ∧ _property_db st' !! key = Some (v_time (chain_now pass))) as Hrest.
    { intros since. unfold mbind, M_bind.
      destruct (fetch_tasks_return env pass since servers st) as (st1 & -> & Hprops);
        [intros server Hserver; by apply Hscripts|].
      run. eexists. split; [reflexivity|]. simpl. apply lookup_insert_eq. }
    destruct get_old_messages; run.
    + apply Hrest.
    + destruct (_property_db st !! key) as [[n|t]|] eqn:Hstored; simpl; [|apply Hrest..].
      destruct Hreadable as [?|Hreadable]; [done|]. by destruct (Hreadable n).
Qed.

(** bob's client fetched at 200.  Of his two servers, A cannot be reached
    and B answers the inventory request with an error; the pass returns and
    moves [last_fetch/bob] to its check time 500. *)
Lemma check_account_last_fetch_witness :
  let pass := mk_fetch_pass sample.bob_account 500
                (λ server _, if decide (server = "A") then connect_fails
                             else connected [inventory_error]) in
  get_mail_servers_for_recipient sample.env "bob" = [("A", 1); ("B", 2)]
  ∧ _property_db sample.fetched_before !! "last_fetch/bob" = Some (v_time 200)
  ∧ ∃ st', check_account sample.env false pass sample.fetched_before = (returned (), st')
      ∧ _property_db st' !! "last_fetch/bob" = Some (v_time 500).
Proof.
  intros pass. split; [vm_compute; reflexivity|]. split; [vm_compute; reflexivity|].
  apply (proj2 (check_account_last_fetch sample.env false pass sample.fetched_before)).
  - right. intros n. vm_compute. discriminate.
  - intros server since _. simpl. destruct (decide (server.1 = "A")); [by left|].
    right. left. by eexists.
Defined.

(** A pass in which no server can be reached runs to its end. *)
Lemma check_account_unreachable (env : environment) (pass : fetch_pass) (st : client_impl) :
  (∀ server since, server_says pass server since = connect_fails) →
  ∃ st', check_account env true pass st = (returned (), st')
    ∧ _property_db st' !! last_fetch_key (name (account pass))
      = Some (v_time (chain_now pass)).
Proof.
  intros Hfails.
  assert (∀ servers, fetch_tasks env pass (registration_date (account pass)) servers st
                     = (returned true, st)) as Htasks.
  { induction servers as [|server servers IH]; [done|].
    simpl. rewrite Hfails. unfold mbind, M_bind. simpl. by rewrite IH. }
  unfold check_account. run. rewrite Htasks. simpl.
  eexists. split; [reflexivity|]. simpl. apply lookup_insert_eq.
Qed.

(** C6, the claim as it was stated, fails on a pass that failed entirely:
    bob's client fetched at 200; now neither of his servers can be reached,
    and [check_new_mail] still moves [last_fetch/bob] to the new check time
    500. *)
Lemma last_fetch_advances_when_every_server_fails :
  _property_db sample.fetched_before !! "last_fetch/bob" = Some (v_time 200)
  ∧ ∃ st', check_new_mail sample.env false [sample.unreachable] sample.fetched_before
           = (returned 0, st')
      ∧ _property_db st' !! "last_fetch/bob" = Some (v_time 500).
Proof. vm_compute. split; [done|]. eexists. split; reflexivity. Qed.

(** ** C8: the index against the archive *)

Lemma index_archive_task_scan (st : client_impl) :
  index_archive_task st
  = (returned (),
     set_archive_indexing_future future_ready
       (set_mail_index (scan (_mail_index st) (cursor (_archive st))) st)).
Proof. reflexivity. Qed.

(** The scan leaves every row it finds in place, and adds no row with an id
    that is in the container already. *)
Lemma scan_inv (items : list (Z * mail_archive_record.t)) (rows : list mail_index_record.t)
    (row : mail_index_record.t) :
  row ∈ scan rows items →
  row ∈ rows ∨ mail_index_record.id row ∉ mail_index_record.id <$> rows.
Proof.
  revert rows. induction items as [|item items IH]; intros rows Hrow; [by left|].
  simpl in Hrow. apply IH in Hrow as [Hrow|Hrow].
  - apply index_insert_inv in Hrow as [Hrow|[-> Hnew]]; [by left|by right].
  - right. intros Hin. apply Hrow. unfold index_insert. case_decide; [done|].
    rewrite fmap_app. set_solver.
Qed.

Lemma scan_keeps (items : list (Z * mail_archive_record.t)) (rows : list mail_index_record.t)
    (row : mail_index_record.t) :
  row ∈ rows → row ∈ scan rows items.
Proof.
  revert rows. induction items as [|item items IH]; intros rows Hrow; [done|].
  simpl. apply IH. by apply index_insert_keeps.
Qed.

Lemma scan_unique (items : list (Z * mail_archive_record.t)) (rows : list mail_index_record.t) :
  NoDup (mail_index_record.id <$> rows) → NoDup (mail_index_record.id <$> scan rows items).
Proof.
  revert rows. induction items as [|item items IH]; intros rows Hrows; [done|].
  simpl. apply IH. by apply index_insert_unique.
Qed.

Lemma scan_covers (items : list (Z * mail_archive_record.t)) (rows : list mail_index_record.t)
    (item : Z * mail_archive_record.t) :
  item ∈ items →
  mail_archive_record.id item.2 ∈ mail_index_record.id <$> scan rows items.
Proof.
  revert rows. induction items as [|item' items IH]; intros rows Hitem; [set_solver|].
  apply elem_of_cons in Hitem as [->|Hitem]; simpl; [|by apply IH].
  pose proof (index_insert_has_id (mail_index_record.of_archive_record item'.2) rows) as Hid.
  apply list_elem_of_fmap in Hid as (row & Hid & Hrow).
  apply list_elem_of_fmap. exists row. split; [done|]. by apply scan_keeps.
Qed.

Lemma scan_from (items : list (Z * mail_archive_record.t)) (rows : list mail_index_record.t)
    (row : mail_index_record.t) :
  row ∈ scan rows items →
  row ∈ rows ∨ ∃ item, item ∈ items ∧ row = mail_index_record.of_archive_record item.2.
Proof.
  revert rows. induction items as [|item items IH]; intros rows Hrow; [by left|].
  simpl in Hrow. apply IH in Hrow as [Hrow|(item0 & Hin & ->)].
  - apply index_insert_inv in Hrow as [Hrow|[-> _]]; [by left|].
    right. exists item. set_solver.
  - right. exists item0. set_solver.
Qed.

Lemma scan_from_empty (items : list (Z * mail_archive_record.t)) (row : mail_index_record.t) :
  row ∈ scan [] items →
  ∃ item, item ∈ items ∧ row = mail_index_record.of_archive_record item.2.
Proof. intros Hrow. apply scan_from in Hrow as [Hrow|Hrow]; [set_solver|done]. Qed.

(** Where the index is empty when the scan starts, every archive row is
    stored under its own id and nothing else runs, the index is coherent
    when the scan ends: ids are unique, and each archive row has its row. *)
Lemma index_archive_task_coherent (st : client_impl) :
  _mail_index st = [] →
  (∀ key record, _archive st !! key = Some record → mail_archive_record.id record = key) →
  let st' := (index_archive_task st).2 in
  NoDup (mail_index_record.id <$> _mail_index st')
  ∧ ∀ key record, _archive st' !! key = Some record →
      mail_index_record.of_archive_record record ∈ _mail_index st'.
Proof.
  intros Hempty Hkeys st'. subst st'. rewrite index_archive_task_scan. simpl.
  rewrite Hempty. split; [apply scan_unique; constructor|].
  intros key record Hrecord.
  assert ((key, record) ∈ cursor (_archive st)) as Hitem.
  { unfold cursor. rewrite merge_sort_Permutation. by apply elem_of_map_to_list. }
  pose proof (scan_covers _ [] _ Hitem) as Hid. simpl in Hid.
  apply list_elem_of_fmap in Hid as (row & Hid & Hrow).
  destruct (scan_from_empty _ _ Hrow) as ([key' record'] & Hitem' & ->). simpl in *.
  unfold cursor in Hitem'. rewrite merge_sort_Permutation in Hitem'.
  apply elem_of_map_to_list in Hitem'.
  rewrite (Hkeys _ _ Hrecord), (Hkeys _ _ Hitem') in Hid. subst key'.
  by simplify_eq.
Qed.

(** C8, on a message fetched before the scan gets to it.  The fetcher files
    the ciphertext in the archive and inserts a row built from the header,
    whose timestamp is the plaintext's.  When the wallet opens the
    ciphertext to a plaintext of another timestamp, the scan finds the id
    taken and leaves the row: after indexing has completed, no row of that
    id carries the timestamp of the archive record's content. *)
Theorem fetched_row_keeps_plaintext_timestamp (env : environment)
    (account : wallet_account_record) (server : string * Z) (ciphertext : message.t)
    (st : client_impl) :
  _archive st !! digest env ciphertext = None →
  digest env ciphertext ∉ mail_index_record.id <$> _mail_index st →
  message.timestamp (mail_open env (account_address account) ciphertext)
    ≠ message.timestamp ciphertext →
  let st1 := (store_fetched env account server (digest env ciphertext) ciphertext st).2 in
  let st2 := (index_archive_task st1).2 in
  _archive_indexing_future st2 = future_ready
  ∧ ∃ record, _archive st2 !! digest env ciphertext = Some record
      ∧ mail_archive_record.id record = digest env ciphertext
      ∧ mail_archive_record.content record = ciphertext
      ∧ digest env ciphertext ∈ mail_index_record.id <$> _mail_index st2
      ∧ ∀ row, row ∈ _mail_index st2 →
          mail_index_record.id row = mail_archive_record.id record →
          mail_index_record.timestamp row
            = message.timestamp (mail_open env (account_address account) ciphertext)
          ∧ mail_index_record.timestamp row
            ≠ message.timestamp (mail_archive_record.content record).
Proof.
  intros Harchive Hindex Hstamp st1 st2.
  set (row0 := mail_index_record.of_header (fetched_header env account ciphertext)).
  assert (_archive st1 !! digest env ciphertext
          = Some (mail_archive_record.set_mail_servers [server]
                    (archive_record_of_message env ciphertext
                       (fetched_header env account ciphertext) (account_address account)))
          ∧ _mail_index st1 = (_mail_index st ++ [row0])%list) as [Harchive1 Hindex1].
  { subst st1. unfold store_fetched. run.
    destruct (decide (message.type (mail_open env (account_address account) ciphertext)
                      = mail.transaction_notice));
      simpl; rewrite Harchive; simpl;
      (split; [apply lookup_insert_eq|]);
      unfold index_insert; rewrite decide_False by done; done. }
  subst st2. rewrite index_archive_task_scan. simpl.
  split; [done|]. eexists. split; [exact Harchive1|]. split_and!; [done|done| |].
  - apply list_elem_of_fmap. exists row0. split; [done|].
    apply scan_keeps. rewrite Hindex1. set_solver.
  - intros row Hrow Hid. simpl in Hid.
    assert (row = row0) as ->.
    { apply scan_inv in Hrow as [Hrow|Hrow].
      - rewrite Hindex1 in Hrow. apply elem_of_app in Hrow as [Hrow|Hrow]; [|set_solver].
        exfalso. apply Hindex. rewrite <- Hid. by apply list_elem_of_fmap_2.
      - exfalso. apply Hrow. rewrite Hindex1, fmap_app, Hid. set_solver. }
    simpl. done.
Qed.

Lemma fetched_row_keeps_plaintext_timestamp_witness :
  let st2 := (index_archive_task
                (store_fetched sample.env sample.bob_account ("A", 1) 8 sample.inbound
                   sample.opened).2).2 in
  ∃ record, _archive st2 !! 8 = Some record
    ∧ message.timestamp (mail_archive_record.content record) = 200
    ∧ ∀ row, row ∈ _mail_index st2 → mail_index_record.id row = 8 →
        mail_index_record.timestamp row = 150.
Proof.
  intros st2.
  destruct (fetched_row_keeps_plaintext_timestamp sample.env sample.bob_account ("A", 1)
              sample.inbound sample.opened)
    as (_ & record & H1 & H2 & H3 & _ & H5).
  - reflexivity.
  - vm_compute. apply not_elem_of_nil.
  - vm_compute. discriminate.
  - exists record. split_and!; [exact H1|by rewrite H3|].
    intros row Hrow Hid. apply (H5 row Hrow). by rewrite H2.
Defined.

(** The same through the facade: bob's client is opened, fetches the
    message before the indexing task has run, and the task then completes.
    The archive holds the content stamped 200; the one index row of id 8 is
    stamped 150. *)
Example index_row_differs_from_archive_after_indexing :
  let fetched := (client_check_new_messages sample.env false [sample.one_message]
                    sample.opened).2 in
  let indexed := (index_archive_task fetched).2 in
  _archive_indexing_future indexed = future_ready
  ∧ (message.timestamp <$> (mail_archive_record.content <$> _archive indexed !! 8))
    = Some 200
  ∧ _mail_index indexed = [mail_index_record.mk 8 "alice" "bob" 150].
Proof. vm_compute. done. Qed.

(** ** C9: a second check without new content *)

Lemma fetch_effect_refl (st : client_impl) : fetch_effect [] st st.
Proof. unfold fetch_effect. set_solver. Qed.

Lemma fetch_effect_trans (ids1 ids2 : list Z) (st st1 st2 : client_impl) :
  fetch_effect ids1 st st1 → fetch_effect ids2 st1 st2 →
  fetch_effect (ids1 ++ ids2) st st2.
Proof.
  intros (Hnew1 & Hkeep1 & Hsame1) (Hnew2 & Hkeep2 & Hsame2). split_and!.
  - intros id [Hid|Hid]%elem_of_app; auto.
  - auto.
  - intros Hseen.
    destruct Hsame1 as [Hinbox1 Hcount1]; [intros id Hid; apply Hseen; set_solver|].
    destruct Hsame2 as [Hinbox2 Hcount2];
      [intros id Hid; apply Hkeep1, Hseen; set_solver|].
    split; congruence.
Qed.

Lemma store_fetched_effect (env : environment) (account : wallet_account_record)
    (server : string * Z) (inventory_id : Z) (ciphertext : message.t) (st : client_impl) :
  fetch_effect [inventory_id] st
    (store_fetched env account server inventory_id ciphertext st).2.
Proof.
  assert (seen (store_fetched env account server inventory_id ciphertext st).2 inventory_id
          ∧ (∀ id, id ≠ inventory_id →
               _archive (store_fetched env account server inventory_id ciphertext st).2 !! id
               = _archive st !! id)
          ∧ (seen st inventory_id →
             _inbox (store_fetched env account server inventory_id ciphertext st).2
             = _inbox st
             ∧ _messages_in (store_fetched env account server inventory_id ciphertext st).2
               = _messages_in st)) as (Hnew & Hother & Hsame).
  { unfold store_fetched, seen. run.
    destruct (decide (message.type (mail_open env (account_address account) ciphertext)
                      = mail.transaction_notice)); simpl;
      (destruct (_archive st !! inventory_id) as [stored|] eqn:Hstored; simpl;
       [destruct (decide (mail_archive_record.status stored = accepted)) as [Hs|Hs]; simpl|]);
      (split_and!;
       [eexists; split; [apply lookup_insert_eq|simpl; congruence]
       |intros id Hid; by apply lookup_insert_ne
       |intros (stored' & ? & ?); simplify_eq; done]). }
  split_and!.
  - intros id ->%list_elem_of_singleton. done.
  - intros id Hid. destruct (decide (id = inventory_id)) as [->|Hne]; [done|].
    unfold seen. by rewrite Hother.
  - intros Hseen. apply Hsame, Hseen. set_solver.
Qed.

Lemma fetch_messages_effect (env : environment) (account : wallet_account_record)
    (server : string * Z) results (st : client_impl) :
  (fetch_messages env account server results st).1 = returned (results_complete results)
  ∧ fetch_effect (downloaded_results results) st
      (fetch_messages env account server results st).2.
Proof.
  revert st. induction results as [|[[t inventory_id] [|ciphertext]] results IH];
    intros st; simpl; [split; [done|apply fetch_effect_refl]..|].
  unfold mbind, M_bind.
  pose proof (store_fetched_effect env account server inventory_id ciphertext st) as Hone.
  destruct (store_fetched_frame env account server inventory_id ciphertext st)
    as (st1 & Heq & _).
  rewrite Heq in *. simpl in Hone.
  destruct (IH st1) as [Hcomplete Hrest]. split; [done|].
  by apply (fetch_effect_trans [inventory_id]) with st1.
Qed.

Lemma fetch_pages_effect (env : environment) (account : wallet_account_record)
    (server : string * Z) pages (st : client_impl) :
  fetch_effect (downloaded_pages pages) st (fetch_pages env account server pages st).2.
Proof.
  revert st. induction pages as [|[|results] pages IH]; intros st; simpl;
    [apply fetch_effect_refl..|].
  unfold mbind, M_bind.
  destruct (fetch_messages_effect env account server results st) as [Hcomplete Hpage].
  destruct (fetch_messages env account server results st) as [complete st1].
  simpl in *. subst complete.
  apply fetch_effect_trans with st1; [done|].
  destruct (results_complete results && _); [apply IH|apply fetch_effect_refl].
Qed.

Lemma fetch_tasks_effect (env : environment) (pass : fetch_pass) (last_check_time : Z)
    (servers : list (string * Z)) (st : client_impl) :
  fetch_effect (downloaded_servers pass last_check_time servers) st
    (fetch_tasks env pass last_check_time servers st).2.
Proof.
  revert st. induction servers as [|server servers IH]; intros st; simpl;
    [apply fetch_effect_refl|].
  unfold mbind, M_bind.
  assert (fetch_effect (downloaded_script (server_says pass server.1 last_check_time)) st
            (fetch_task env (account pass) server
               (server_says pass server.1 last_check_time) st).2) as Hone.
  { unfold fetch_task, downloaded_script.
    destruct (server_says _ _ _); [apply fetch_effect_refl|apply fetch_pages_effect]. }
  destruct (fetch_task_frame env (account pass) server
              (server_says pass server.1 last_check_time) st) as (joined & st1 & Heq & _).
  rewrite Heq in *. simpl in Hone.
  destruct (fetch_tasks_frame env pass last_check_time servers st1)
    as (rest & st2 & Heq2 & _).
  specialize (IH st1). rewrite Heq2 in *. simpl in *.
  by apply fetch_effect_trans with st1.
Qed.


(** A pass that runs to its end: its sub-tasks all returned, and the check
    time is stored after them. *)
Lemma check_account_returned (env : environment) (get_old_messages : bool)
    (pass : fetch_pass) (st st' : client_impl) :
  check_account env get_old_messages pass st = (returned (), st') →
  ∃ st1, fetch_tasks env pass (last_check_time_of get_old_messages pass (_property_db st))
           (get_mail_servers_for_recipient env (name (account pass))) st
         = (returned true, st1)
    ∧ st' = set_property_db
              (<[last_fetch_key (name (account pass)) := v_time (chain_now pass)]>
                 (_property_db st1))
              (_property_is_open st1) st1.
Proof.
  unfold check_account, last_check_time_of.
  set (key := last_fetch_key (name (account pass))).
  assert (∀ since,
            (joined ← fetch_tasks env pass since
                        (get_mail_servers_for_recipient env (name (account pass)));
             (if joined : bool then mret () else throw canceled_exception);;
             property_db.store key (v_time (chain_now pass))) st = (returned (), st') →
            ∃ st1, fetch_tasks env pass since
                     (get_mail_servers_for_recipient env (name (account pass))) st
                   = (returned true, st1)
              ∧ st' = set_property_db (<[key := v_time (chain_now pass)]> (_property_db st1))
                        (_property_is_open st1) st1) as Hrest.
  { intros since. unfold mbind, M_bind.
    destruct (fetch_tasks_frame env pass since
                (get_mail_servers_for_recipient env (name (account pass))) st)
      as ([] & st1 & -> & _); run; intros Heq; simplify_eq.
    by eexists. }
  destruct get_old_messages; run.
  - apply Hrest.
  - destruct (_property_db st !! key) as [[n|t]|]; simpl; [done|apply Hrest..].
Qed.

Lemma check_accounts_effect (env : environment) (get_old_messages : bool)
    (accounts : list fetch_pass) (st st' : client_impl) :
  check_accounts env get_old_messages accounts st = (returned (), st') →
  fetch_effect (run_downloads env get_old_messages accounts (_property_db st)) st st'
  ∧ new_mail_notifier st' = new_mail_notifier st.
Proof.
  revert st. induction accounts as [|pass accounts IH]; intros st Hrun; simpl in *.
  - unfold mret, M_ret in Hrun. simplify_eq. split; [apply fetch_effect_refl|done].
  - unfold mbind, M_bind in Hrun.
    destruct (check_account env get_old_messages pass st) as [[[]|e] st1] eqn:Hpass;
      [|done].
    apply check_account_returned in Hpass as (st0 & Htasks & ->).
    pose proof (fetch_tasks_effect env pass
                  (last_check_time_of get_old_messages pass (_property_db st))
                  (get_mail_servers_for_recipient env (name (account pass))) st) as Heffect.
    destruct (fetch_tasks_frame env pass
                (last_check_time_of get_old_messages pass (_property_db st))
                (get_mail_servers_for_recipient env (name (account pass))) st)
      as (joined & st0' & Heq & Hprops & _ & Hsignal).
    rewrite Htasks in Heq, Heffect. simplify_eq. simpl in Heffect.
    apply IH in Hrun as [Hrest Hsignal']. simpl in *. rewrite Hprops in Hrest.
    split; [|congruence].
    eapply fetch_effect_trans; [exact Heffect|]. exact Hrest.
Qed.

(** C9.  Two calls of [check_new_messages], the second right after the
    first, both returning.  When every inventory id that the second call
    downloads is one that the first call downloaded, the second call
    returns zero, emits no signal of new mail and leaves the inbox store as
    the first call left it. *)
Theorem second_check_finds_nothing_new (env : environment) (old1 old2 : bool)
    (accounts1 accounts2 : list fetch_pass) (st st1 st2 : client_impl) (n1 n2 : Z) :
  client_check_new_messages env old1 accounts1 st = (returned n1, st1) →
  client_check_new_messages env old2 accounts2 st1 = (returned n2, st2) →
  (∀ id, id ∈ run_downloads env old2 accounts2 (_property_db st1) →
         id ∈ run_downloads env old1 accounts1 (_property_db st)) →
  n2 = 0
  ∧ new_mail_notifier st2 = new_mail_notifier st1
  ∧ _inbox st2 = _inbox st1.
Proof.
  intros Hfirst Hsecond Hnothing.
  assert (∀ id, id ∈ run_downloads env old1 accounts1 (_property_db st) → seen st1 id)
    as Hseen.
  { intros id Hid.
    unfold client_check_new_messages, check_new_mail, assert_is_open, is_open in Hfirst.
    run. destruct (_property_is_open st); simpl in Hfirst; [|done].
    destruct (check_accounts env old1 accounts1 (set_messages_in 0 st))
      as [[[]|e] sta] eqn:Hrun; simpl in Hfirst; [|done].
    apply check_accounts_effect in Hrun as [(Hnew & _) _]. simpl in Hnew.
    specialize (Hnew id Hid).
    destruct (bool_decide _); simpl in Hfirst; simplify_eq; exact Hnew. }
  unfold client_check_new_messages, check_new_mail, assert_is_open, is_open in Hsecond.
  run. destruct (_property_is_open st1); simpl in Hsecond; [|done].
  destruct (check_accounts env old2 accounts2 (set_messages_in 0 st1))
    as [[[]|e] stb] eqn:Hrun; simpl in Hsecond; [|done].
  apply check_accounts_effect in Hrun as [(_ & _ & Hsame) Hsignal]. simpl in *.
  destruct Hsame as [Hinbox Hcount].
  { intros id Hid. by apply Hseen, Hnothing. }
  rewrite Hcount in Hsecond. simpl in Hsecond. simplify_eq. done.
Qed.

Lemma second_check_finds_nothing_new_witness :
  let first := client_check_new_messages sample.env false [sample.one_message]
                 sample.opened in
  let second := client_check_new_messages sample.env false [sample.one_message] first.2 in
  first.1 = returned 1
  ∧ second.1 = returned 0
  ∧ new_mail_notifier second.2 = new_mail_notifier first.2
  ∧ _inbox second.2 = _inbox first.2.
Proof.
  intros first second.
  assert (first = (returned 1, first.2)) as Hfirst by (vm_compute; reflexivity).
  assert (second = (returned 0, second.2)) as Hsecond by (vm_compute; reflexivity).
  destruct (second_check_finds_nothing_new sample.env false false
              [sample.one_message] [sample.one_message]
              sample.opened first.2 second.2 1 0 Hfirst Hsecond)
    as (_ & Hsignal & Hinbox).
  - vm_compute. intros id Hid. exact Hid.
  - split_and!; [by rewrite Hfirst|by rewrite Hsecond|exact Hsignal|exact Hinbox].
Defined.

(** * Further properties of the client *)

(** ** Directory resolver *)

Lemma server_insert_names (server : string * Z) (servers : list (string * Z)) :
  NoDup servers.*1 → NoDup (server_insert server servers).*1.
Proof.
  intros Hnd. unfold server_insert. case_decide; [done|].
  rewrite fmap_app. apply NoDup_app. split_and!; [done| |apply NoDup_singleton].
  intros x Hx Hx'%list_elem_of_singleton. simpl in Hx'. congruence.
Qed.

Lemma server_insert_inv (server entry : string * Z) (servers : list (string * Z)) :
  entry ∈ server_insert server servers → entry ∈ servers ∨ entry = server.
Proof.
  unfold server_insert. case_decide; [by left|].
  intros [?|?%list_elem_of_singleton]%elem_of_app; auto.
Qed.

Lemma resolve_endpoints_sound (env : environment) (names : list string)
    (servers : list (string * Z)) (entry : string * Z) :
  entry ∈ resolve_endpoints env names servers →
  entry ∈ servers
  ∨ (entry.1 ∈ names
     ∧ ∃ server_account, get_account_record env entry.1 = Some server_account
         ∧ public_mail_server_endpoint server_account = Some entry.2).
Proof.
  revert servers. induction names as [|server_name names IH]; intros servers Hentry;
    simpl in Hentry; [by left|].
  destruct (get_account_record env server_name) as [server_account|] eqn:Haccount.
  - destruct (public_mail_server_endpoint server_account) as [endpoint|] eqn:Hendpoint;
      [|by left].
    apply IH in Hentry as [Hentry|(Hin & Hok)].
    + apply server_insert_inv in Hentry as [Hentry| ->]; [by left|].
      right. simpl. split; [set_solver|eauto].
    + right. split; [set_solver|done].
  - apply IH in Hentry as [Hentry|(Hin & Hok)]; [by left|].
    right. split; [set_solver|done].
Qed.

Lemma resolve_endpoints_names (env : environment) (names : list string)
    (servers : list (string * Z)) :
  NoDup servers.*1 → NoDup (resolve_endpoints env names servers).*1.
Proof.
  revert servers. induction names as [|server_name names IH]; intros servers Hnd;
    simpl; [done|].
  destruct (get_account_record env server_name) as [server_account|]; [|by apply IH].
  destruct (public_mail_server_endpoint server_account); [|done].
  by apply IH, server_insert_names.
Qed.

(** The container of names has every inserted name once. *)
Lemma unordered_set_names (env : environment) (names : list string) :
  NoDup (unordered_set env names) ∧ ∀ name, name ∈ unordered_set env names ↔ name ∈ names.
Proof.
  unfold unordered_set. split.
  - rewrite merge_sort_Permutation. apply NoDup_remove_dups.
  - intros name. rewrite merge_sort_Permutation. apply elem_of_remove_dups.
Qed.

(** The servers resolved for a recipient have distinct names, and each of
    them is a name of the recipient's list (or of the defaults) that is
    registered on the chain with the endpoint that is returned. *)
Theorem get_mail_servers_for_recipient_sound (env : environment) (recipient : string) :
  NoDup (get_mail_servers_for_recipient env recipient).*1
  ∧ ∀ server_name endpoint,
      (server_name, endpoint) ∈ get_mail_servers_for_recipient env recipient →
      server_name ∈ get_mail_server_names_for_recipient env recipient
      ∧ ∃ server_account, get_account_record env server_name = Some server_account
          ∧ public_mail_server_endpoint server_account = Some endpoint.
Proof.
  unfold get_mail_servers_for_recipient. split.
  - apply resolve_endpoints_names. constructor.
  - intros server_name endpoint Hin.
    apply resolve_endpoints_sound in Hin as [Hin|Hin]; [set_solver|done].
Qed.

Lemma resolve_endpoints_app (env : environment) (before after : list string)
    (servers : list (string * Z)) :
  (∀ server_name server_account,
     server_name ∈ before → get_account_record env server_name = Some server_account →
     is_Some (public_mail_server_endpoint server_account)) →
  resolve_endpoints env (before ++ after)%list servers
  = resolve_endpoints env after (resolve_endpoints env before servers).
Proof.
  revert servers. induction before as [|server_name before IH]; intros servers Hok;
    simpl; [done|].
  destruct (get_account_record env server_name) as [server_account|] eqn:Haccount.
  - destruct (Hok server_name server_account) as [endpoint Hendpoint]; [set_solver|done|].
    rewrite Hendpoint. apply IH. intros ???. apply Hok. set_solver.
  - apply IH. intros ???. apply Hok. set_solver.
Qed.

(** The names are resolved in the order in which the container of names is
    visited, which is not the order in which they were listed.  A name that
    is not registered is skipped; a name that is registered but whose
    endpoint cannot be read ends the resolution: the names the container has
    behind it are dropped. *)
Theorem get_mail_servers_for_recipient_stops_at_unreadable_endpoint (env : environment)
    (recipient server_name : string) (before after : list string) :
  get_mail_server_names_for_recipient env recipient
  = (before ++ server_name :: after)%list →
  (∀ name server_account,
     name ∈ before → get_account_record env name = Some server_account →
     is_Some (public_mail_server_endpoint server_account)) →
  match get_account_record env server_name with
  | None =>
      get_mail_servers_for_recipient env recipient
      = resolve_endpoints env after (resolve_endpoints env before [])
  | Some server_account =>
      public_mail_server_endpoint server_account = None →
      get_mail_servers_for_recipient env recipient = resolve_endpoints env before []
  end.
Proof.
  intros Hnames Hbefore. unfold get_mail_servers_for_recipient. rewrite Hnames.
  rewrite resolve_endpoints_app by done. simpl.
  destruct (get_account_record env server_name) as [server_account|]; [|done].
  by intros ->.
Qed.

Lemma get_mail_servers_for_recipient_stops_at_unreadable_endpoint_witness :
  (public_mail_servers <$> get_account_record more_samples.env "erin")
  = Some (Some ["A"; "C"; "B"])
  ∧ get_mail_server_names_for_recipient more_samples.env "erin" = ["B"; "C"; "A"]
  ∧ get_mail_servers_for_recipient more_samples.env "erin" = [("B", 2)].
Proof.
  split; [reflexivity|]. split; [vm_compute; reflexivity|].
  apply (get_mail_servers_for_recipient_stops_at_unreadable_endpoint more_samples.env
           "erin" "C" ["B"] ["A"]).
  - vm_compute. reflexivity.
  - intros name server_account ->%list_elem_of_singleton [= <-]. by eexists.
  - reflexivity.
Defined.

(** ** Submission *)

(** What [process_outgoing_mail] leaves behind: the record under its id,
    failed when the recipient has no server, else with the target and its
    id at the back of the proof-of-work queue. *)
Lemma process_outgoing_mail_stores (env : environment) (mail : mail_record.t)
    (st : client_impl) :
  let servers := get_mail_servers_for_recipient env (mail_record.recipient mail) in
  let resolved := mail_record.set_mail_servers servers mail in
  ∃ st', process_outgoing_mail env mail st = (returned (), st')
    ∧ _archive st' = _archive st ∧ _inbox st' = _inbox st
    ∧ _mail_index st' = _mail_index st
    ∧ _transmit_message_jobs st' = _transmit_message_jobs st
    ∧ (∀ key, key ≠ mail_record.id mail → _processing_db st' !! key = _processing_db st !! key)
    ∧ if decide (servers = [])
      then _processing_db st' !! mail_record.id mail
           = Some (mail_record.set_failure_reason
                     "Could not find mail servers for this recipient."
                     (mail_record.set_status failed resolved))
           ∧ _proof_of_work_jobs st' = _proof_of_work_jobs st
      else _processing_db st' !! mail_record.id mail
           = Some (mail_record.set_proof_of_work_target
                     (BTS_MAIL_PROOF_OF_WORK_TARGET env) resolved)
           ∧ _proof_of_work_jobs st' = (_proof_of_work_jobs st ++ [mail_record.id mail])%list.
Proof.
  intros servers resolved. unfold process_outgoing_mail, get_proof_of_work_target.
  fold servers. fold resolved. run. rewrite lookup_insert_eq. simpl.
  destruct (decide (servers = [])) as [Hnone|Hsome]; simpl.
  - eexists. split; [reflexivity|]. simpl.
    split_and!; try done.
    + intros key Hkey. by rewrite !lookup_insert_ne.
    + apply lookup_insert_eq.
  - eexists. split; [reflexivity|]. simpl.
    split_and!; try done.
    + intros key Hkey. by rewrite !lookup_insert_ne.
    + apply lookup_insert_eq.
Qed.

(** [send_encrypted_message] refuses, changing nothing, when the client is
    not open or the message is not of type encrypted.  Otherwise it returns
    the digest of the ciphertext addressed to [recipient_key], and the
    processing store has the record under that id: failed when the
    recipient has no server, else submitted with the target, its id queued
    for proof of work. *)
Theorem send_encrypted_message_submits (env : environment) (ciphertext : message.t)
    (from to : string) (recipient_key : Z) (st : client_impl) :
  let addressed := message.mk (message.type ciphertext) recipient_key
                     (message.nonce ciphertext) (message.timestamp ciphertext)
                     (message.data ciphertext) in
  let servers := get_mail_servers_for_recipient env to in
  if _property_is_open st && bool_decide (message.type ciphertext = mail.encrypted)
  then ∃ st' stored,
      client_send_encrypted_message env ciphertext from to recipient_key st
      = (returned (digest env addressed), st')
      ∧ _processing_db st' !! digest env addressed = Some stored
      ∧ mail_record.id stored = digest env addressed
      ∧ mail_record.content stored = addressed
      ∧ mail_record.mail_servers stored = servers
      ∧ _archive st' = _archive st
      ∧ if decide (servers = [])
        then mail_record.status stored = failed
             ∧ mail_record.failure_reason stored
               = "Could not find mail servers for this recipient."
             ∧ _proof_of_work_jobs st' = _proof_of_work_jobs st
        else mail_record.status stored = submitted
             ∧ mail_record.proof_of_work_target stored = BTS_MAIL_PROOF_OF_WORK_TARGET env
             ∧ _proof_of_work_jobs st'
               = (_proof_of_work_jobs st ++ [digest env addressed])%list
  else ∃ e, client_send_encrypted_message env ciphertext from to recipient_key st
            = (thrown e, st).
Proof.
  intros addressed servers.
  unfold client_send_encrypted_message, assert_is_open, is_open. run.
  destruct (_property_is_open st); simpl; [|eauto].
  destruct (bool_decide (message.type ciphertext = mail.encrypted)); simpl; [|eauto].
  fold addressed.
  set (mail_rec := mail_record.mk (digest env addressed) submitted from to recipient_key
                     addressed [] 0 "").
  destruct (process_outgoing_mail_stores env mail_rec st)
    as (st' & -> & Harchive & _ & _ & _ & _ & Hstored). simpl in Hstored.
  fold servers in Hstored.
  destruct (decide (servers = [])) as [Hnone|Hsome]; destruct Hstored as [Hstored Hqueue];
    eexists _, _; (split; [reflexivity|]); rewrite Hstored; split_and!; done.
Qed.

Lemma send_encrypted_message_submits_witness :
  ∃ st' stored,
    client_send_encrypted_message sample.env sample.ciphertext "alice" "bob" 77 sample.opened
    = (returned 5, st')
    ∧ _processing_db st' !! 5 = Some stored
    ∧ mail_record.status stored = submitted
    ∧ _proof_of_work_jobs st' = [5].
Proof.
  pose proof (send_encrypted_message_submits sample.env sample.ciphertext "alice" "bob" 77
                sample.opened) as H.
  simpl in H. destruct H as (st' & stored & H1 & H2 & _ & _ & _ & _ & H7 & _ & H9).
  exists st', stored. split_and!; [exact H1|exact H2|exact H7|exact H9].
Defined.

(** [send_email] refuses, changing nothing, unless the wallet is open and
    unlocked, the client is open and the recipient is registered.
    Otherwise the id it returns, and files the record under, is the digest
    of the ciphertext as the wallet encrypted it; the content that is kept
    is that ciphertext readdressed to the recipient's owner key. *)
Theorem send_email_submits (env : environment) (wallet : sending_environment)
    (from to subject body : string) (reply_to : Z) (st : client_impl) :
  let written := mail_create wallet from subject body reply_to in
  let plaintext := message.mk (message.type written) (owner_key wallet to)
                     (message.nonce written) (message.timestamp written)
                     (message.data written) in
  let encrypted := mail_encrypt wallet (active_key wallet to) plaintext in
  if wallet_is_open wallet && wallet_is_unlocked wallet && _property_is_open st
     && bool_decide (is_Some (get_account_record env to))
  then ∃ st' stored,
      client_send_email env wallet from to subject body reply_to st
      = (returned (digest env encrypted), st')
      ∧ _processing_db st' !! digest env encrypted = Some stored
      ∧ mail_record.id stored = digest env encrypted
      ∧ mail_record.sender stored = from ∧ mail_record.recipient stored = to
      ∧ mail_record.recipient_key stored = owner_key wallet to
      ∧ mail_record.content stored
        = message.mk (message.type encrypted) (owner_key wallet to)
            (message.nonce encrypted) (message.timestamp encrypted)
            (message.data encrypted)
  else ∃ e, client_send_email env wallet from to subject body reply_to st = (thrown e, st).
Proof.
  intros written plaintext encrypted.
  unfold client_send_email, assert_is_open, is_open. run.
  destruct (wallet_is_open wallet); simpl; [|eauto].
  destruct (wallet_is_unlocked wallet); simpl; [|eauto].
  destruct (_property_is_open st); simpl; [|eauto].
  destruct (get_account_record env to) as [recipient|]; simpl; [|eauto].
  fold written. fold plaintext. fold encrypted.
  match goal with |- context [process_outgoing_mail env ?mail st] =>
    destruct (process_outgoing_mail_stores env mail st)
      as (st' & -> & _ & _ & _ & _ & _ & Hstored) end.
  simpl in *.
  destruct (decide _) in Hstored; destruct Hstored as [Hstored _];
    eexists _, _; (split; [reflexivity|]); rewrite Hstored; done.
Qed.

(** ** Proof of work *)

(** A record without a target is failed at the start of the job, with the
    reason for it, and is not handed to the transmitter. *)
Theorem proof_of_work_job_without_target (env : environment) (st : client_impl)
    (message_id : Z) (email : mail_record.t) (slices : list slice) :
  _processing_db st !! message_id = Some email →
  mail_record.status email ≠ canceled →
  mail_record.proof_of_work_target email = 0 →
  ∃ st', proof_of_work_job env message_id slices st = (returned job_done, st')
    ∧ _processing_db st' !! mail_record.id email
      = Some (mail_record.set_failure_reason
                "No proof of work target. Cannot do proof of work."
                (mail_record.set_status failed email))
    ∧ _transmit_message_jobs st' = _transmit_message_jobs st
    ∧ _archive st' = _archive st.
Proof.
  intros Hfetch Hstatus Htarget. unfold proof_of_work_job. run. rewrite Hfetch. simpl.
  rewrite (bool_decide_eq_false_2 (mail_record.proof_of_work_target email ≠ 0))
    by (intros H; by apply H).
  rewrite andb_false_r. simpl. eexists. split; [reflexivity|]. simpl.
  split_and!; [apply lookup_insert_eq|done..].
Qed.

Lemma proof_of_work_job_without_target_witness :
  ∃ st', proof_of_work_job sample.env 5 []
           (sample.with_processing
              (mail_record.mk 5 submitted "alice" "bob" 77 sample.ciphertext
                 [("A", 1)] 0 "") sample.opened)
         = (returned job_done, st')
    ∧ (mail_record.status <$> _processing_db st' !! 5) = Some failed
    ∧ _transmit_message_jobs st' = [].
Proof.
  destruct (proof_of_work_job_without_target sample.env
              (sample.with_processing
                 (mail_record.mk 5 submitted "alice" "bob" 77 sample.ciphertext
                    [("A", 1)] 0 "") sample.opened)
              5 (mail_record.mk 5 submitted "alice" "bob" 77 sample.ciphertext
                   [("A", 1)] 0 "") [])
    as (st' & H1 & H2 & H3 & _).
  - vm_compute. reflexivity.
  - discriminate.
  - reflexivity.
  - exists st'. split_and!; [exact H1| |exact H3]. simpl in H2. by rewrite H2.
Defined.

(** The run of the job on a record that is mined already. *)
Lemma already_mined_run (env : environment) (st : client_impl)
    (message_id : Z) (email : mail_record.t) (slices : list slice) :
  _processing_db st !! message_id = Some email →
  mail_record.id email = message_id →
  mail_record.status email ≠ canceled →
  mail_record.proof_of_work_target email ≠ 0 →
  digest env (mail_record.content email) ≤ mail_record.proof_of_work_target email →
  ∃ st', proof_of_work_job env message_id slices st = (returned job_done, st')
    ∧ _processing_db st'
      = <[message_id := mail_record.set_status proof_of_work email]> (_processing_db st)
    ∧ _transmit_message_jobs st' = (_transmit_message_jobs st ++ [message_id])%list
    ∧ _proof_of_work_jobs st' = _proof_of_work_jobs st
    ∧ _archive st' = _archive st.
Proof.
  intros Hfetch Hid Hstatus Htarget Hmined. unfold proof_of_work_job. run.
  rewrite Hfetch. simpl.
  rewrite !bool_decide_eq_true_2 by done. simpl. rewrite Hid.
  assert (∀ st0, _processing_db st0 !! message_id
                 = Some (mail_record.set_status proof_of_work email) →
            mining_loop env message_id slices (mail_record.set_status proof_of_work email) st0
            = (returned (Some (mail_record.set_status proof_of_work email)), st0)) as Hloop.
  { intros st0 Hst0. destruct slices; simpl; run; rewrite Hst0; simpl;
      rewrite (bool_decide_eq_false_2 (_ > _)) by lia; by rewrite ?andb_false_r. }
  rewrite Hloop by apply lookup_insert_eq. simpl.
  rewrite lookup_insert_eq. simpl. rewrite Hid.
  eexists. split; [reflexivity|]. simpl. split_and!; [|done..].
  by rewrite !insert_insert_eq.
Qed.


(** A record that is not canceled, has a target other than 0 and a digest
    within that target already (as after a crash between mining and
    transmission) is not mined again: whatever the slices, its content is
    left as it is, its status becomes proof_of_work and its id goes to the
    transmitter.  (A canceled record, or one without a target, is failed at
    the start of the job instead.) *)
Theorem proof_of_work_job_already_mined (env : environment) (st : client_impl)
    (message_id : Z) (email : mail_record.t) (slices : list slice) :
  _processing_db st !! message_id = Some email →
  mail_record.id email = message_id →
  mail_record.status email ≠ canceled →
  mail_record.proof_of_work_target email ≠ 0 →
  digest env (mail_record.content email) ≤ mail_record.proof_of_work_target email →
  ∃ st', proof_of_work_job env message_id slices st = (returned job_done, st')
    ∧ _processing_db st' !! message_id = Some (mail_record.set_status proof_of_work email)
    ∧ _transmit_message_jobs st' = (_transmit_message_jobs st ++ [message_id])%list
    ∧ _archive st' = _archive st.
Proof.
  intros Hfetch Hid Hstatus Htarget Hmined.
  destruct (already_mined_run env st message_id email slices)
    as (st' & Hjob & Hstored & Hqueue & _ & Harchive); [done..|].
  exists st'. split_and!; [done| |done|done]. rewrite Hstored. apply lookup_insert_eq.
Qed.

Lemma proof_of_work_job_already_mined_witness :
  ∃ st', proof_of_work_job sample.env 5 [mk_slice 20 3 false]
           (sample.with_processing (sample.outgoing "bob" proof_of_work) sample.opened)
         = (returned job_done, st')
    ∧ _processing_db st' !! 5 = Some (sample.outgoing "bob" proof_of_work)
    ∧ _transmit_message_jobs st' = [5].
Proof.
  destruct (proof_of_work_job_already_mined sample.env
              (sample.with_processing (sample.outgoing "bob" proof_of_work) sample.opened)
              5 (sample.outgoing "bob" proof_of_work) [mk_slice 20 3 false])
    as (st' & H1 & H2 & H3 & _).
  - vm_compute. reflexivity.
  - reflexivity.
  - discriminate.
  - discriminate.
  - vm_compute. discriminate.
  - exists st'. split_and!; [exact H1|exact H2|exact H3].
Defined.

Lemma mine_fields (env : environment) (burst : nat) (email : mail_record.t) :
  mail_record.id (mine env burst email) = mail_record.id email
  ∧ mail_record.status (mine env burst email) = mail_record.status email
  ∧ mail_record.proof_of_work_target (mine env burst email)
    = mail_record.proof_of_work_target email
  ∧ mail_record.mail_servers (mine env burst email) = mail_record.mail_servers email.
Proof.
  revert email. induction burst as [|burst IH]; intros email; simpl; [done|].
  case_bool_decide; [|done]. by destruct (IH (mail_record.set_content
    (message.incr_nonce (mail_record.content email)) email)) as (-> & -> & -> & ->).
Qed.

Lemma client_cancel_message_frame (message_id : Z) (st : client_impl) :
  _transmit_message_jobs (client_cancel_message message_id st).2 = _transmit_message_jobs st
  ∧ _archive (client_cancel_message message_id st).2 = _archive st.
Proof.
  unfold client_cancel_message. run. repeat case_match; simplify_eq; done.
Qed.

Lemma mining_loop_fields (env : environment) (message_id : Z) (slices : list slice)
    (email mined : mail_record.t) (st st' : client_impl) :
  mining_loop env message_id slices email st = (returned (Some mined), st') →
  mail_record.id mined = mail_record.id email
  ∧ mail_record.status mined = mail_record.status email
  ∧ mail_record.proof_of_work_target mined = mail_record.proof_of_work_target email
  ∧ _transmit_message_jobs st' = _transmit_message_jobs st
  ∧ _archive st' = _archive st.
Proof.
  revert email st. induction slices as [|s slices IH]; intros email st Hloop;
    simpl in Hloop; run;
    destruct (_processing_db st !! message_id) as [stored|] eqn:Hfetch; try done;
    simpl in Hloop;
    destruct (bool_decide (mail_record.status stored ≠ canceled)
              && bool_decide (digest env (mail_record.content email)
                              > mail_record.proof_of_work_target email));
    simpl in Hloop; simplify_eq; try done.
  set (stamped := mail_record.set_content
                    (message.set_timestamp (now s) (mail_record.content email)) email)
    in Hloop.
  destruct (mine_fields env (burst s) stamped) as (Hid & Hstatus & Htarget & _).
  destruct (cancel_requested s); simpl in Hloop.
  - match type of Hloop with context [client_cancel_message message_id ?s0] =>
      pose proof (client_cancel_message_frame message_id s0) as [Hqueue Harchive];
      destruct (client_cancel_message message_id s0) as [[[]|e] st1] end;
      simpl in *; apply IH in Hloop as (-> & -> & -> & -> & ->);
      rewrite Hid, Hstatus, Htarget, Hqueue, Harchive; done.
  - apply IH in Hloop as (-> & -> & -> & -> & ->).
    rewrite Hid, Hstatus, Htarget. done.
Qed.

(** Whenever the proof-of-work job of a record ends, the record is either
    failed and not handed on, or it is in status proof_of_work with a digest
    within its target and its id has been put at the back of the
    transmitter's queue. *)
Theorem proof_of_work_job_hands_over_mined (env : environment) (st st' : client_impl)
    (message_id : Z) (email : mail_record.t) (slices : list slice) :
  _processing_db st !! message_id = Some email →
  mail_record.id email = message_id →
  proof_of_work_job env message_id slices st = (returned job_done, st') →
  ∃ stored, _processing_db st' !! message_id = Some stored
    ∧ _archive st' = _archive st
    ∧ ((mail_record.status stored = failed
        ∧ mail_record.failure_reason stored ≠ ""
        ∧ _transmit_message_jobs st' = _transmit_message_jobs st)
       ∨ (mail_record.status stored = proof_of_work
          ∧ digest env (mail_record.content stored)
            ≤ mail_record.proof_of_work_target stored
          ∧ _transmit_message_jobs st'
            = (_transmit_message_jobs st ++ [message_id])%list)).
Proof.
  intros Hfetch <- Hjob. unfold proof_of_work_job in Hjob. run.
  rewrite Hfetch in Hjob. simpl in Hjob.
  destruct (bool_decide (mail_record.status email ≠ canceled)
            && bool_decide (mail_record.proof_of_work_target email ≠ 0));
    simpl in Hjob.
  - match type of Hjob with context [mining_loop env ?k slices ?e ?s0] =>
      destruct (mining_loop env k slices e s0) as [[[mined|]|e0] st1] eqn:Hloop
    end; simpl in Hjob; try done.
    pose proof (mining_loop_fields _ _ _ _ _ _ _ Hloop)
      as (Hmid & Hmstatus & Hmtarget & Hqueue & Harchive).
    simpl in *.
    destruct (_processing_db st1 !! mail_record.id email) as [stored|] eqn:Hstored;
      simpl in Hjob; [|done].
    destruct (decide (mail_record.status stored = canceled)) as [Hc|Hc];
      simpl in Hjob; simplify_eq.
    + eexists. simpl. split; [apply lookup_insert_eq|]. split; [done|]. left. done.
    + rewrite Hmid. eexists. simpl. split; [apply lookup_insert_eq|].
      split; [done|]. right. split_and!; [done| |by rewrite Hqueue].
      eapply mining_loop_mined; [exact Hloop|]. intros ? ?. by simplify_eq.
  - simplify_eq. eexists. simpl. split; [apply lookup_insert_eq|]. split; [done|].
    left. split_and!; [done| |done]. simpl. try case_decide; done.
Qed.

Lemma proof_of_work_job_hands_over_mined_witness :
  let st := sample.with_processing
              (mail_record.mk 15 submitted "alice" "bob" 77
                 (message.mk mail.encrypted 77 0 15 "ct") [("A", 1)] 10 "") sample.opened in
  ∃ stored, _processing_db (proof_of_work_job sample.env 15 [mk_slice 20 100 false] st).2 !! 15
            = Some stored
    ∧ digest sample.env (mail_record.content stored) ≤ 10
    ∧ _transmit_message_jobs (proof_of_work_job sample.env 15 [mk_slice 20 100 false] st).2
      = [15].
Proof.
  intros st.
  destruct (proof_of_work_job_hands_over_mined sample.env st
              (proof_of_work_job sample.env 15 [mk_slice 20 100 false] st).2 15
              (mail_record.mk 15 submitted "alice" "bob" 77
                 (message.mk mail.encrypted 77 0 15 "ct") [("A", 1)] 10 "")
              [mk_slice 20 100 false])
    as (stored & H1 & _ & [(H2 & _)|(_ & H3 & H4)]).
  - vm_compute. reflexivity.
  - reflexivity.
  - vm_compute. reflexivity.
  - exfalso. revert H2. assert (stored = mail_record.mk 15 proof_of_work "alice" "bob" 77
      (message.mk mail.encrypted 77 5 20 "ct") [("A", 1)] 10 "") as ->; [|discriminate].
    revert H1. vm_compute. by intros [= <-].
  - exists stored. split_and!; [exact H1| |exact H4].
    revert H1 H3. vm_compute. by intros [= <-].
Defined.

(** ** Transmission *)

(** A record without servers is failed by the transmit job, whatever the
    events, and nothing reaches the archive or the index. *)
Theorem transmit_message_job_without_servers (env : environment) (st : client_impl)
    (message_id : Z) (email : mail_record.t) (events : list transmit_event) :
  _processing_db st !! message_id = Some email →
  mail_record.mail_servers email = [] →
  ∃ st', transmit_message_job env message_id events st = (returned job_done, st')
    ∧ _processing_db st' !! message_id
      = Some (mail_record.set_failure_reason
                "No mail servers found when trying to transmit message."
                (mail_record.set_status failed email))
    ∧ _archive st' = _archive st
    ∧ _mail_index st' = _mail_index st.
Proof.
  intros Hfetch Hservers. unfold transmit_message_job. run. rewrite Hfetch. simpl.
  rewrite decide_True by done. simpl. eexists. split; [reflexivity|]. simpl.
  split_and!; [apply lookup_insert_eq|done..].
Qed.

Lemma transmit_message_job_without_servers_witness :
  let email := mail_record.mk 5 proof_of_work "alice" "dave" 77 sample.ciphertext [] 10 "" in
  ∃ st', transmit_message_job sample.env 5 [] (sample.with_processing email sample.opened)
         = (returned job_done, st')
    ∧ (mail_record.status <$> _processing_db st' !! 5) = Some failed.
Proof.
  intros email.
  destruct (transmit_message_job_without_servers sample.env
              (sample.with_processing email sample.opened) 5 email [])
    as (st' & H1 & H2 & _).
  - vm_compute. reflexivity.
  - reflexivity.
  - exists st'. split; [exact H1|]. by rewrite H2.
Defined.

(** A server that answers that it has the message already counts as a
    success: with that one answer the record is finalized, content
    untouched, with that server as the only one. *)
Theorem transmit_message_job_already_stored (env : environment) (st : client_impl)
    (message_id : Z) (email : mail_record.t) (a : string) (ea : Z) :
  _processing_db st !! message_id = Some email →
  mail_record.mail_servers email = [(a, ea)] →
  ∃ st' archived,
    transmit_message_job env message_id
      [task_started a; task_replied a (error_reply (message_already_stored_what env))] st
    = (returned job_done, st')
    ∧ _archive st' !! digest env (mail_record.content email) = Some archived
    ∧ mail_archive_record.status archived = accepted
    ∧ mail_archive_record.content archived = mail_record.content email
    ∧ mail_archive_record.mail_servers archived = [(a, ea)]
    ∧ _processing_db st' !! message_id = None.
Proof.
  intros Hfetch Hservers.
  unfold transmit_message_job. run. rewrite Hfetch. simpl.
  rewrite Hservers. simpl. run_with Hfetch.
  eexists. eexists. split; [reflexivity|]. simpl.
  split_and!; [apply lookup_insert_eq|reflexivity|reflexivity| |apply lookup_delete_eq].
  simpl. unfold server_insert. by rewrite decide_False by set_solver.
Qed.

Lemma transmit_message_job_already_stored_witness :
  let email := mail_record.mk 5 proof_of_work "alice" "carol" 77 sample.ciphertext
                 [("A", 1)] 10 "" in
  ∃ st' archived,
    transmit_message_job sample.env 5
      [task_started "A"; task_replied "A" (error_reply "message_already_stored")]
      (sample.with_processing email sample.opened)
    = (returned job_done, st')
    ∧ _archive st' !! 5 = Some archived
    ∧ mail_archive_record.status archived = accepted.
Proof.
  intros email.
  destruct (transmit_message_job_already_stored sample.env
              (sample.with_processing email sample.opened) 5 email "A" 1)
    as (st' & archived & H1 & H2 & H3 & _).
  - vm_compute. reflexivity.
  - reflexivity.
  - exists st', archived. split_and!; [exact H1|exact H2|exact H3].
Defined.

(** The outcome of a transmission depends on the order of the replies.
    With two servers, of which [a] cannot be reached and [b] stores the
    message: when [b]'s reply is handled first the record is finalized with
    [b] as its server; when [a]'s failure is handled first the record is
    marked failed, [b]'s success does not undo it, and the job gives up:
    nothing is archived and the record stays in processing as failed. *)
Theorem transmit_message_job_depends_on_order (env : environment) (st : client_impl)
    (message_id : Z) (email : mail_record.t) (a b : string) (ea eb : Z) (what : string) :
  _processing_db st !! message_id = Some email →
  mail_record.mail_servers email = [(a, ea); (b, eb)] →
  a ≠ b →
  let stored_b := task_replied b (stored_reply (digest env (mail_record.content email))) in
  let failed_a := task_replied a (connect_failure what) in
  (∃ st' archived,
     transmit_message_job env message_id
       [task_started a; task_started b; stored_b; failed_a] st
     = (returned job_done, st')
     ∧ _archive st' !! digest env (mail_record.content email) = Some archived
     ∧ mail_archive_record.status archived = accepted
     ∧ mail_archive_record.mail_servers archived = [(b, eb)]
     ∧ _processing_db st' !! message_id = None)
  ∧ (∃ st', transmit_message_job env message_id
              [task_started a; task_started b; failed_a; stored_b] st
            = (returned job_done, st')
       ∧ _archive st' = _archive st
       ∧ _processing_db st' !! message_id
         = Some (mail_record.set_status failed
                   (mail_record.set_failure_reason what
                      (mail_record.set_status transmitting email)))).
Proof.
  intros Hfetch Hservers Hab stored_b failed_a. subst stored_b failed_a.
  assert (b ≠ a) as Hba by congruence.
  split.
  - unfold transmit_message_job. run. rewrite Hfetch. simpl.
    rewrite Hservers. simpl. run_with Hfetch.
    eexists. eexists. split; [reflexivity|]. simpl.
    split_and!; [apply lookup_insert_eq|reflexivity| |apply lookup_delete_eq].
    simpl. unfold server_insert. by rewrite decide_False by set_solver.
  - unfold transmit_message_job. run. rewrite Hfetch. simpl.
    rewrite Hservers. simpl. run_with Hfetch.
    eexists. split; [reflexivity|]. simpl. split; [done|apply lookup_insert_eq].
Qed.

Lemma transmit_message_job_depends_on_order_witness :
  let st := sample.with_processing (sample.outgoing "bob" proof_of_work) sample.opened in
  (∃ st', transmit_message_job sample.env 5
            [task_started "A"; task_started "B"; task_replied "B" (stored_reply 5);
             task_replied "A" (connect_failure "refused")] st
          = (returned job_done, st')
     ∧ _processing_db st' !! 5 = None)
  ∧ (∃ st', transmit_message_job sample.env 5
              [task_started "A"; task_started "B";
               task_replied "A" (connect_failure "refused");
               task_replied "B" (stored_reply 5)] st
            = (returned job_done, st')
       ∧ (mail_record.status <$> _processing_db st' !! 5) = Some failed).
Proof.
  intros st.
  destruct (transmit_message_job_depends_on_order sample.env st 5
              (sample.outgoing "bob" proof_of_work) "A" "B" 1 2 "refused")
    as [(st1 & archived & H1 & _ & _ & _ & H5) (st2 & H6 & _ & H8)].
  - vm_compute. reflexivity.
  - reflexivity.
  - discriminate.
  - split.
    + exists st1. split; [exact H1|exact H5].
    + exists st2. split; [exact H6|]. by rewrite H8.
Defined.

(** ** The facade *)

(** [retry_message] refuses, changing nothing, unless the client is open
    and the processing store has the record in status failed.  Then it
    starts the record over: the servers are resolved again, and the record
    is stored submitted with the target and queued for proof of work, or
    failed again when no server resolves.  The old failure reason stays in
    a record that is resubmitted. *)
Theorem retry_message_resubmits (env : environment) (message_id : Z) (st : client_impl) :
  match _processing_db st !! message_id with
  | Some email =>
      if _property_is_open st && bool_decide (mail_record.status email = failed)
      then
        let servers := get_mail_servers_for_recipient env (mail_record.recipient email) in
        let again := mail_record.set_mail_servers servers
                       (mail_record.set_status submitted email) in
        ∃ st', client_retry_message env message_id st = (returned (), st')
          ∧ _archive st' = _archive st
          ∧ if decide (servers = [])
            then _processing_db st' !! mail_record.id email
                 = Some (mail_record.set_failure_reason
                           "Could not find mail servers for this recipient."
                           (mail_record.set_status failed again))
                 ∧ _proof_of_work_jobs st' = _proof_of_work_jobs st
            else _processing_db st' !! mail_record.id email
                 = Some (mail_record.set_proof_of_work_target
                           (BTS_MAIL_PROOF_OF_WORK_TARGET env) again)
                 ∧ mail_record.failure_reason again = mail_record.failure_reason email
                 ∧ _proof_of_work_jobs st'
                   = (_proof_of_work_jobs st ++ [mail_record.id email])%list
      else ∃ e, client_retry_message env message_id st = (thrown e, st)
  | None => ∃ e, client_retry_message env message_id st = (thrown e, st)
  end.
Proof.
  unfold client_retry_message, assert_is_open, is_open. run.
  destruct (_processing_db st !! message_id) as [email|] eqn:Hfetch;
    destruct (_property_is_open st); simpl; rewrite ?Hfetch; simpl; eauto.
  destruct (bool_decide (mail_record.status email = failed)); simpl; [|eauto].
  unfold retry_message. simpl.
  destruct (process_outgoing_mail_stores env (mail_record.set_status submitted email) st)
    as (st' & -> & Harchive & _ & _ & _ & _ & Hstored). simpl in Hstored.
  exists st'. split; [done|]. split; [done|].
  destruct (decide _); destruct Hstored as [Hstored Hqueue]; split_and!; done.
Qed.

(** [remove_message] removes a failed record from the processing store and
    refuses to remove a record in any other status; an id that is not in
    processing is removed from the archive if it is there.  The inbox and
    the index are never touched: a message removed from the archive keeps
    its inbox entry and its index row. *)
Theorem remove_message_cases (message_id : Z) (st : client_impl) :
  _property_is_open st = true →
  match _processing_db st !! message_id with
  | Some value =>
      if decide (mail_record.status value = failed)
      then ∃ st', client_remove_message message_id st = (returned (), st')
             ∧ _processing_db st' = delete message_id (_processing_db st)
             ∧ _processing_disk st' = delete message_id (_processing_disk st)
             ∧ _archive st' = _archive st
             ∧ _inbox st' = _inbox st ∧ _mail_index st' = _mail_index st
      else ∃ e, client_remove_message message_id st = (thrown e, st)
  | None =>
      ∃ st', client_remove_message message_id st = (returned (), st')
        ∧ _processing_db st' = _processing_db st
        ∧ _archive st' = delete message_id (_archive st)
        ∧ _inbox st' = _inbox st ∧ _mail_index st' = _mail_index st
  end.
Proof.
  intros Hopen. unfold client_remove_message, assert_is_open, is_open. run.
  rewrite Hopen. simpl.
  destruct (_processing_db st !! message_id) as [value|] eqn:Hfetch; simpl.
  - case_decide as Hs.
    + rewrite bool_decide_eq_true_2 by done. simpl. eexists. split; [reflexivity|]. done.
    + rewrite bool_decide_eq_false_2 by done. simpl. eauto.
  - destruct (_archive st !! message_id) as [archived|] eqn:Harchive; simpl;
      eexists; (split; [reflexivity|]); simpl; split_and!; try done.
    symmetry. by apply delete_id.
Qed.

Lemma remove_message_cases_witness :
  ∃ st', client_remove_message 8 more_samples.with_mail = (returned (), st')
    ∧ _archive st' !! 8 = None
    ∧ is_Some (_inbox st' !! 8)
    ∧ _mail_index st' = [mail_index_record.mk 8 "alice" "bob" 150].
Proof.
  pose proof (remove_message_cases 8 more_samples.with_mail eq_refl) as H.
  assert (_processing_db more_samples.with_mail !! 8 = None) as Hnone
    by (vm_compute; reflexivity).
  rewrite Hnone in H. destruct H as (st' & H1 & _ & H3 & H4 & H5).
  exists st'. split_and!; [exact H1| | |].
  - rewrite H3. apply lookup_delete_eq.
  - rewrite H4. vm_compute. eauto.
  - rewrite H5. vm_compute. reflexivity.
Defined.

(** [archive_message] takes the message out of the inbox and leaves the
    archive, the index and the processing store as they are; on an id that
    is not in the inbox, and so also when it is repeated, it changes
    nothing. *)
Theorem archive_message_only_inbox (message_id : Z) (st : client_impl) :
  _property_is_open st = true →
  ∃ st', client_archive_message message_id st = (returned (), st')
    ∧ _inbox st' = delete message_id (_inbox st)
    ∧ _archive st' = _archive st ∧ _mail_index st' = _mail_index st
    ∧ _processing_db st' = _processing_db st
    ∧ (_inbox st !! message_id = None → st' = st)
    ∧ client_archive_message message_id st' = (returned (), st').
Proof.
  intros Hopen. unfold client_archive_message, archive_message, assert_is_open, is_open.
  run. rewrite Hopen. simpl.
  destruct (_inbox st !! message_id) as [value|] eqn:Hfetch; simpl.
  - eexists. split; [reflexivity|]. simpl. rewrite Hopen. simpl.
    rewrite lookup_delete_eq. simpl. done.
  - exists st. rewrite Hopen, Hfetch. simpl. split_and!; try done.
    symmetry. by apply delete_id.
Qed.

Lemma archive_message_only_inbox_witness :
  ∃ st', client_archive_message 8 more_samples.with_mail = (returned (), st')
    ∧ _inbox st' !! 8 = None
    ∧ is_Some (_archive st' !! 8).
Proof.
  destruct (archive_message_only_inbox 8 more_samples.with_mail eq_refl)
    as (st' & H1 & H2 & H3 & _).
  exists st'. split_and!; [exact H1| |].
  - rewrite H2. apply lookup_delete_eq.
  - rewrite H3. vm_compute. eauto.
Defined.

(** [get_message] looks in the processing store first and in the archive
    only for an id that processing does not have; an id in neither is an
    error.  It changes nothing.  The failure reason it reports is that of a
    failed processing record and empty in every other case. *)
Theorem get_message_lookup (env : environment) (message_id : Z) (st : client_impl) :
  match _processing_db st !! message_id, _archive st !! message_id with
  | Some email, _ =>
      get_message env message_id st = (returned (decrypted_mail_record env email), st)
      ∧ failure_reason (decrypted_mail_record env email)
        = (if decide (mail_record.status email = failed)
           then mail_record.failure_reason email else "")
      ∧ mail_servers (decrypted_mail_record env email) = mail_record.mail_servers email
      ∧ email_header.id (header (decrypted_mail_record env email)) = mail_record.id email
  | None, Some email =>
      get_message env message_id st = (returned (decrypted_archive_record env email), st)
      ∧ failure_reason (decrypted_archive_record env email) = ""
      ∧ email_header.id (header (decrypted_archive_record env email))
        = mail_archive_record.id email
  | None, None =>
      get_message env message_id st
      = (thrown (assert_exception "Message ${id} not found."), st)
  end.
Proof.
  unfold get_message. run.
  destruct (_processing_db st !! message_id) as [email|]; simpl.
  - destruct (_archive st !! message_id); (split; [done|]);
      unfold decrypted_mail_record; case_decide; simpl; done.
  - destruct (_archive st !! message_id) as [email|]; simpl; [|done].
    split; [done|]. unfold decrypted_archive_record; case_decide; simpl; done.
Qed.

(** ** Listings *)

Lemma insert_ordered_perm {A} (less : A → A → bool) (x : A) (l : list A) :
  insert_ordered less x l ≡ₚ x :: l.
Proof.
  induction l as [|y l IH]; simpl; [done|].
  destruct (less x y); [done|]. rewrite IH. apply Permutation_swap.
Qed.

Lemma ordered_perm {A} (less : A → A → bool) (l : list A) : ordered less l ≡ₚ l.
Proof.
  unfold ordered.
  assert (∀ view, foldl (λ view x, insert_ordered less x view) view l ≡ₚ view ++ l) as H.
  { induction l as [|x l IH]; intros view; simpl; [by rewrite app_nil_r|].
    rewrite IH, insert_ordered_perm. simpl. apply Permutation_middle. }
  apply (H []).
Qed.

Lemma filter_none {A} (P : A → Prop) `{∀ x, Decision (P x)} (l : list A) :
  Forall (λ x, ¬ P x) l → filter P l = [].
Proof.
  induction 1 as [|x l Hx Hl IH]; [done|]. by rewrite filter_cons_False.
Qed.

Section ordered_by_key.
Context {A : Type} (key : A → Z) (less : A → A → bool).
Hypothesis less_key : ∀ x y, less x y = bool_decide (key x < key y).

Lemma insert_ordered_sorted (x : A) (l : list A) :
  StronglySorted (λ a b, key a ≤ key b) l →
  StronglySorted (λ a b, key a ≤ key b) (insert_ordered less x l).
Proof.
  induction 1 as [|y l Hl IH Hy]; simpl; [repeat constructor|].
  rewrite less_key. case_bool_decide as Hxy.
  - constructor; [by constructor|].
    constructor; [lia|]. eapply Forall_impl; [exact Hy|]. simpl. intros; lia.
  - constructor; [done|]. rewrite insert_ordered_perm. constructor; [lia|done].
Qed.

Lemma ordered_sorted (l : list A) : StronglySorted (λ a b, key a ≤ key b) (ordered less l).
Proof.
  unfold ordered.
  assert (∀ view, StronglySorted (λ a b, key a ≤ key b) view →
            StronglySorted (λ a b, key a ≤ key b)
              (foldl (λ view x, insert_ordered less x view) view l)) as H.
  { induction l as [|x l IH]; intros view Hview; simpl; [done|].
    by apply IH, insert_ordered_sorted. }
  apply H. constructor.
Qed.

Lemma insert_ordered_stable (k : Z) (x : A) (l : list A) :
  StronglySorted (λ a b, key a ≤ key b) l →
  filter (λ e, key e = k) (insert_ordered less x l)
  = (filter (λ e, key e = k) l ++ filter (λ e, key e = k) [x])%list.
Proof.
  induction 1 as [|y l Hl IH Hy]; simpl; [done|].
  rewrite less_key. case_bool_decide as Hxy.
  - destruct (decide (key x = k)) as [Hk|Hk].
    + assert (filter (λ e, key e = k) (y :: l) = []) as Hnone.
      { apply filter_none. constructor; [lia|].
        eapply Forall_impl; [exact Hy|]. simpl. intros; lia. }
      rewrite (filter_cons_True _ x (y :: l)) by done. rewrite Hnone.
      by rewrite (filter_cons_True _ x []) by done.
    + rewrite (filter_cons_False _ x (y :: l)) by done.
      rewrite (filter_cons_False _ x []) by done. by rewrite app_nil_r.
  - rewrite !(filter_cons _ y), IH. by case_decide.
Qed.

Lemma ordered_stable (k : Z) (l : list A) :
  filter (λ e, key e = k) (ordered less l) = filter (λ e, key e = k) l.
Proof.
  unfold ordered.
  assert (∀ view, StronglySorted (λ a b, key a ≤ key b) view →
            filter (λ e, key e = k) (foldl (λ view x, insert_ordered less x view) view l)
            = (filter (λ e, key e = k) view ++ filter (λ e, key e = k) l)%list) as H.
  { induction l as [|x l IH]; intros view Hview; simpl; [by rewrite app_nil_r|].
    rewrite IH by by apply insert_ordered_sorted.
    rewrite insert_ordered_stable by done. rewrite <- app_assoc. f_equal.
    by rewrite <- filter_app. }
  rewrite H by constructor. done.
Qed.

End ordered_by_key.

Lemma database_messages_listing (entries : list (mail_status * Z)) :
  database_messages entries ≡ₚ entries
  ∧ StronglySorted (λ a b, status_rank a.1 ≤ status_rank b.1) (database_messages entries)
  ∧ ∀ rank, filter (λ e, status_rank e.1 = rank) (database_messages entries)
            = filter (λ e, status_rank e.1 = rank) entries.
Proof.
  unfold database_messages. split_and!.
  - apply ordered_perm.
  - by apply (ordered_sorted (λ e, status_rank e.1)).
  - intros rank. by apply (ordered_stable (λ e, status_rank e.1)).
Qed.

(** [get_processing_messages] and [get_archive_messages] refuse on a client
    that is not open and change nothing.  On an open client they list the
    status and the id of every row once, by ascending status, and the rows
    of one status in the order of their keys. *)
Theorem get_database_messages_listing (st : client_impl) :
  let processing := (λ row : Z * mail_record.t,
                       (mail_record.status row.2, mail_record.id row.2))
                      <$> cursor (_processing_db st) in
  let archived := (λ row : Z * mail_archive_record.t,
                     (mail_archive_record.status row.2, mail_archive_record.id row.2))
                    <$> cursor (_archive st) in
  if _property_is_open st
  then (∃ messages, client_get_processing_messages st = (returned messages, st)
          ∧ messages ≡ₚ processing
          ∧ StronglySorted (λ a b, status_rank a.1 ≤ status_rank b.1) messages
          ∧ ∀ rank, filter (λ e, status_rank e.1 = rank) messages
                    = filter (λ e, status_rank e.1 = rank) processing)
       ∧ (∃ messages, client_get_archive_messages st = (returned messages, st)
            ∧ messages ≡ₚ archived
            ∧ StronglySorted (λ a b, status_rank a.1 ≤ status_rank b.1) messages
            ∧ ∀ rank, filter (λ e, status_rank e.1 = rank) messages
                      = filter (λ e, status_rank e.1 = rank) archived)
  else (∃ e, client_get_processing_messages st = (thrown e, st))
       ∧ (∃ e, client_get_archive_messages st = (thrown e, st)).
Proof.
  intros processing archived.
  unfold client_get_processing_messages, client_get_archive_messages, assert_is_open,
    is_open. run.
  destruct (_property_is_open st); simpl; [|eauto].
  split; eexists; (split; [reflexivity|]); apply database_messages_listing.
Qed.

(** ** Index queries *)

Lemma headers_of_resolved (env : environment) (range : list mail_index_record.t)
    (st : client_impl) :
  (∀ row, row ∈ range →
     _processing_db st !! mail_index_record.id row = None
     ∧ _archive st !! mail_index_record.id row = None → False) →
  ∃ results, headers_of env range st = (returned results, st)
    ∧ Forall2 (λ row h, ∃ email, get_message env (mail_index_record.id row) st
                                 = (returned email, st) ∧ h = header email)
              range results.
Proof.
  induction range as [|row range IH]; intros Hrows; simpl.
  - eexists. split; [reflexivity|constructor].
  - destruct IH as (results & Hrest & Hall); [intros ???; eapply Hrows; set_solver|].
    unfold mbind, M_bind.
    assert (∃ email, get_message env (mail_index_record.id row) st = (returned email, st))
      as [email Hemail].
    { unfold get_message. run.
      destruct (_processing_db st !! mail_index_record.id row) eqn:Hp; simpl; [eauto|].
      destruct (_archive st !! mail_index_record.id row) eqn:Ha; simpl; [eauto|].
      exfalso. apply (Hrows row); [set_solver|done]. }
    rewrite Hemail, Hrest. simpl. eexists. split; [reflexivity|].
    constructor; [eauto|done].
Qed.

Lemma headers_of_dangling (env : environment) (range : list mail_index_record.t)
    (st : client_impl) :
  (∃ row, row ∈ range
     ∧ _processing_db st !! mail_index_record.id row = None
     ∧ _archive st !! mail_index_record.id row = None) →
  headers_of env range st = (thrown (assert_exception "Message ${id} not found."), st).
Proof.
  induction range as [|row range IH]; intros (row' & Hin & Hp & Ha); [set_solver|].
  simpl. unfold mbind, M_bind.
  destruct (get_message env (mail_index_record.id row) st) as [[email|e] st0] eqn:Hget.
  - assert (st0 = st) as ->.
    { revert Hget. unfold get_message. run. repeat case_match; naive_solver. }
    apply elem_of_cons in Hin as [->|Hin].
    + revert Hget. unfold get_message. run. by rewrite Hp, Ha.
    + rewrite IH by eauto. done.
  - revert Hget. unfold get_message. run. repeat case_match; naive_solver.
Qed.

Lemma query_answers_range (env : environment) (st : client_impl)
    (P : mail_index_record.t → Prop) `{∀ row, Decision (P row)}
    (less : mail_index_record.t → mail_index_record.t → bool) :
  query_answers env st (headers_of env (filter P (ordered less (_mail_index st))) st)
    (filter P (_mail_index st)).
Proof.
  exists (filter P (ordered less (_mail_index st))).
  assert (filter P (ordered less (_mail_index st)) ≡ₚ filter P (_mail_index st)) as Hperm
    by (by rewrite ordered_perm).
  split; [done|]. split.
  - intros Hrows. apply headers_of_resolved. intros row Hrow. apply Hrows.
    by rewrite <- Hperm.
  - intros (row & Hrow & Hp & Ha). apply headers_of_dangling.
    exists row. by rewrite Hperm.
Qed.

(** The three index queries refuse on a client that is not open.  While the
    archive is being indexed they answer with the empty list, whatever the
    index holds.  Otherwise they answer on the rows of the index with the
    sender, the recipient, or both: one header per row, read from the
    stores by the row's id, or an error when a row's id is in neither store.
    They change nothing. *)
Theorem index_queries_answers (env : environment) (st : client_impl)
    (sender recipient : string) :
  if _property_is_open st
  then match _archive_indexing_future st with
       | future_running =>
           client_get_messages_by_sender env sender st = (returned [], st)
           ∧ client_get_messages_by_recipient env recipient st = (returned [], st)
           ∧ client_get_messages_from_to env sender recipient st = (returned [], st)
       | _ =>
           query_answers env st (client_get_messages_by_sender env sender st)
             (filter (λ row, mail_index_record.sender row = sender) (_mail_index st))
           ∧ query_answers env st (client_get_messages_by_recipient env recipient st)
               (filter (λ row, mail_index_record.recipient row = recipient)
                       (_mail_index st))
           ∧ query_answers env st (client_get_messages_from_to env sender recipient st)
               (filter (λ row, mail_index_record.sender row = sender
                               ∧ mail_index_record.recipient row = recipient)
                       (_mail_index st))
       end
  else (∃ e, client_get_messages_by_sender env sender st = (thrown e, st))
       ∧ (∃ e, client_get_messages_by_recipient env recipient st = (thrown e, st))
       ∧ (∃ e, client_get_messages_from_to env sender recipient st = (thrown e, st)).
Proof.
  unfold client_get_messages_by_sender, client_get_messages_by_recipient,
    client_get_messages_from_to, get_messages_by_sender, get_messages_by_recipient,
    get_messages_from_to, indexing_in_progress, assert_is_open, is_open. run.
  destruct (_property_is_open st); simpl; [|split_and!; eauto].
  destruct (_archive_indexing_future st); simpl;
    split_and!; first [reflexivity | apply query_answers_range].
Qed.

(** A message that was removed from the archive keeps its index row.  From
    then on a query on its sender is answered with the empty list while the
    archive is being indexed, and fails with the error of [get_message]
    whenever it is not: the row's id is in neither store. *)
Theorem query_fails_after_remove (env : environment) (st : client_impl) (message_id : Z)
    (row : mail_index_record.t) :
  _property_is_open st = true →
  _processing_db st !! message_id = None →
  row ∈ _mail_index st →
  mail_index_record.id row = message_id →
  ∃ st', client_remove_message message_id st = (returned (), st')
    ∧ row ∈ _mail_index st'
    ∧ _archive_indexing_future st' = _archive_indexing_future st
    ∧ client_get_messages_by_sender env (mail_index_record.sender row) st'
      = match _archive_indexing_future st' with
        | future_running => (returned [], st')
        | _ => (thrown (assert_exception "Message ${id} not found."), st')
        end.
Proof.
  intros Hopen Hnone Hrow Hid.
  assert (∃ st', client_remove_message message_id st = (returned (), st')
            ∧ _processing_db st' = _processing_db st
            ∧ _archive st' = delete message_id (_archive st)
            ∧ _mail_index st' = _mail_index st
            ∧ _property_is_open st' = true
            ∧ _archive_indexing_future st' = _archive_indexing_future st)
    as (st' & Hremove & Hp & Ha & Hi & Ho & Hf).
  { unfold client_remove_message, assert_is_open, is_open. run.
    rewrite Hopen. simpl. rewrite Hnone. simpl.
    destruct (_archive st !! message_id) eqn:Harchive; simpl;
      eexists; (split; [reflexivity|]); simpl; split_and!; try done.
    symmetry. by apply delete_id. }
  exists st'. split; [done|]. split; [by rewrite Hi|]. split; [done|].
  unfold client_get_messages_by_sender, get_messages_by_sender, indexing_in_progress,
    assert_is_open, is_open. run.
  rewrite Ho. simpl.
  destruct (_archive_indexing_future st'); [|done|]; simpl;
    (apply headers_of_dangling; exists row;
     split; [rewrite Hi; apply list_elem_of_filter; split; [done|];
             by rewrite ordered_perm
            |rewrite Hid, Hp, Ha; split; [done|apply lookup_delete_eq]]).
Qed.

(** bob's message 8 from alice is removed from the archive after the
    indexing has completed; the query on alice fails from then on. *)
Lemma query_fails_after_remove_witness :
  _archive_indexing_future more_samples.with_mail = future_ready
  ∧ ∃ st', client_remove_message 8 more_samples.with_mail = (returned (), st')
      ∧ client_get_messages_by_sender sample.env "alice" st'
        = (thrown (assert_exception "Message ${id} not found."), st').
Proof.
  split; [reflexivity|].
  destruct (query_fails_after_remove sample.env more_samples.with_mail 8
              (mail_index_record.mk 8 "alice" "bob" 150))
    as (st' & Hremove & _ & Hfuture & Hquery).
  - reflexivity.
  - vm_compute. reflexivity.
  - vm_compute. apply list_elem_of_here.
  - reflexivity.
  - exists st'. split; [exact Hremove|].
    etrans; [exact Hquery|]. rewrite Hfuture. reflexivity.
Defined.

(** ** Reopening *)

Lemma retry_message_requeues (env : environment) (email : mail_record.t)
    (st : client_impl) :
  mail_record.status email ≠ accepted →
  ∃ st', retry_message env email st = (returned (), st')
    ∧ _proof_of_work_jobs st'
      = (_proof_of_work_jobs st ++ requeued_for_proof_of_work env email)%list
    ∧ _transmit_message_jobs st'
      = (_transmit_message_jobs st ++ requeued_for_transmission email)%list
    ∧ _archive st' = _archive st ∧ _mail_index st' = _mail_index st.
Proof.
  intros Hstatus. unfold retry_message, requeued_for_proof_of_work,
    requeued_for_transmission.
  destruct (mail_record.status email) eqn:Hs; try done; run;
    try (eexists; split; [reflexivity|]; simpl; by rewrite ?app_nil_r).
  destruct (process_outgoing_mail_stores env email st)
    as (st' & -> & Ha & _ & Hi & Ht & _ & Hstored). simpl in Hstored.
  exists st'. split; [done|]. rewrite Ht, app_nil_r.
  destruct (decide _); destruct Hstored as [_ ->]; by rewrite ?app_nil_r.
Qed.

Lemma retry_all_requeues (env : environment) (rows : list (Z * mail_record.t))
    (st : client_impl) :
  Forall (λ row, mail_record.status row.2 ≠ accepted) rows →
  ∃ st', retry_all env rows st = (returned (), st')
    ∧ _proof_of_work_jobs st'
      = (_proof_of_work_jobs st
         ++ concat ((λ row, requeued_for_proof_of_work env row.2) <$> rows))%list
    ∧ _transmit_message_jobs st'
      = (_transmit_message_jobs st
         ++ concat ((λ row, requeued_for_transmission row.2) <$> rows))%list
    ∧ _archive st' = _archive st ∧ _mail_index st' = _mail_index st.
Proof.
  intros Hrows. revert st. induction Hrows as [|row rows Hrow Hrows IH]; intros st; simpl.
  - eexists. split; [reflexivity|]. by rewrite !app_nil_r.
  - unfold mbind, M_bind.
    destruct (retry_message_requeues env row.2 st Hrow)
      as (st1 & -> & Hp & Ht & Ha & Hi).
    destruct (IH st1) as (st' & -> & Hp' & Ht' & Ha' & Hi').
    exists st'. split; [done|].
    rewrite Hp', Ht', Ha', Hi', Hp, Ht, Ha, Hi, <- !app_assoc. done.
Qed.

(** What [open] does over a directory it accepts. *)
Lemma open_run (env : environment) (st : client_impl) :
  (_property_db st !! "version" = None
   ∨ _property_db st !! "version" = Some (v_int64 BTS_MAIL_CLIENT_DATABASE_VERSION)) →
  (∀ key stored, _processing_disk st !! key = Some stored →
                 mail_record.r_status stored ≠ accepted) →
  let rows := (cursor (mail_record.unpack <$> _processing_disk st)).*2 in
  ∃ st', open env st = (returned (), st')
    ∧ _property_is_open st' = true
    ∧ _archive_indexing_future st' = future_running
    ∧ _proof_of_work_jobs st'
      = (_proof_of_work_jobs st ++ concat (requeued_for_proof_of_work env <$> rows))%list
    ∧ _transmit_message_jobs st'
      = (_transmit_message_jobs st ++ concat (requeued_for_transmission <$> rows))%list
    ∧ _archive st' = _archive st ∧ _mail_index st' = _mail_index st.
Proof.
  intros Hversion Hstatus rows.
  assert (Forall (λ row : Z * mail_record.t, mail_record.status row.2 ≠ accepted)
            (cursor (mail_record.unpack <$> _processing_disk st))) as Hrows.
  { apply Forall_forall. intros [key email] Hin. unfold cursor in Hin.
    rewrite merge_sort_Permutation in Hin. apply elem_of_map_to_list in Hin.
    rewrite lookup_fmap in Hin.
    destruct (_processing_disk st !! key) as [stored|] eqn:Hstored; [|done].
    simpl in Hin. simplify_eq. simpl. by eapply Hstatus. }
  unfold open, is_open, archive.open, archive.close, processing_db.open,
    processing_db.close, inbox.open, property_db.open, property_db.close, index_archive.
  run.
  destruct Hversion as [Hversion|Hversion];
    repeat (rewrite ?Hversion, ?lookup_insert_eq; simpl);
    match goal with |- context [retry_all env ?rs ?s] =>
      pose proof (retry_all_property_db env rs s) as [_ Hopen];
      destruct (retry_all_requeues env rs s Hrows) as (st1 & Hretry & Hp & Ht & Ha & Hi)
    end;
    rewrite Hretry in *; simpl in *;
    eexists; (split; [reflexivity|]); simpl;
    rewrite Hp, Ht, Ha, Hi; subst rows; rewrite <- !list_fmap_compose; done.
Qed.


(** Reopening puts the pipeline back in order.  Over a directory with the
    supported version (or none) and no accepted record in processing,
    [open] returns with the client open and the indexing started, and the
    queues get, in the order of the keys, the proof-of-work queue the ids of
    the records in status proof_of_work and of the submitted records whose
    recipient has a server, the transmit queue the ids of the records in
    status transmitting; failed and canceled records are not queued. *)
Theorem open_requeues (env : environment) (st : client_impl) :
  (_property_db st !! "version" = None
   ∨ _property_db st !! "version" = Some (v_int64 BTS_MAIL_CLIENT_DATABASE_VERSION)) →
  (∀ key stored, _processing_disk st !! key = Some stored →
                 mail_record.r_status stored ≠ accepted) →
  let rows := (cursor (mail_record.unpack <$> _processing_disk st)).*2 in
  ∃ st', open env st = (returned (), st')
    ∧ _property_is_open st' = true
    ∧ _archive_indexing_future st' = future_running
    ∧ _proof_of_work_jobs st'
      = (_proof_of_work_jobs st ++ concat (requeued_for_proof_of_work env <$> rows))%list
    ∧ _transmit_message_jobs st'
      = (_transmit_message_jobs st ++ concat (requeued_for_transmission <$> rows))%list
    ∧ _archive st' = _archive st ∧ _mail_index st' = _mail_index st.
Proof. apply open_run. Qed.

Lemma open_requeues_witness :
  let crashed := restart (sample.with_processing (sample.outgoing "bob" transmitting)
                            (sample.with_processing
                               (mail_record.mk 3 failed "alice" "bob" 77 sample.ciphertext
                                  [("A", 1)] 10 "server busy") sample.opened)) in
  ∃ st', open sample.env crashed = (returned (), st')
    ∧ _property_is_open st' = true
    ∧ _proof_of_work_jobs st' = []
    ∧ _transmit_message_jobs st' = [5].
Proof.
  intros crashed.
  destruct (open_requeues sample.env crashed) as (st' & H1 & H2 & _ & H4 & H5 & _).
  - right. vm_compute. reflexivity.
  - intros key stored. unfold crashed, restart, sample.with_processing. simpl.
    intros [[_ <-]|[_ [[_ <-]|[_ H]]%lookup_insert_Some]]%lookup_insert_Some;
      [discriminate..|done].
  - exists st'. split_and!; [exact H1|exact H2| |].
    + rewrite H4. vm_compute. reflexivity.
    + rewrite H5. vm_compute. reflexivity.
Defined.

(** ** Invariants of the index and of the archive *)

(** No two rows of the index have one id: each of the three places that
    insert into the index ([finalize_message], the fetcher, the indexing
    task) keeps it so. *)
Theorem index_ids_stay_unique (env : environment) (st : client_impl) :
  NoDup (mail_index_record.id <$> _mail_index st) →
  (∀ message_id,
     NoDup (mail_index_record.id <$> _mail_index (finalize_message env message_id st).2))
  ∧ (∀ account server inventory_id ciphertext,
       NoDup (mail_index_record.id
                <$> _mail_index (store_fetched env account server inventory_id
                                   ciphertext st).2))
  ∧ NoDup (mail_index_record.id <$> _mail_index (index_archive_task st).2).
Proof.
  intros Hunique. split_and!.
  - intros message_id. unfold finalize_message. run.
    destruct (_processing_db st !! message_id); simpl; [|done].
    by apply index_insert_unique.
  - intros account server inventory_id ciphertext. unfold store_fetched. run.
    repeat case_match; simplify_eq; simpl; by apply index_insert_unique.
  - rewrite index_archive_task_scan. simpl. by apply scan_unique.
Qed.

Lemma index_ids_stay_unique_witness :
  NoDup (mail_index_record.id
           <$> _mail_index (store_fetched sample.env sample.bob_account ("B", 2) 8
                              sample.inbound more_samples.with_mail).2).
Proof.
  apply (index_ids_stay_unique sample.env more_samples.with_mail).
  vm_compute. apply NoDup_singleton.
Defined.

(** The archive stays keyed by the id of its records: [finalize_message]
    and [remove_message] keep it so, and the fetcher does when the message a
    server sends for an inventory id has that id. *)
Theorem archive_stays_keyed (env : environment) (st : client_impl) :
  archive_keyed st →
  (∀ message_id, archive_keyed (finalize_message env message_id st).2)
  ∧ (∀ message_id, archive_keyed (client_remove_message message_id st).2)
  ∧ (∀ account server ciphertext,
       archive_keyed (store_fetched env account server (digest env ciphertext)
                        ciphertext st).2).
Proof.
  intros Hkeyed. split_and!.
  - intros message_id key record. unfold finalize_message. run.
    destruct (_processing_db st !! message_id); simpl; [|apply Hkeyed].
    intros [[<- <-]|[_ ?]]%lookup_insert_Some; [done|by apply Hkeyed].
  - intros message_id key record. unfold client_remove_message, assert_is_open, is_open.
    run. repeat case_match; simplify_eq; simpl; try apply Hkeyed.
    intros [_ ?]%lookup_delete_Some. by apply Hkeyed.
  - intros account server ciphertext key record. unfold store_fetched. run.
    destruct (decide (message.type _ = mail.transaction_notice)); simpl;
      (destruct (_archive st !! digest env ciphertext) as [stored|] eqn:Hstored; simpl;
       [destruct (decide (mail_archive_record.status stored = accepted)); simpl|]);
      (intros [[<- <-]|[_ ?]]%lookup_insert_Some; [|by apply Hkeyed]); simpl;
      try done; by apply Hkeyed.
Qed.

Lemma archive_stays_keyed_witness :
  archive_keyed (store_fetched sample.env sample.bob_account ("A", 1) 8 sample.inbound
                   sample.opened).2.
Proof.
  apply (archive_stays_keyed sample.env sample.opened).
  intros key record. vm_compute. discriminate.
Defined.

(** The index is rebuilt from the archive on every open.  Over a directory
    with the supported version (or none), no accepted record in processing
    and an archive in which every record is stored under its own id, once
    [open] has returned after a restart and the indexing task has completed
    with nothing else in between, the index has unique ids and, for every
    archive row, the row built from it. *)
Theorem index_rebuilt_after_restart (env : environment) (st : client_impl) :
  (_property_db st !! "version" = None
   ∨ _property_db st !! "version" = Some (v_int64 BTS_MAIL_CLIENT_DATABASE_VERSION)) →
  (∀ key stored, _processing_disk st !! key = Some stored →
                 mail_record.r_status stored ≠ accepted) →
  archive_keyed st →
  let reopened := (index_archive_task (open env (restart st)).2).2 in
  _archive_indexing_future reopened = future_ready
  ∧ _archive reopened = _archive st
  ∧ NoDup (mail_index_record.id <$> _mail_index reopened)
  ∧ ∀ key record, _archive st !! key = Some record →
      mail_index_record.of_archive_record record ∈ _mail_index reopened.
Proof.
  intros Hversion Hstatus Hkeyed reopened.
  destruct (open_run env (restart st)) as (st1 & Hopen & _ & _ & _ & _ & Harchive & Hindex);
    [done..|].
  subst reopened. rewrite Hopen. simpl in *.
  destruct (index_archive_task_coherent st1) as [Hunique Hrows].
  { done. }
  { intros key record. rewrite Harchive. apply Hkeyed. }
  rewrite index_archive_task_scan in *. simpl in *.
  split_and!; [done|done|done|]. intros key record Hrecord.
  apply (Hrows key). by rewrite Harchive.
Qed.

Lemma index_rebuilt_after_restart_witness :
  mail_index_record.mk 8 "alice" "bob" 200
  ∈ _mail_index (index_archive_task
                   (open sample.env (restart more_samples.with_mail)).2).2.
Proof.
  assert (_processing_disk more_samples.with_mail = ∅) as Hdisk
    by (vm_compute; reflexivity).
  assert (_archive more_samples.with_mail
          = {[8 := mail_archive_record.mk 8 received "alice" "bob" 1077 sample.inbound
                     [("A", 1)]]}) as Harchive
    by (vm_compute; reflexivity).
  destruct (index_rebuilt_after_restart sample.env more_samples.with_mail)
    as (_ & _ & _ & Hrows).
  - right. vm_compute. reflexivity.
  - intros key stored. rewrite Hdisk, lookup_empty. discriminate.
  - intros key record. rewrite Harchive.
    by intros [<- <-]%lookup_singleton_Some.
  - apply (Hrows 8 (mail_archive_record.mk 8 received "alice" "bob" 1077 sample.inbound
                      [("A", 1)])).
    rewrite Harchive. apply lookup_singleton_eq.
Defined.

(** ** Fetcher *)

(** How the fetcher files a downloaded message.  The index gets the row of
    the header unless the id is taken, and the processing store is not
    touched.  An id the archive does not have gets a received record with
    this server, an inbox entry, and is counted.  An id the archive has as
    accepted (a message this client sent) keeps the archived record, which
    becomes received and gains the server; it gets an inbox entry and is
    counted.  An id the archive has in any other status only gains the
    server: no inbox entry, no count. *)
Theorem store_fetched_merges (env : environment) (account : wallet_account_record)
    (server : string * Z) (inventory_id : Z) (ciphertext : message.t) (st : client_impl) :
  let header := fetched_header env account ciphertext in
  let st' := (store_fetched env account server inventory_id ciphertext st).2 in
  let counted := _inbox st' = <[email_header.id header := header]> (_inbox st)
                 ∧ _messages_in st' = (_messages_in st + 1) mod 2 ^ 32 in
  let not_counted := _inbox st' = _inbox st ∧ _messages_in st' = _messages_in st in
  _mail_index st' = index_insert (mail_index_record.of_header header) (_mail_index st)
  ∧ pipeline st' = pipeline st
  ∧ (∀ key, key ≠ inventory_id → _archive st' !! key = _archive st !! key)
  ∧ match _archive st !! inventory_id with
    | None =>
        _archive st' !! inventory_id
        = Some (mail_archive_record.mk (digest env ciphertext) received
                  (email_header.sender header) (name account) (account_address account)
                  ciphertext [server])
        ∧ counted
    | Some stored =>
        let merged := mail_archive_record.set_mail_servers
                        (server_insert server (mail_archive_record.mail_servers stored))
                        stored in
        if decide (mail_archive_record.status stored = accepted)
        then _archive st' !! inventory_id
             = Some (mail_archive_record.set_status received merged)
             ∧ counted
        else _archive st' !! inventory_id = Some merged ∧ not_counted
    end.
Proof.
  intros header st' counted not_counted. subst st' counted not_counted header.
  unfold store_fetched, pipeline. run.
  destruct (decide (message.type (mail_open env (account_address account) ciphertext)
                    = mail.transaction_notice)); simpl;
    (destruct (_archive st !! inventory_id) as [stored|] eqn:Hstored; simpl;
     [destruct (decide (mail_archive_record.status stored = accepted)); simpl|]);
    (split_and!; try done;
     [intros key Hkey; by apply lookup_insert_ne|apply lookup_insert_eq]).
Qed.

Lemma pipeline_bind {A B} (m : M A) (k : A → M B) :
  (∀ st, pipeline (m st).2 = pipeline st) →
  (∀ a st, pipeline (k a st).2 = pipeline st) →
  ∀ st, pipeline ((m ≫= k) st).2 = pipeline st.
Proof.
  intros Hm Hk st. unfold mbind, M_bind. specialize (Hm st).
  destruct (m st) as [[a|e] st1]; simpl in *; [|done]. by rewrite Hk.
Qed.

Lemma store_fetched_pipeline (env : environment) account server inventory_id ciphertext
    (st : client_impl) :
  pipeline (store_fetched env account server inventory_id ciphertext st).2 = pipeline st.
Proof. unfold store_fetched, pipeline. run. repeat case_match; simplify_eq; done. Qed.

Lemma fetch_messages_pipeline (env : environment) account server results
    (st : client_impl) :
  pipeline (fetch_messages env account server results st).2 = pipeline st.
Proof.
  revert st. induction results as [|[[t inventory_id] [|ciphertext]] results IH];
    intros st; simpl; [done..|].
  apply pipeline_bind; [apply store_fetched_pipeline|]. intros _. apply IH.
Qed.

Lemma fetch_pages_pipeline (env : environment) account server pages (st : client_impl) :
  pipeline (fetch_pages env account server pages st).2 = pipeline st.
Proof.
  revert st. induction pages as [|[|results] pages IH]; intros st; simpl; [done..|].
  apply pipeline_bind; [apply fetch_messages_pipeline|].
  intros complete st0. destruct (complete && _); [apply IH|done].
Qed.

Lemma fetch_tasks_pipeline (env : environment) pass last_check_time servers
    (st : client_impl) :
  pipeline (fetch_tasks env pass last_check_time servers st).2 = pipeline st.
Proof.
  revert st. induction servers as [|server servers IH]; intros st; simpl; [done|].
  apply pipeline_bind.
  - intros st0. unfold fetch_task. destruct (server_says _ _ _); [done|].
    apply fetch_pages_pipeline.
  - intros joined. apply pipeline_bind; [apply IH|done].
Qed.

Lemma check_account_pipeline (env : environment) get_old_messages pass (st : client_impl) :
  pipeline (check_account env get_old_messages pass st).2 = pipeline st.
Proof.
  unfold check_account. apply pipeline_bind.
  - intros st0. destruct get_old_messages; [done|]. by run.
  - intros op. apply pipeline_bind.
    + intros st0. destruct op as [[]|]; done.
    + intros since. apply pipeline_bind; [apply fetch_tasks_pipeline|].
      intros joined. apply pipeline_bind; [by destruct joined|]. intros _ st0. by run.
Qed.

Lemma check_accounts_pipeline (env : environment) get_old_messages accounts
    (st : client_impl) :
  pipeline (check_accounts env get_old_messages accounts st).2 = pipeline st.
Proof.
  revert st. induction accounts as [|pass accounts IH]; intros st; simpl; [done|].
  apply pipeline_bind; [apply check_account_pipeline|]. intros _. apply IH.
Qed.

(** Checking for new mail never touches the outgoing pipeline: whatever the
    servers answer and however the call ends, the processing store (cache
    and disk) and the two job queues are as they were. *)
Theorem check_new_messages_leaves_pipeline (env : environment) (get_old_messages : bool)
    (accounts : list fetch_pass) (st : client_impl) :
  pipeline (client_check_new_messages env get_old_messages accounts st).2 = pipeline st.
Proof.
  unfold client_check_new_messages, check_new_mail, assert_is_open.
  apply pipeline_bind.
  - intros st0. unfold is_open. run. by destruct (_property_is_open st0).
  - intros _. apply pipeline_bind.
    + apply pipeline_bind; [done|]. intros _.
      apply pipeline_bind; [apply check_accounts_pipeline|]. intros _.
      apply pipeline_bind; done.
    + intros n. apply pipeline_bind; [|done]. intros st0. by case_bool_decide.
Qed.

(** ** Counting new mail *)

Lemma elem_of_seen_ids (c : client_impl) (id : Z) :
  id ∈ seen_ids c
  ↔ ∃ stored, _archive c !! id = Some stored ∧ mail_archive_record.status stored ≠ accepted.
Proof.
  unfold seen_ids. rewrite elem_of_dom. split.
  - intros [stored [Hstored Hstatus]%map_lookup_filter_Some]. eauto.
  - intros (stored & Hstored & Hstatus). exists stored.
    by apply map_lookup_filter_Some.
Qed.

Lemma count_new_app (ids1 ids2 : list Z) (seen_before : gset Z) :
  count_new seen_before (ids1 ++ ids2)
  = (count_new seen_before ids1 + count_new (list_to_set ids1 ∪ seen_before) ids2)%nat.
Proof.
  revert seen_before. induction ids1 as [|id ids1 IH]; intros seen_before; simpl.
  - f_equal. set_solver.
  - rewrite IH.
    assert (list_to_set ids1 ∪ ({[id]} ∪ seen_before)
            = (({[id]} ∪ list_to_set ids1) ∪ seen_before : gset Z)) as -> by set_solver.
    lia.
Qed.

Lemma counted_refl (st : client_impl) : counted [] st st.
Proof. unfold counted. simpl. split; [set_solver|done]. Qed.

Lemma counted_trans (ids1 ids2 : list Z) (st st1 st2 : client_impl) :
  counted ids1 st st1 → counted ids2 st1 st2 → counted (ids1 ++ ids2) st st2.
Proof.
  intros [Hseen1 Hcount1] [Hseen2 Hcount2]. split.
  - rewrite Hseen2, Hseen1, list_to_set_app_L. set_solver.
  - rewrite Hcount2, Hcount1, Hseen1, count_new_app.
    rewrite (Nat.add_comm (count_new _ ids1)). by rewrite Nat.iter_add.
Qed.

Lemma store_fetched_counted (env : environment) account server inventory_id ciphertext
    (st : client_impl) :
  counted [inventory_id] st (store_fetched env account server inventory_id ciphertext st).2.
Proof.
  assert (∀ id, id ∈ seen_ids (store_fetched env account server inventory_id ciphertext st).2
                ↔ id = inventory_id ∨ id ∈ seen_ids st) as Hseen.
  { intros id. rewrite !elem_of_seen_ids. unfold store_fetched. run.
    destruct (decide (message.type (mail_open env (account_address account) ciphertext)
                      = mail.transaction_notice)); simpl;
      (destruct (_archive st !! inventory_id) as [stored|] eqn:Hstored; simpl;
       [destruct (decide (mail_archive_record.status stored = accepted)); simpl|]);
      (destruct (decide (id = inventory_id)) as [->|Hne];
       [rewrite lookup_insert_eq; split; [by left|]; intros _; eexists; split; [done|];
        simpl; congruence
       |rewrite lookup_insert_ne by done; naive_solver]). }
  split.
  - apply set_eq. intros id. rewrite Hseen. set_solver.
  - simpl. rewrite Nat.add_0_r.
    destruct (decide (inventory_id ∈ seen_ids st)) as [Hin|Hin]; simpl.
    + apply elem_of_seen_ids in Hin as (stored & Hstored & Hstatus).
      unfold store_fetched. run.
      destruct (decide (message.type (mail_open env (account_address account) ciphertext)
                        = mail.transaction_notice)); simpl; rewrite Hstored; simpl;
        destruct (decide (mail_archive_record.status stored = accepted)); simpl; done.
    + assert (¬ ∃ stored, _archive st !! inventory_id = Some stored
                ∧ mail_archive_record.status stored ≠ accepted) as Hnew
        by (by rewrite <- elem_of_seen_ids).
      unfold store_fetched, bump. run.
      destruct (decide (message.type (mail_open env (account_address account) ciphertext)
                        = mail.transaction_notice)); simpl;
        (destruct (_archive st !! inventory_id) as [stored|] eqn:Hstored; simpl;
         [destruct (decide (mail_archive_record.status stored = accepted)); simpl|]);
        try done; exfalso; apply Hnew; eauto.
Qed.

Lemma fetch_messages_counted (env : environment) account server results
    (st : client_impl) :
  counted (downloaded_results results) st
    (fetch_messages env account server results st).2.
Proof.
  revert st. induction results as [|[[t inventory_id] [|ciphertext]] results IH];
    intros st; simpl; [apply counted_refl..|].
  unfold mbind, M_bind.
  pose proof (store_fetched_counted env account server inventory_id ciphertext st) as Hone.
  destruct (store_fetched_frame env account server inventory_id ciphertext st)
    as (st1 & Heq & _).
  rewrite Heq in *. simpl in Hone.
  by apply (counted_trans [inventory_id]) with st1.
Qed.

Lemma fetch_pages_counted (env : environment) account server pages (st : client_impl) :
  counted (downloaded_pages pages) st (fetch_pages env account server pages st).2.
Proof.
  revert st. induction pages as [|[|results] pages IH]; intros st; simpl;
    [apply counted_refl..|].
  unfold mbind, M_bind.
  pose proof (fetch_messages_counted env account server results st) as Hpage.
  destruct (fetch_messages_effect env account server results st) as [Hcomplete _].
  destruct (fetch_messages env account server results st) as [complete st1].
  simpl in *. subst complete.
  apply counted_trans with st1; [done|].
  destruct (results_complete results && _); [apply IH|apply counted_refl].
Qed.

Lemma fetch_tasks_counted (env : environment) pass last_check_time servers
    (st : client_impl) :
  counted (downloaded_servers pass last_check_time servers) st
    (fetch_tasks env pass last_check_time servers st).2.
Proof.
  revert st. induction servers as [|server servers IH]; intros st; simpl;
    [apply counted_refl|].
  unfold mbind, M_bind.
  assert (counted (downloaded_script (server_says pass server.1 last_check_time)) st
            (fetch_task env (account pass) server
               (server_says pass server.1 last_check_time) st).2) as Hone.
  { unfold fetch_task, downloaded_script.
    destruct (server_says _ _ _); [apply counted_refl|apply fetch_pages_counted]. }
  destruct (fetch_task_frame env (account pass) server
              (server_says pass server.1 last_check_time) st) as (joined & st1 & Heq & _).
  rewrite Heq in *. simpl in Hone.
  destruct (fetch_tasks_frame env pass last_check_time servers st1)
    as (rest & st2 & Heq2 & _).
  specialize (IH st1). rewrite Heq2 in *. simpl in *.
  by apply counted_trans with st1.
Qed.

Lemma check_accounts_counted (env : environment) (get_old_messages : bool)
    (accounts : list fetch_pass) (st st' : client_impl) :
  check_accounts env get_old_messages accounts st = (returned (), st') →
  counted (run_downloads env get_old_messages accounts (_property_db st)) st st'.
Proof.
  revert st. induction accounts as [|pass accounts IH]; intros st Hrun; simpl in *.
  - unfold mret, M_ret in Hrun. simplify_eq. apply counted_refl.
  - unfold mbind, M_bind in Hrun.
    destruct (check_account env get_old_messages pass st) as [[[]|e] st1] eqn:Hpass;
      [|done].
    apply check_account_returned in Hpass as (st0 & Htasks & ->).
    pose proof (fetch_tasks_counted env pass
                  (last_check_time_of get_old_messages pass (_property_db st))
                  (get_mail_servers_for_recipient env (name (account pass))) st) as Hcount.
    destruct (fetch_tasks_frame env pass
                (last_check_time_of get_old_messages pass (_property_db st))
                (get_mail_servers_for_recipient env (name (account pass))) st)
      as (joined & st0' & Heq & Hprops & _).
    rewrite Htasks in Heq, Hcount. simplify_eq. simpl in Hcount.
    apply IH in Hrun. simpl in Hrun. rewrite Hprops in Hrun.
    eapply counted_trans; [exact Hcount|]. exact Hrun.
Qed.

Lemma bump_from_zero (n : nat) : Nat.iter n bump 0 = Z.of_nat n mod 2 ^ 32.
Proof.
  induction n as [|n IH]; [done|].
  rewrite Nat.iter_succ, IH. unfold bump.
  rewrite Zplus_mod_idemp_l. f_equal. lia.
Qed.

(** What [check_new_messages] returns and signals.  When the call returns,
    its result is the number of the downloaded inventory ids that were new
    when the fetcher got to them (not in the archive, or there as
    accepted), each id counted once however often and by however many
    servers it is delivered, as a 32-bit counter read as an [int]; the
    signal of new mail is emitted with that number when it is positive and
    not at all otherwise. *)
Theorem check_new_messages_counts (env : environment) (get_old_messages : bool)
    (accounts : list fetch_pass) (st st' : client_impl) (n : Z) :
  client_check_new_messages env get_old_messages accounts st = (returned n, st') →
  n = to_int (Z.of_nat (count_new (seen_ids st)
                          (run_downloads env get_old_messages accounts (_property_db st)))
              mod 2 ^ 32)
  ∧ new_mail_notifier st'
    = (new_mail_notifier st ++ (if bool_decide (n > 0) then [n] else []))%list
  ∧ seen_ids st'
    = list_to_set (run_downloads env get_old_messages accounts (_property_db st))
      ∪ seen_ids st.
Proof.
  intros Hrun.
  unfold client_check_new_messages, check_new_mail, assert_is_open, is_open in Hrun.
  run. destruct (_property_is_open st); simpl in Hrun; [|done].
  destruct (check_accounts env get_old_messages accounts (set_messages_in 0 st))
    as [[[]|e] st1] eqn:Haccounts; simpl in Hrun; [|done].
  pose proof (check_accounts_effect _ _ _ _ _ Haccounts) as [_ Hsignal].
  apply check_accounts_counted in Haccounts as [Hseen Hcount]. simpl in *.
  rewrite bump_from_zero in Hcount.
  change (seen_ids (set_messages_in 0 st)) with (seen_ids st) in *.
  rewrite Hcount in Hrun.
  destruct (bool_decide (to_int _ > 0)) eqn:Hpositive; simpl in Hrun; simplify_eq;
    rewrite ?Hpositive; simpl; rewrite ?app_nil_r, ?Hsignal; done.
Qed.

Lemma check_new_messages_counts_witness :
  let pass := mk_fetch_pass sample.bob_account 500
                (λ _ _, connected [inventory_result
                                     [(200, 8, message_result sample.inbound)]]) in
  (client_check_new_messages sample.env false [pass] sample.opened).1 = returned 1
  ∧ new_mail_notifier (client_check_new_messages sample.env false [pass] sample.opened).2
    = [1].
Proof.
  intros pass.
  destruct (check_new_messages_counts sample.env false [pass] sample.opened
              (client_check_new_messages sample.env false [pass] sample.opened).2 1)
    as (_ & H2 & _).
  - vm_compute. reflexivity.
  - split; [vm_compute; reflexivity|]. rewrite H2. reflexivity.
Defined.

(** ** The workers *)

(** The proof-of-work worker hands records on in the order of its queue.
    With distinct ids queued whose records are mined already (as after a
    restart), and a script for each, the worker empties its queue and the
    ids arrive at the back of the transmitter's queue in the same order. *)
Theorem proof_of_work_worker_keeps_order (env : environment) (queue : list Z)
    (scripts : list (list slice)) (st : client_impl) :
  _proof_of_work_jobs st = queue →
  NoDup queue →
  (length queue ≤ length scripts)%nat →
  (∀ id, id ∈ queue →
     ∃ email, _processing_db st !! id = Some email
       ∧ mail_record.id email = id
       ∧ mail_record.status email ≠ canceled
       ∧ mail_record.proof_of_work_target email ≠ 0
       ∧ digest env (mail_record.content email)
         ≤ mail_record.proof_of_work_target email) →
  ∃ st', proof_of_work_worker env scripts st = (returned job_done, st')
    ∧ _proof_of_work_jobs st' = []
    ∧ _transmit_message_jobs st' = (_transmit_message_jobs st ++ queue)%list.
Proof.
  revert scripts st. induction queue as [|id queue IH];
    intros scripts st Hqueue Hdistinct Hscripts Hmined.
  - exists st. destruct scripts; simpl; run; rewrite Hqueue; simpl;
      by rewrite app_nil_r.
  - destruct scripts as [|script scripts]; [simpl in Hscripts; lia|].
    apply NoDup_cons in Hdistinct as [Hfresh Hdistinct].
    destruct (Hmined id) as (email & Hfetch & Hid & Hstatus & Htarget & Hdigest);
      [set_solver|].
    destruct (already_mined_run env (set_proof_of_work_jobs queue st) id email script)
      as (st1 & Hjob & Hstored & Htransmit & Hjobs & _); [done..|].
    simpl in *.
    destruct (IH scripts st1) as (st' & Hworker & Hempty & Harrived);
      [done|done|lia| |].
    { intros id' Hin. destruct (Hmined id') as (email' & Hfetch' & Hrest); [set_solver|].
      exists email'. split; [|done]. rewrite Hstored.
      rewrite lookup_insert_ne; [done|]. intros ->. done. }
    exists st'. simpl. run. rewrite Hqueue. simpl. rewrite Hjob. simpl.
    rewrite Hworker. split; [done|]. split; [done|].
    by rewrite Harrived, Htransmit, <- app_assoc.
Qed.

Lemma proof_of_work_worker_keeps_order_witness :
  let st := set_proof_of_work_jobs [5; 3]
              (sample.with_processing (sample.outgoing "bob" proof_of_work)
                 (sample.with_processing
                    (mail_record.mk 3 proof_of_work "alice" "carol" 77
                       (message.mk mail.encrypted 77 0 3 "ct") [("A", 1)] 10 "")
                    sample.opened)) in
  ∃ st', proof_of_work_worker sample.env [[]; []] st = (returned job_done, st')
    ∧ _proof_of_work_jobs st' = []
    ∧ _transmit_message_jobs st' = [5; 3].
Proof.
  intros st.
  destruct (proof_of_work_worker_keeps_order sample.env [5; 3] [[]; []] st)
    as (st' & H1 & H2 & H3).
  - reflexivity.
  - apply NoDup_cons. split; [set_solver|]. apply NoDup_singleton.
  - simpl. lia.
  - intros id [->|[->|Hin]%elem_of_cons]%elem_of_cons; [..|set_solver];
      eexists; (split; [vm_compute; reflexivity|]);
      (split_and!; [reflexivity|discriminate|discriminate|vm_compute; discriminate]).
  - exists st'. split_and!; [exact H1|exact H2|exact H3].
Defined.

(** ** Further compositions *)

(** The id a message was sent under stops resolving when the message is
    finalized after mining has changed its digest: [get_message] finds the
    message under the final id only, and answers the stable id with an
    error. *)
Theorem finalize_changes_handle (env : environment) (st : client_impl) (message_id : Z)
    (email : mail_record.t) :
  _processing_db st !! message_id = Some email →
  digest env (mail_record.content email) ≠ message_id →
  _archive st !! message_id = None →
  _processing_db st !! digest env (mail_record.content email) = None →
  ∃ st' found,
    finalize_message env message_id st = (returned (), st')
    ∧ get_message env message_id st'
      = (thrown (assert_exception "Message ${id} not found."), st')
    ∧ get_message env (digest env (mail_record.content email)) st' = (returned found, st')
    ∧ email_header.id (header found) = digest env (mail_record.content email)
    ∧ email_header.sender (header found) = mail_record.sender email
    ∧ email_header.recipient (header found) = mail_record.recipient email
    ∧ mail_servers found = mail_record.mail_servers email.
Proof.
  intros Hfetch Hfinal Harchive Hfree.
  unfold finalize_message, get_message. run. rewrite Hfetch. simpl.
  eexists. eexists. split; [reflexivity|]. simpl.
  rewrite lookup_delete_eq. simpl.
  rewrite lookup_insert_ne by done. rewrite Harchive. simpl.
  rewrite lookup_delete_ne by done. rewrite Hfree. simpl.
  rewrite lookup_insert_eq. simpl. split; [done|]. split; [reflexivity|].
  unfold decrypted_archive_record. case_decide; simpl; done.
Qed.

Lemma finalize_changes_handle_witness :
  let email := mail_record.mk 15 transmitting "alice" "bob" 77
                 (message.mk mail.encrypted 77 5 20 "ct") [("A", 1)] 10 "" in
  ∃ st', finalize_message sample.env 15 (sample.with_processing email sample.opened)
         = (returned (), st')
    ∧ get_message sample.env 15 st'
      = (thrown (assert_exception "Message ${id} not found."), st')
    ∧ (get_message sample.env 3 st').2 = st'.
Proof.
  intros email.
  destruct (finalize_changes_handle sample.env (sample.with_processing email sample.opened)
              15 email) as (st' & found & H1 & H2 & H3 & _).
  - vm_compute. reflexivity.
  - vm_compute. discriminate.
  - vm_compute. reflexivity.
  - vm_compute. reflexivity.
  - exists st'. split_and!; [exact H1|exact H2|].
    change (digest sample.env (mail_record.content email)) with 3 in H3. by rewrite H3.
Defined.

(** A canceled record can be neither retried nor removed: once
    [cancel_message] has marked it, [retry_message] and [remove_message]
    refuse it and change nothing, and the dispatch of [open] passes it by.
    Only the proof-of-work job, if the id is still queued, moves it on. *)
Theorem canceled_record_is_refused (env : environment) (st : client_impl) (message_id : Z)
    (email : mail_record.t) :
  _property_is_open st = true →
  _processing_db st !! message_id = Some email →
  mail_record.status email = submitted ∨ mail_record.status email = proof_of_work →
  ∃ st', client_cancel_message message_id st = (returned (), st')
    ∧ _processing_db st' !! message_id = Some (mail_record.set_status canceled email)
    ∧ _proof_of_work_jobs st' = _proof_of_work_jobs st
    ∧ (∃ e, client_retry_message env message_id st' = (thrown e, st'))
    ∧ (∃ e, client_remove_message message_id st' = (thrown e, st'))
    ∧ retry_message env (mail_record.set_status canceled email) st' = (returned (), st').
Proof.
  intros Hopen Hfetch Hstatus.
  unfold client_cancel_message, client_retry_message, client_remove_message,
    assert_is_open, is_open. run.
  rewrite Hopen. simpl. rewrite Hfetch. simpl.
  rewrite bool_decide_eq_true_2 by (destruct Hstatus as [-> | ->]; simpl; lia).
  simpl. eexists. split; [reflexivity|]. simpl. rewrite Hopen. simpl.
  rewrite lookup_insert_eq. simpl. split_and!; eauto.
Qed.

Lemma canceled_record_is_refused_witness :
  ∃ st', client_cancel_message 5
           (sample.with_processing (sample.outgoing "bob" proof_of_work) sample.opened)
         = (returned (), st')
    ∧ (∃ e, client_retry_message sample.env 5 st' = (thrown e, st'))
    ∧ (∃ e, client_remove_message 5 st' = (thrown e, st')).
Proof.
  destruct (canceled_record_is_refused sample.env
              (sample.with_processing (sample.outgoing "bob" proof_of_work) sample.opened)
              5 (sample.outgoing "bob" proof_of_work))
    as (st' & H1 & _ & _ & H4 & H5 & _).
  - reflexivity.
  - vm_compute. reflexivity.
  - right. reflexivity.
  - exists st'. split_and!; [exact H1|exact H4|exact H5].
Defined.

(** A record whose only server answers timestamp_too_old is put back in
    status proof_of_work with the next nonce, and that is all: the job
    returns without queueing the record for proof of work, and nothing is
    archived. *)
Theorem transmit_message_job_stale_not_requeued (env : environment) (st : client_impl)
    (message_id : Z) (email : mail_record.t) (a : string) (ea : Z) :
  _processing_db st !! message_id = Some email →
  mail_record.mail_servers email = [(a, ea)] →
  timestamp_too_old_what env ≠ message_already_stored_what env →
  ∃ st' stored,
    transmit_message_job env message_id
      [task_started a; task_replied a (error_reply (timestamp_too_old_what env))] st
    = (returned job_done, st')
    ∧ _processing_db st' !! message_id = Some stored
    ∧ mail_record.status stored = proof_of_work
    ∧ mail_record.content stored = message.incr_nonce (mail_record.content email)
    ∧ mail_record.failure_reason stored = timestamp_too_old_what env
    ∧ _proof_of_work_jobs st' = _proof_of_work_jobs st
    ∧ _transmit_message_jobs st' = _transmit_message_jobs st
    ∧ _archive st' = _archive st.
Proof.
  intros Hfetch Hservers Hwhat.
  unfold transmit_message_job. run. rewrite Hfetch. simpl.
  rewrite Hservers. simpl. run_with Hfetch.
  eexists. eexists. split; [reflexivity|]. simpl.
  split_and!; [apply lookup_insert_eq|done..].
Qed.

Lemma transmit_message_job_stale_not_requeued_witness :
  let email := mail_record.mk 5 proof_of_work "alice" "carol" 77 sample.ciphertext
                 [("A", 1)] 10 "" in
  ∃ st' stored,
    transmit_message_job sample.env 5
      [task_started "A"; task_replied "A" (error_reply "timestamp_too_old")]
      (sample.with_processing email sample.opened)
    = (returned job_done, st')
    ∧ _processing_db st' !! 5 = Some stored
    ∧ mail_record.status stored = proof_of_work
    ∧ _proof_of_work_jobs st' = [].
Proof.
  intros email.
  destruct (transmit_message_job_stale_not_requeued sample.env
              (sample.with_processing email sample.opened) 5 email "A" 1)
    as (st' & stored & H1 & H2 & H3 & _ & _ & H6 & _).
  - vm_compute. reflexivity.
  - reflexivity.
  - discriminate.
  - exists st', stored. split_and!; [exact H1|exact H2|exact H3|exact H6].
Defined.

(** The timeout of a transmission does not see the servers that have
    succeeded: it tests its own copy of [successful_servers], taken when it
    was scheduled and empty ever since.  With two servers, of which one has
    stored the message and the other has not answered when the timeout
    fires, the record is marked failed as timed out, the job ends by the
    exception of the canceled sub-task, and nothing is archived. *)
Theorem transmit_timeout_ignores_success (env : environment) (st : client_impl)
    (message_id : Z) (email : mail_record.t) (a b : string) (ea eb : Z) :
  _processing_db st !! message_id = Some email →
  mail_record.id email = message_id →
  mail_record.mail_servers email = [(a, ea); (b, eb)] →
  a ≠ b →
  ∃ st' stored,
    transmit_message_job env message_id
      [task_started a; task_started b;
       task_replied a (stored_reply (digest env (mail_record.content email))); timed_out] st
    = (thrown canceled_exception, st')
    ∧ _processing_db st' !! message_id = Some stored
    ∧ mail_record.status stored = failed
    ∧ mail_record.failure_reason stored = "Timed out while transmitting message."
    ∧ mail_record.content stored = mail_record.content email
    ∧ _archive st' = _archive st
    ∧ _mail_index st' = _mail_index st.
Proof.
  intros Hfetch Hid Hservers Hab.
  destruct email as [id status sender recipient recipient_key content servers target reason].
  simpl in *. subst id servers.
  unfold transmit_message_job. run. rewrite Hfetch. simpl. run_with Hfetch.
  unfold transmit_timeout. run_with Hfetch.
  eexists. eexists. split; [reflexivity|]. simpl.
  split_and!; [apply lookup_insert_eq|done..].
Qed.

Lemma transmit_timeout_ignores_success_witness :
  ∃ st' stored,
    transmit_message_job sample.env 5
      [task_started "A"; task_started "B"; task_replied "A" (stored_reply 5); timed_out]
      (sample.with_processing (sample.outgoing "bob" proof_of_work) sample.opened)
    = (thrown canceled_exception, st')
    ∧ _processing_db st' !! 5 = Some stored
    ∧ mail_record.status stored = failed
    ∧ _archive st' = ∅.
Proof.
  destruct (transmit_timeout_ignores_success sample.env
              (sample.with_processing (sample.outgoing "bob" proof_of_work) sample.opened)
              5 (sample.outgoing "bob" proof_of_work) "A" "B" 1 2)
    as (st' & stored & H1 & H2 & H3 & _ & _ & H6 & _).
  - vm_compute. reflexivity.
  - reflexivity.
  - reflexivity.
  - discriminate.
  - exists st', stored. split_and!; [exact H1|exact H2|exact H3|exact H6].
Defined.
